(** * Campaign dashboard: KPI derivation, aggregation, budget model, filters
      and display formatting of [dashboard.py]

    Conventions of the embedding.

    - A pandas DataFrame is a list of rows.  The categorical columns
      ("App Name", "Campaign Id", "Creative Id", "Date") of a row live in a
      finite map from column to cell, so that a frame produced by
      [aggregate_data] (which keeps the grouping columns only) is again a
      frame that [aggregate_data] accepts.
    - A number is an exact rational ([Qc]), and the IEEE results of a
      division by zero (inf, -inf, NaN) and pandas' missing value are
      explicit in the type [fl] of computed cells.  The frames keep the
      exact value of every sum and ratio.  Where the binary rounding of
      float64 or the wrap-around of int64 decides what the code shows, it is
      written out: [f64_round] is the rounding of a rational to the nearest
      float64, [f64_group_sum] the compensated float64 sum of a groupby,
      [f64_tree_sum] a float64 sum in any bracketing, [int64_sum] the sum of
      an int64 column.  The statements that compare sums computed on
      different routes are made for the frames on which these agree with
      the exact sums ([exact_frame], [sums_fit_int64]).
    - Dates are day numbers ([Z]): the loader parses "%d-%b-%y", so every
      timestamp is a midnight and [.date()] loses nothing.
    - A Python [str] is a [string] whose characters are the code points
      below 256. *)

From Stdlib Require Import QArith Qcanon Ascii.
From Stdlib Require String.
From stdpp Require Import base numbers gmap strings list sorting pretty.

Local Open Scope Z_scope.

(** ** Numbers *)

(** A cell of a computed (float64/object) column.  [Fin 0] is the zero
    that is printed without a sign; the data holds no negative zero. *)
Inductive fl :=
  | Fin (q : Qc)
  | PosInf
  | NegInf
  | NaN
  | NA.

Global Instance fl_eq_dec : EqDecision fl.
Proof. solve_decision. Defined.

Definition is_finite (x : fl) : bool :=
  match x with Fin _ => true | _ => false end.

Definition Qc_ltb (a b : Qc) : bool := bool_decide (a < b)%Qc.

(** [a / b] on two finite floats, as IEEE (and so numpy and pandas) has it:
    x/0 is inf with the sign of x, and 0/0 is NaN. *)
Definition div_fin (a b : Qc) : fl :=
  if decide (b = 0%Qc) then
    if Qc_ltb 0 a then PosInf
    else if Qc_ltb a 0 then NegInf
    else NaN
  else Fin (a / b)%Qc.

(** Series / Series. *)
Definition fdiv (x y : fl) : fl :=
  match x, y with
  | Fin a, Fin b => div_fin a b
  | NA, _ | _, NA => NA
  | NaN, _ | _, NaN => NaN
  | Fin _, (PosInf | NegInf) => Fin 0
  | (PosInf | NegInf), (PosInf | NegInf) => NaN
  | PosInf, Fin b => if Qc_ltb b 0 then NegInf else PosInf
  | NegInf, Fin b => if Qc_ltb b 0 then PosInf else NegInf
  end.

(** Series * Series. *)
Definition fmul (x y : fl) : fl :=
  match x, y with
  | Fin a, Fin b => Fin (a * b)%Qc
  | NA, _ | _, NA => NA
  | NaN, _ | _, NaN => NaN
  | PosInf, Fin b | Fin b, PosInf =>
      if Qc_ltb 0 b then PosInf else if Qc_ltb b 0 then NegInf else NaN
  | NegInf, Fin b | Fin b, NegInf =>
      if Qc_ltb 0 b then NegInf else if Qc_ltb b 0 then PosInf else NaN
  | PosInf, PosInf | NegInf, NegInf => PosInf
  | PosInf, NegInf | NegInf, PosInf => NaN
  end.

(** [df.replace([float("inf"), -float("inf")], pd.NA)] on one cell. *)
Definition replace_inf (x : fl) : fl :=
  match x with
  | PosInf | NegInf => NA
  | _ => x
  end.

(** [df.fillna(0)] on one cell: NaN and NA are both missing. *)
Definition fillna0 (x : fl) : fl :=
  match x with
  | NaN | NA => Fin 0
  | _ => x
  end.

Definition thousand : Qc := Qc_of_Z 1000.
Definition hundred : Qc := Qc_of_Z 100.

(** The exact sum of a numeric column. *)
Definition sumQc (l : list Qc) : Qc := foldr Qcplus 0%Qc l.
Definition sumZ (l : list Z) : Z := foldr Z.add 0 l.

(** Rounding to the nearest integer, ties to even, as the conversion of a
    float to decimal digits and the rounding of a float64 operation do. *)
Definition round_half_even (q : Qc) : Z :=
  let a := Qnum q in
  let b := Z.pos (Qden q) in
  let f := a `div` b in
  let r := a `mod` b in
  if 2 * r <? b then f
  else if b <? 2 * r then f + 1
  else if Z.even f then f else f + 1.

Definition Qc_abs (q : Qc) : Qc := if Qc_ltb q 0 then (- q)%Qc else q.

Definition Qc_leb (a b : Qc) : bool := bool_decide (a ≤ b)%Qc.

(** *** float64 *)

(** [2 ^ e] for an exponent of either sign. *)
Definition pow2 (e : Z) : Qc :=
  (Qc_of_Z (2 ^ Z.max e 0) / Qc_of_Z (2 ^ Z.max (- e) 0))%Qc.

(** The binary exponent of a positive number: [2 ^ ilog2 a ≤ a < 2 * 2 ^
    ilog2 a]. *)
Definition ilog2 (a : Qc) : Z :=
  let k := Z.log2 (Qnum a) - Z.log2 (Z.pos (Qden a)) in
  if Qc_leb (pow2 k) a then k else k - 1.

(** The float64 nearest to a real number (IEEE 754 binary64, round to
    nearest, ties to even): 53 significant bits, exponents of the last bit
    from -1074 (subnormal numbers) upwards, infinity from [2 ^ 1024] on. *)
Definition f64_round (q : Qc) : fl :=
  let a := Qc_abs q in
  let e := Z.max (ilog2 a - 52) (-1074) in
  let m := round_half_even (a / pow2 e)%Qc in
  let r := (Qc_of_Z m * pow2 e)%Qc in
  if Qc_leb (pow2 1024) r
  then (if Qc_ltb q 0 then NegInf else PosInf)
  else Fin (if Qc_ltb q 0 then - r else r)%Qc.

(** The result of a float64 operation: the exact result, rounded. *)
Definition f64 (x : fl) : fl :=
  match x with
  | Fin q => f64_round q
  | _ => x
  end.

Definition fneg (x : fl) : fl :=
  match x with
  | Fin a => Fin (- a)%Qc
  | PosInf => NegInf
  | NegInf => PosInf
  | _ => x
  end.

Definition fadd (x y : fl) : fl :=
  match x, y with
  | Fin a, Fin b => Fin (a + b)%Qc
  | NA, _ | _, NA => NA
  | NaN, _ | _, NaN => NaN
  | PosInf, NegInf | NegInf, PosInf => NaN
  | PosInf, _ | _, PosInf => PosInf
  | NegInf, _ | _, NegInf => NegInf
  end.

Definition f64_add (x y : fl) : fl := f64 (fadd x y).
Definition f64_sub (x y : fl) : fl := f64 (fadd x (fneg y)).
Definition f64_mul (x y : fl) : fl := f64 (fmul x y).

Definition is_nan (x : fl) : bool :=
  match x with
  | NaN | NA => true
  | _ => false
  end.

(** The sum of a float64 column within one group, as pandas' groupby adds
    it: row after row with Kahan's compensation,
    [y = val - c; t = sum + y; c = (t - sum) - y; sum = t], where a
    compensation that is NaN is reset to 0. *)
Definition kahan_step (st : fl * fl) (val : fl) : fl * fl :=
  let '(sumx, compensation) := st in
  let y := f64_sub val compensation in
  let t := f64_add sumx y in
  let c := f64_sub (f64_sub t sumx) y in
  (t, if is_nan c then Fin 0 else c).

Definition f64_group_sum (l : list Qc) : fl :=
  (foldl kahan_step (Fin 0, Fin 0) (Fin <$> l)).1.

(** A float64 sum without compensation is a tree of additions over the
    values: [Series.sum()] adds a column of fewer than eight values from
    left to right ([left_sum]), a longer one in blocks, pairwise. *)
Inductive sum_tree :=
  | Leaf (x : Qc)
  | Plus (l r : sum_tree).

Fixpoint leaves (t : sum_tree) : list Qc :=
  match t with
  | Leaf x => [x]
  | Plus l r => leaves l ++ leaves r
  end.

Fixpoint f64_tree_sum (t : sum_tree) : fl :=
  match t with
  | Leaf x => Fin x
  | Plus l r => f64_add (f64_tree_sum l) (f64_tree_sum r)
  end.

Definition left_sum (l : list Qc) : sum_tree :=
  match l with
  | [] => Leaf 0%Qc
  | x :: l' => foldl (λ t y, Plus t (Leaf y)) (Leaf x) l'
  end.

(** The float64 a decimal literal denotes. *)
Definition double (q : Q) : Qc :=
  match f64_round (Q2Qc q) with
  | Fin d => d
  | _ => 0%Qc
  end.

(** *** int64 *)

(** The sum of an int64 column: every addition wraps around at [2 ^ 63]. *)
Definition wrap_int64 (z : Z) : Z := (z + 2 ^ 63) `mod` 2 ^ 64 - 2 ^ 63.

Definition int64_sum (l : list Z) : Z :=
  foldl (λ acc x, wrap_int64 (acc + x)) 0 l.

(** ** Strings: [str.strip()] *)

(** [str.isspace] on the code points below 256. *)
Definition isspace (c : ascii) : bool :=
  let n := N_of_ascii c in
  ((9 <=? n) && (n <=? 13) || (28 <=? n) && (n <=? 32)
   || (n =? 133) || (n =? 160))%N.

Fixpoint lstrip (s : string) : string :=
  match s with
  | EmptyString => EmptyString
  | String c s' => if isspace c then lstrip s' else s
  end.

Fixpoint rstrip (s : string) : string :=
  match s with
  | EmptyString => EmptyString
  | String c s' =>
      match rstrip s' with
      | EmptyString => if isspace c then EmptyString else String c EmptyString
      | t => String c t
      end
  end.

Definition strip (s : string) : string := rstrip (lstrip s).

(** ** Budget model *)

(** The [daily_budget] dict. *)
Definition daily_budget : gmap string Z :=
  <["MaxiBingo" := 4000]> (<["default" := 2000]> ∅).

(** [d[k]] with its KeyError. *)
Definition dict_getitem (d : gmap string Z) (k : string) : option Z := d !! k.

(** [d.get(k, dflt)]. *)
Definition dict_get (d : gmap string Z) (k : string) (dflt : Z) : Z :=
  default dflt (d !! k).

(** [daily_budget.get(str(app_name).strip(), daily_budget["default"])];
    [None] is the KeyError of [daily_budget["default"]]. *)
Definition daily_cap_in (d : gmap string Z) (app_name : string) : option Z :=
  dflt ← dict_getitem d "default";
  Some (dict_get d (strip app_name) dflt).

Definition daily_cap (app_name : string) : Z :=
  default 0 (daily_cap_in daily_budget app_name).

(** [(pd.to_datetime(end_date) - pd.to_datetime(start_date)).days + 1]. *)
Definition num_days (start_date end_date : Z) : Z :=
  end_date - start_date + 1.

(** The progress-bar site:
    [pct_used = (spend / total_budget) * 100 if total_budget > 0 else 0]. *)
Definition pct_used (spend : Qc) (total_budget : Z) : fl :=
  if decide (0 < total_budget)
  then fmul (fdiv (Fin spend) (Fin (Qc_of_Z total_budget))) (Fin hundred)
  else Fin 0.

(** The table sites ("% of Budget Used" of the app, day and campaign tables):
    [df["Spend ($)"] / df["Total Budget ($)"] * 100], with no guard. *)
Definition pct_of_budget_used (spend : Qc) (total_budget : Z) : fl :=
  fmul (fdiv (Fin spend) (Fin (Qc_of_Z total_budget))) (Fin hundred).

(** ** Frames *)

(** The categorical columns of the dataset. *)
Inductive column := AppName | CampaignId | CreativeId | Date.

Global Instance column_eq_dec : EqDecision column.
Proof. solve_decision. Defined.

Global Instance column_countable : Countable column.
Proof.
  refine (inj_countable'
    (λ c, match c with
          | AppName => 0%nat | CampaignId => 1%nat
          | CreativeId => 2%nat | Date => 3%nat end)
    (λ n, match n with
          | 0%nat => AppName | 1%nat => CampaignId
          | 2%nat => CreativeId | _ => Date end) _).
  by intros [].
Defined.

(** A value of a categorical column: a name or id, or a day. *)
Inductive cell :=
  | Str (s : string)
  | Day (d : Z).

Global Instance cell_eq_dec : EqDecision cell.
Proof. solve_decision. Defined.

(** The columns [aggregate_data] reads: the categorical columns present in
    the frame and the six base measures. *)
Record base := Base {
  cells : gmap column cell;
  spend : Qc;
  installs : Qc;
  impressions : Qc;
  payers_d7 : Qc;
  revenue_d7 : Qc;
  attribution : Qc
}.

(** A row of a frame that went through [load_data] or [aggregate_data]:
    the base columns and the seven computed ones.  [ROAS] is the column
    "ROAS D7_calc" of [load_data] and "ROAS D7" of [aggregate_data]. *)
Record row := Row {
  row_base :> base;
  CPI : fl;
  IPM : fl;
  CPM : fl;
  ROAS : fl;
  Payers_pct : fl;
  ARPI : fl;
  ARPP : fl
}.

(** The seven assignments shared by [load_data] (lines 58-64) and
    [aggregate_data] (lines 86-92), before the clean-up. *)
Definition calculated_fields (b : base) : row :=
  {| row_base := b;
     CPI := fdiv (Fin (spend b)) (Fin (installs b));
     IPM := fdiv (Fin (installs b)) (fdiv (Fin (impressions b)) (Fin thousand));
     CPM := fdiv (Fin (spend b)) (fdiv (Fin (impressions b)) (Fin thousand));
     ROAS := fdiv (Fin (revenue_d7 b)) (Fin (spend b));
     Payers_pct := fdiv (Fin (payers_d7 b)) (Fin (installs b));
     ARPI := fdiv (Fin (revenue_d7 b)) (Fin (installs b));
     ARPP := fdiv (Fin (revenue_d7 b)) (Fin (payers_d7 b)) |}.

(** A frame-wide cell operation; the base columns hold finite numbers and
    names, which neither [replace] nor [fillna] touches. *)
Definition map_cells (f : fl → fl) (r : row) : row :=
  {| row_base := row_base r;
     CPI := f (CPI r); IPM := f (IPM r); CPM := f (CPM r); ROAS := f (ROAS r);
     Payers_pct := f (Payers_pct r); ARPI := f (ARPI r); ARPP := f (ARPP r) |}.

Definition frame_replace_inf (df : list row) : list row :=
  map_cells replace_inf <$> df.

Definition frame_fillna0 (df : list row) : list row :=
  map_cells fillna0 <$> df.

(** [load_data] after parsing: the row-level calculated fields and the
    replacement of the division errors. *)
Definition load_data (parsed : list base) : list row :=
  frame_fillna0 (frame_replace_inf (calculated_fields <$> parsed)).

(** ** Group by *)

(** [Series.unique()]: the distinct values in order of first appearance. *)
Fixpoint unique `{EqDecision A} (l : list A) : list A :=
  match l with
  | [] => []
  | x :: l' => x :: filter (λ y, y ≠ x) (unique l')
  end.

(** Order of the group keys (groupby sorts them): strings by code point,
    days by number, tuples lexicographically. *)
Definition cell_leb (a b : cell) : bool :=
  match a, b with
  | Str s, Str t => String.leb s t
  | Day d, Day e => d <=? e
  | Str _, Day _ => true
  | Day _, Str _ => false
  end.

Fixpoint key_leb (k1 k2 : list cell) : bool :=
  match k1, k2 with
  | [], _ => true
  | _ :: _, [] => false
  | a :: k1', b :: k2' =>
      if decide (a = b) then key_leb k1' k2' else cell_leb a b
  end.

Definition key_le (k1 k2 : list cell) : Prop := key_leb k1 k2 = true.

Global Instance key_le_dec : RelDecision key_le.
Proof. intros k1 k2. unfold key_le. apply _. Defined.

(** The values of the grouping columns in a row; [None] is the KeyError of
    a column the frame does not have. *)
Definition row_key (group_cols : list column) (b : base) : option (list cell) :=
  mapM (λ c, cells b !! c) group_cols.

(** The rows of one group. *)
Definition group_rows (group_cols : list column) (k : list cell)
    (df : list row) : list row :=
  filter (λ r : row, row_key group_cols r = Some k) df.

(** Series.mean() of a group, exactly: the sum over the count; a group has
    at least one row. *)
Definition mean (l : list Qc) : Qc :=
  (sumQc l / Qc_of_Z (Z.of_nat (length l)))%Qc.

(** [df[c]] for a base column [c]. *)
Definition col {A} (c : base → A) (df : list row) : list A :=
  (λ r : row, c r) <$> df.

(** [.agg({...: "sum", ..., "Attribution %": "mean"})] on one group, with
    [as_index=False]: the key values come back as columns.  The row holds
    the exact sums and the exact mean; the sum that the code stores is
    [f64_group_sum] for a float64 column and [int64_sum] for an int64
    column, and these are the exact sum on a frame of counts
    ([exact_frame]) and where the sums fit ([sums_fit_int64]). *)
Definition agg_group (group_cols : list column) (k : list cell)
    (rows : list row) : base :=
  {| cells := list_to_map (zip group_cols k);
     spend := sumQc (col spend rows);
     installs := sumQc (col installs rows);
     impressions := sumQc (col impressions rows);
     payers_d7 := sumQc (col payers_d7 rows);
     revenue_d7 := sumQc (col revenue_d7 rows);
     attribution := mean (col attribution rows) |}.

(** [df.groupby(group_cols, as_index=False).agg(...)].  No group keys and a
    repeated grouping column are errors, and so is a missing column. *)
Definition group_keys (df : list row) (group_cols : list column)
    : option (list (list cell)) :=
  ks ← mapM (λ r : row, row_key group_cols r) df;
  Some (merge_sort key_le (unique ks)).

Definition groupby_agg (df : list row) (group_cols : list column)
    : option (list base) :=
  if decide (group_cols = []) then None
  else if decide (NoDup group_cols) then
    ks ← group_keys df group_cols;
    Some (map (λ k, agg_group group_cols k (group_rows group_cols k df)) ks)
  else None.

Definition aggregate_data (df : list row) (group_cols : list column)
    : option (list row) :=
  agg ← groupby_agg df group_cols;
  Some (frame_fillna0 (frame_replace_inf (calculated_fields <$> agg))).

(** ** Sidebar filters *)

(** [df[c]] for a categorical column [c]. *)
Definition column_values (c : column) (df : list row) : list cell :=
  omap (λ r : row, cells r !! c) df.

(** The mask [df[c].isin(selected)] at one row. *)
Definition isin_mask (c : column) (selected : list cell) (r : row) : bool :=
  match cells r !! c with
  | Some v => bool_decide (v ∈ selected)
  | None => false
  end.

(** [df[df[c].isin(selected)]]. *)
Definition isin (c : column) (selected : list cell) (df : list row)
    : list row :=
  filter (λ r, isin_mask c selected r = true) df.

(** The days of the "Date" column. *)
Definition date_values (df : list row) : list Z :=
  omap (λ r : row, match cells r !! Date with
                   | Some (Day d) => Some d
                   | _ => None
                   end) df.

Definition list_min (d : Z) (l : list Z) : Z := foldr Z.min d l.
Definition list_max (d : Z) (l : list Z) : Z := foldr Z.max d l.

(** [datetime.date(2025, 1, 1)] as a day number (days since 1970-01-01). *)
Definition fallback_min_date : Z := 20089.

(** The bounds of the date selector (lines 135-141); [today] is
    [datetime.date.today()]. *)
Definition date_bounds (today : Z) (filtered_df : list row) : Z * Z :=
  match date_values filtered_df with
  | d :: ds => (list_min d ds, list_max d ds)
  | [] => (fallback_min_date, today)
  end.

(** The mask [(df["Date"] >= start) & (df["Date"] <= end)] at one row. *)
Definition between_mask (start_date end_date : Z) (r : row) : bool :=
  match cells r !! Date with
  | Some (Day d) => (start_date <=? d) && (d <=? end_date)
  | _ => false
  end.

(** The date filter; [selected_dates] is the tuple the widget returns, and
    the filter applies when it has two dates. *)
Definition date_filter (selected_dates : list Z) (filtered_df : list row)
    : list row :=
  match selected_dates with
  | [start_date; end_date] =>
      filter (λ r, between_mask start_date end_date r = true) filtered_df
  | _ => filtered_df
  end.

(** What the four widgets return. *)
Record selection := Selection {
  selected_apps : list cell;
  selected_campaigns : list cell;
  selected_creatives : list cell;
  selected_dates : list Z
}.

(** Lines 105-156: the filters, applied one after the other. *)
Definition filtered_df (df : list row) (sel : selection) : list row :=
  let f1 := isin AppName (selected_apps sel) df in
  let f2 := isin CampaignId (selected_campaigns sel) f1 in
  let f3 := isin CreativeId (selected_creatives sel) f2 in
  date_filter (selected_dates sel) f3.

(** The widgets' defaults: each is computed from the frame as filtered by
    the widgets before it. *)
Definition default_selection (today : Z) (df : list row) : selection :=
  let apps := unique (column_values AppName df) in
  let f1 := isin AppName apps df in
  let campaigns := unique (column_values CampaignId f1) in
  let f2 := isin CampaignId campaigns f1 in
  let creatives := unique (column_values CreativeId f2) in
  let f3 := isin CreativeId creatives f2 in
  let '(min_date, max_date) := date_bounds today f3 in
  {| selected_apps := apps;
     selected_campaigns := campaigns;
     selected_creatives := creatives;
     selected_dates := [min_date; max_date] |}.

(** ** Day-level budget *)

(** [str(app)] of a cell of "App Name". *)
Definition app_names (df : list row) : list string :=
  omap (λ r : row, match cells r !! AppName with
                   | Some (Str s) => Some s
                   | _ => None
                   end) df.

(** Lines 264-267: the caps of the apps present in the filtered frame. *)
Definition day_total_budget (filtered : list row) : Z :=
  let selected_app_names := unique (app_names filtered) in
  sumZ (daily_cap <$> selected_app_names).

(** ** Display formatting *)

(** A cell of a frame handed to [format_metrics]. *)
Inductive value :=
  | VInt (n : Z)
  | VFloat (x : fl)
  | VStr (s : string)
  | VNone.

Global Instance value_eq_dec : EqDecision value.
Proof. solve_decision. Defined.

(** [pd.notna(x)]. *)
Definition notna (v : value) : bool :=
  match v with
  | VFloat NaN | VFloat NA | VNone => false
  | _ => true
  end.

(** [isinstance(x, (int, float))]; [pd.NA] is neither. *)
Definition is_int_or_float (v : value) : bool :=
  match v with
  | VInt _ => true
  | VFloat NA => false
  | VFloat _ => true
  | _ => false
  end.

(** The number a format specification of type [f] or [%] sees: an int is
    converted with [float()] first.  The ints of a cell come from an int64
    column, far below the range of float64. *)
Definition to_float (v : value) : fl :=
  match v with
  | VInt n => f64_round (Qc_of_Z n)
  | VFloat x => x
  | _ => NaN
  end.

(** The thousands separator of the format option [,]: a comma before every
    group of three digits, counted from the right.  The argument is the
    digit string reversed. *)
Fixpoint group3 (rev_digits : list ascii) : list ascii :=
  match rev_digits with
  | a :: b :: c :: rest =>
      match rest with
      | [] => rev_digits
      | _ :: _ => a :: b :: c :: ","%char :: group3 rest
      end
  | _ => rev_digits
  end.

Definition with_commas (digits : string) : string :=
  String.string_of_list_ascii
    (reverse (group3 (reverse (String.list_ascii_of_string digits)))).

(** Left padding with zeros to [prec] digits. *)
Fixpoint zero_pad (n : nat) (s : string) : string :=
  match n with
  | O => s
  | S n' => String "0"%char (zero_pad n' s)
  end.

Definition frac_digits (prec : nat) (f : N) : string :=
  let s := pretty f in
  zero_pad (prec - String.length s) s.

(** [f"{q:.<prec>f}"], and [f"{q:,.<prec>f}"] when [comma] is set, on a
    finite number. *)
Definition format_fixed (prec : nat) (comma : bool) (q : Qc) : string :=
  let p := 10 ^ Z.of_nat prec in
  let scaled := round_half_even (Qc_abs q * Qc_of_Z p)%Qc in
  let int_digits := pretty (Z.to_N (scaled `div` p)) in
  let int_part := if comma then with_commas int_digits else int_digits in
  let frac_part :=
    match prec with
    | O => ""
    | _ => "." +:+ frac_digits prec (Z.to_N (scaled `mod` p))
    end in
  (if Qc_ltb q 0 then "-" else "") +:+ int_part +:+ frac_part.

(** The presentation type [f] on any float; the guard of the caller keeps
    missing values away. *)
Definition format_f (prec : nat) (comma : bool) (x : fl) : string :=
  match x with
  | Fin q => format_fixed prec comma q
  | PosInf => "inf"
  | NegInf => "-inf"
  | NaN | NA => "nan"
  end.

(** The presentation type [%]: the float times 100, which is a float64
    multiplication, then type [f] and a percent sign. *)
Definition format_pct (prec : nat) (x : fl) : string :=
  format_f prec false (f64_mul x (Fin hundred)) +:+ "%".

(** [s.replace(",", ".")]. *)
Fixpoint replace_comma (s : string) : string :=
  match s with
  | EmptyString => EmptyString
  | String c s' =>
      String (if Ascii.eqb c ","%char then "."%char else c) (replace_comma s')
  end.

Definition thousand_cols : list string :=
  ["Spend ($)"; "Installs"; "Impressions";
   "Revenue D7"; "Payers D7"; "Total Budget ($)"].
Definition percent_cols : list string := ["Attribution %"; "Payers %"].
Definition decimal_cols : list string := ["CPI"; "IPM"; "CPM"; "ARPI"; "ARPP"].

(** The three lambdas of [format_metrics]. *)
Definition format_thousand (x : value) : value :=
  if notna x && is_int_or_float x
  then VStr (replace_comma (format_f 0 true (to_float x)))
  else x.

Definition format_percent (x : value) : value :=
  if notna x && is_int_or_float x
  then VStr (format_pct 2 (to_float x))
  else x.

Definition format_decimal (x : value) : value :=
  if notna x && is_int_or_float x
  then VStr (format_f 2 false (to_float x))
  else x.

(** The body of the loop over the columns, at one cell of column [col]. *)
Definition format_cell (col : string) (x : value) : value :=
  if bool_decide (col ∈ thousand_cols) then format_thousand x
  else if bool_decide (col ∈ percent_cols) then format_percent x
  else if bool_decide (col ∈ decimal_cols) then format_decimal x
  else x.

(** A frame for display: each row lists its columns with their values. *)
Definition format_metrics (df : list (list (string * value)))
    : list (list (string * value)) :=
  (λ r : list (string * value),
     (λ cv : string * value, (cv.1, format_cell cv.1 cv.2)) <$> r) <$> df.

(** ** General tab *)

(** [df[c].sum()], exactly.  The code adds the float64 values in the
    bracketing of numpy's pairwise summation, a [sum_tree] over the column;
    on a frame of counts every such sum is the exact one. *)
Definition column_sum (c : base → Qc) (df : list row) : Qc := sumQc (col c df).

(** [(total_revenue / total_spend * 100) if total_spend > 0 else 0], the
    headline ROAS of lines 188, 300 and 367. *)
Definition roas_percent (total_revenue total_spend : Qc) : fl :=
  if Qc_ltb 0 total_spend
  then fmul (fdiv (Fin total_revenue) (Fin total_spend)) (Fin hundred)
  else Fin 0.

(** Lines 186-188: total spend, total revenue and ROAS of a frame. *)
Definition headline_kpis (df : list row) : Qc * Qc * fl :=
  let total_spend := column_sum spend df in
  let total_revenue := column_sum revenue_d7 df in
  (total_spend, total_revenue, roas_percent total_revenue total_spend).

(** Lines 202-206: the range the day count is taken from.  With a tuple of
    two dates it is the selection, otherwise the least and the greatest date
    of the filtered frame; [None] is the NaT of an empty frame. *)
Definition budget_range (selected_dates : list Z) (filtered : list row)
    : option (Z * Z) :=
  match selected_dates with
  | [start_date; end_date] => Some (start_date, end_date)
  | _ =>
      match date_values filtered with
      | d :: ds => Some (list_min d ds, list_max d ds)
      | [] => None
      end
  end.

(** Line 207. *)
Definition budget_num_days (selected_dates : list Z) (filtered : list row)
    : option Z :=
  range ← budget_range selected_dates filtered;
  Some (num_days range.1 range.2).

(** Comparison of two floats; every comparison with NaN is false. *)
Definition fl_ltb (x y : fl) : bool :=
  match x, y with
  | Fin a, Fin b => Qc_ltb a b
  | NegInf, (Fin _ | PosInf) => true
  | Fin _, PosInf => true
  | _, _ => false
  end.

(** [min(a, b)] of Python: the first argument unless the second is less. *)
Definition py_min (a b : fl) : fl := if fl_ltb b a then b else a.

(** [pct_display = min(pct_used / 100, 1.0)]. *)
Definition pct_display (pct : fl) : fl :=
  py_min (fdiv pct (Fin hundred)) (Fin 1).

(** [str(x)] of a cell that holds a name. *)
Definition cell_str (v : cell) : option string :=
  match v with
  | Str s => Some s
  | Day _ => None
  end.

(** What one pass of the progress-bar loop (lines 212-224) shows. *)
Record budget_bar := BudgetBar {
  bar_app : string;
  bar_spend : Qc;
  bar_total_budget : Z;
  bar_pct_used : fl;
  bar_pct_display : fl
}.

Definition budget_bar_of (nd : Z) (r : row) : option budget_bar :=
  v ← cells r !! AppName;
  app_name ← cell_str v;
  let cap := daily_cap app_name in
  let total := cap * nd in
  let pct := pct_used (spend r) total in
  Some {| bar_app := app_name; bar_spend := spend r;
          bar_total_budget := total; bar_pct_used := pct;
          bar_pct_display := pct_display pct |}.

(** Lines 210-224: one bar per app of the filtered frame. *)
Definition budget_bars (filtered : list row) (nd : Z)
    : option (list budget_bar) :=
  spend_by_app ← aggregate_data filtered [AppName];
  mapM (budget_bar_of nd) spend_by_app.

(** A row of a table with its two budget columns, "Total Budget ($)" and
    "% of Budget Used" (before the latter is turned into text). *)
Record budget_row := BudgetRow {
  br_row : row;
  br_total_budget : Z;
  br_pct : fl
}.

Definition with_budget (total : Z) (g : row) : budget_row :=
  {| br_row := g; br_total_budget := total;
     br_pct := pct_of_budget_used (spend g) total |}.

(** Lines 233-241: performance by app. *)
Definition app_level_row (nd : Z) (g : row) : option budget_row :=
  v ← cells g !! AppName;
  app_name ← cell_str v;
  Some (with_budget (daily_cap app_name * nd) g).

Definition app_level_df (filtered : list row) (nd : Z)
    : option (list budget_row) :=
  agg ← aggregate_data filtered [AppName];
  mapM (app_level_row nd) agg.

(** [df.sort_values("Date")]: ascending, rows without a date last. *)
Definition date_leb (r1 r2 : row) : bool :=
  match cells r1 !! Date, cells r2 !! Date with
  | Some a, Some b => cell_leb a b
  | Some _, None => true
  | None, Some _ => false
  | None, None => true
  end.

Definition date_le (r1 r2 : row) : Prop := date_leb r1 r2 = true.

Global Instance date_le_dec : RelDecision date_le.
Proof. intros r1 r2. unfold date_le. apply _. Defined.

Definition sort_values_date (df : list row) : list row :=
  merge_sort date_le df.

(** Lines 259-272: performance by day. *)
Definition day_level_df (filtered : list row) : option (list budget_row) :=
  agg ← aggregate_data filtered [Date];
  let sorted := sort_values_date agg in
  Some (map (with_budget (day_total_budget filtered)) sorted).

(** ** App analysis tab *)

(** [df[df["App Name"] == selected_app]]. *)
Definition select_app (df : list row) (selected_app : string) : list row :=
  filter (λ r : row, cells r !! AppName = Some (Str selected_app)) df.

(** [len(app_df["Date"].unique())]. *)
Definition n_unique_dates (app_df : list row) : nat :=
  length (unique (column_values Date app_df)).

(** The denominator of line 321. *)
Definition campaign_budget (selected_app : string) (app_df : list row) : Z :=
  daily_cap selected_app * Z.of_nat (n_unique_dates app_df).

(** Lines 315-323: the campaign summary. *)
Definition campaign_df (selected_app : string) (app_df : list row)
    : option (list budget_row) :=
  agg ← aggregate_data app_df [AppName; CampaignId];
  Some (map (with_budget (campaign_budget selected_app app_df)) agg).

(** Lines 344-345: the creative summary. *)
Definition creative_summary_df (app_df : list row) : option (list row) :=
  aggregate_data app_df [AppName; CreativeId].

(** [for key, sub in df.groupby(group_cols)]: the groups in key order, each
    with its rows in frame order. *)
Definition groupby_iter (df : list row) (group_cols : list column)
    : option (list (list cell * list row)) :=
  ks ← group_keys df group_cols;
  Some (map (λ k, (k, group_rows group_cols k df)) ks).

(** One expander of the campaign details (lines 364-371). *)
Record campaign_detail := CampaignDetail {
  cd_campaign : list cell;
  cd_spend : Qc;
  cd_revenue : Qc;
  cd_roas : fl;
  cd_creatives : list row
}.

Definition campaign_detail_of (g : list cell * list row)
    : option campaign_detail :=
  let spend_camp := column_sum spend g.2 in
  let rev_camp := column_sum revenue_d7 g.2 in
  creative_df ← aggregate_data g.2 [AppName; CampaignId; CreativeId];
  Some {| cd_campaign := g.1; cd_spend := spend_camp;
          cd_revenue := rev_camp;
          cd_roas := roas_percent rev_camp spend_camp;
          cd_creatives := creative_df |}.

Definition campaign_details (app_df : list row)
    : option (list campaign_detail) :=
  groups ← groupby_iter app_df [CampaignId];
  mapM campaign_detail_of groups.

(** ** Cleaning of the loaded text *)

(** [s.replace(c, "")] for a one-character [c]: what [load_data] does to
    "Impressions" with "," and to the percent columns with "%" before it
    converts the text to numbers (lines 52-54). *)
Fixpoint remove_char (c : ascii) (s : string) : string :=
  match s with
  | EmptyString => EmptyString
  | String a s' =>
      if Ascii.eqb a c then remove_char c s' else String a (remove_char c s')
  end.

(** ** What the specification says, for comparison *)

(** A ratio with the degenerate-case policy: zero denominator gives 0. *)
Definition safe_div (a b : Qc) : Qc :=
  if decide (b = 0%Qc) then 0%Qc else (a / b)%Qc.

(** The table of derived metrics of the specification. *)
Record metrics_ok (r : row) : Prop := MetricsOk {
  cpi_ok : CPI r = Fin (safe_div (spend r) (installs r));
  ipm_ok : IPM r = Fin (safe_div (installs r) (impressions r / thousand));
  cpm_ok : CPM r = Fin (safe_div (spend r) (impressions r / thousand));
  roas_ok : ROAS r = Fin (safe_div (revenue_d7 r) (spend r));
  payers_pct_ok : Payers_pct r = Fin (safe_div (payers_d7 r) (installs r));
  arpi_ok : ARPI r = Fin (safe_div (revenue_d7 r) (installs r));
  arpp_ok : ARPP r = Fin (safe_div (revenue_d7 r) (payers_d7 r))
}.

(** The degenerate cases of that table, and no infinite or undefined cell. *)
Record zero_policy (r : row) : Prop := ZeroPolicy {
  zp_installs : installs r = 0%Qc →
    CPI r = Fin 0 ∧ Payers_pct r = Fin 0 ∧ ARPI r = Fin 0;
  zp_impressions : impressions r = 0%Qc → IPM r = Fin 0 ∧ CPM r = Fin 0;
  zp_spend : spend r = 0%Qc → ROAS r = Fin 0;
  zp_payers : payers_d7 r = 0%Qc → ARPP r = Fin 0;
  zp_finite :
    is_finite (CPI r) = true ∧ is_finite (IPM r) = true ∧
    is_finite (CPM r) = true ∧ is_finite (ROAS r) = true ∧
    is_finite (Payers_pct r) = true ∧ is_finite (ARPI r) = true ∧
    is_finite (ARPP r) = true
}.

(** Every row has the grouping columns. *)
Definition has_columns (group_cols : list column) (df : list row) : Prop :=
  Forall (λ r : row, ∀ c, c ∈ group_cols → is_Some (cells r !! c)) df.

(** A string of whitespace only. *)
Fixpoint all_space (s : string) : bool :=
  match s with
  | EmptyString => true
  | String c s' => isspace c && all_space s'
  end.

(** A frame as the loader hands it over: every row has the four
    categorical columns, and its date is a day. *)
Definition raw_row (r : row) : Prop :=
  is_Some (cells r !! AppName) ∧ is_Some (cells r !! CampaignId)
  ∧ is_Some (cells r !! CreativeId) ∧ ∃ d, cells r !! Date = Some (Day d).

Definition raw_frame (df : list row) : Prop := Forall raw_row df.

(** ** Sample data *)

Definition parsed_row (app campaign creative : string) (day : Z)
    (sp ins imp pay rev att : Qc) : base :=
  {| cells := {[ AppName := Str app; CampaignId := Str campaign;
                 CreativeId := Str creative; Date := Day day ]};
     spend := sp; installs := ins; impressions := imp;
     payers_d7 := pay; revenue_d7 := rev; attribution := att |}.

(** The record of the scenario: app "A", spend 100, installs 10,
    impressions 5000, revenue 50, payers 2. *)
Definition scenario_record : base :=
  parsed_row "A" "c1" "k1" 20093
    (Qc_of_Z 100) (Qc_of_Z 10) (Qc_of_Z 5000) (Qc_of_Z 2) (Qc_of_Z 50) 0.

(** A record with spend and nothing else: every denominator but one is 0. *)
Definition idle_record : base :=
  parsed_row "MaxiBingo" "c2" "k2" 20094
    (Qc_of_Z 200) 0 0 0 0 (Q2Qc (1 # 2)).

Definition sample_parsed : list base :=
  [ scenario_record;
    idle_record;
    parsed_row "A" "c3" "k1" 20094
      (Qc_of_Z 300) (Qc_of_Z 30) (Qc_of_Z 9000) (Qc_of_Z 3) (Qc_of_Z 90)
      (Q2Qc (1 # 4)) ].

Definition sample_df : list row := load_data sample_parsed.

(** The group the scenario expects for app "A". *)
Definition scenario_group : row :=
  {| row_base :=
       {| cells := {[ AppName := Str "A" ]};
          spend := Qc_of_Z 100; installs := Qc_of_Z 10;
          impressions := Qc_of_Z 5000; payers_d7 := Qc_of_Z 2;
          revenue_d7 := Qc_of_Z 50; attribution := 0 |};
     CPI := Fin (Qc_of_Z 10);
     IPM := Fin (Qc_of_Z 2);
     CPM := Fin (Qc_of_Z 20);
     ROAS := Fin (Q2Qc (1 # 2));
     Payers_pct := Fin (Q2Qc (1 # 5));
     ARPI := Fin (Qc_of_Z 5);
     ARPP := Fin (Qc_of_Z 25) |}.

Global Instance base_eq_dec : EqDecision base.
Proof. solve_decision. Defined.

Global Instance row_eq_dec : EqDecision row.
Proof. solve_decision. Defined.

(** Every key has one value per grouping column. *)
Definition key_arity (group_cols : list column) (keys : list (list cell))
    : Prop :=
  ∀ k, k ∈ keys → length k = length group_cols.

(** The output row of [aggregate_data] for the key [k]. *)
Definition agg_row (group_cols : list column) (df : list row)
    (k : list cell) : row :=
  map_cells fillna0 (map_cells replace_inf
    (calculated_fields (agg_group group_cols k (group_rows group_cols k df)))).

(** A value the lambdas of [format_metrics] format. *)
Definition numeric (x : value) : bool := notna x && is_int_or_float x.

(** Two decimal digits. *)
Definition two_digits (f : N) : string :=
  String (pretty_N_char (f `div` 10)) (String (pretty_N_char (f `mod` 10)) "").

(** The sign a negative number is printed with. *)
Definition sign_of (q : Qc) : string := if Qc_ltb q 0 then "-" else "".

(** A string without its separators. *)
Definition drop_commas (l : list ascii) : list ascii :=
  filter (λ c, c ≠ ","%char) l.

(** Strictly before, in the order of the group keys. *)
Definition key_lt (k1 k2 : list cell) : Prop := key_le k1 k2 ∧ k1 ≠ k2.

(** The six measures of a row are non-negative, as the data model has it. *)
Record nonneg_base (b : base) : Prop := NonnegBase {
  nn_spend : (0 ≤ spend b)%Qc;
  nn_installs : (0 ≤ installs b)%Qc;
  nn_impressions : (0 ≤ impressions b)%Qc;
  nn_payers : (0 ≤ payers_d7 b)%Qc;
  nn_revenue : (0 ≤ revenue_d7 b)%Qc;
  nn_attribution : (0 ≤ attribution b)%Qc
}.

(** A computed cell that is a non-negative number. *)
Definition nonneg_cell (x : fl) : Prop := ∃ q, x = Fin q ∧ (0 ≤ q)%Qc.

Record nonneg_row (r : row) : Prop := NonnegRow {
  nn_base : nonneg_base r;
  nn_cpi : nonneg_cell (CPI r);
  nn_ipm : nonneg_cell (IPM r);
  nn_cpm : nonneg_cell (CPM r);
  nn_roas : nonneg_cell (ROAS r);
  nn_payers_pct : nonneg_cell (Payers_pct r);
  nn_arpi : nonneg_cell (ARPI r);
  nn_arpp : nonneg_cell (ARPP r)
}.

(** Two rows show the same seven metrics. *)
Definition same_metrics (g r : row) : Prop :=
  CPI g = CPI r ∧ IPM g = IPM r ∧ CPM g = CPM r ∧ ROAS g = ROAS r
  ∧ Payers_pct g = Payers_pct r ∧ ARPI g = ARPI r ∧ ARPP g = ARPP r.

(** Two rows have the same five summed measures. *)
Definition same_sums (g r : base) : Prop :=
  spend g = spend r ∧ installs g = installs r
  ∧ impressions g = impressions r ∧ payers_d7 g = payers_d7 r
  ∧ revenue_d7 g = revenue_d7 r.

(** A row meets the four criteria of a selection: its app, campaign and
    creative are among the selected ones and, when two dates are selected,
    its date lies between them. *)
Record selected (sel : selection) (r : row) : Prop := Selected {
  sel_app : ∃ v, cells r !! AppName = Some v ∧ v ∈ selected_apps sel;
  sel_campaign :
    ∃ v, cells r !! CampaignId = Some v ∧ v ∈ selected_campaigns sel;
  sel_creative :
    ∃ v, cells r !! CreativeId = Some v ∧ v ∈ selected_creatives sel;
  sel_date : ∀ start_date end_date,
    selected_dates sel = [start_date; end_date] →
    ∃ d, cells r !! Date = Some (Day d) ∧ start_date ≤ d ∧ d ≤ end_date
}.

(** The four masks at once. *)
Definition date_mask (dates : list Z) (r : row) : bool :=
  match dates with
  | [start_date; end_date] => between_mask start_date end_date r
  | _ => true
  end.

Definition passes (sel : selection) (r : row) : bool :=
  isin_mask AppName (selected_apps sel) r
  && isin_mask CampaignId (selected_campaigns sel) r
  && isin_mask CreativeId (selected_creatives sel) r
  && date_mask (selected_dates sel) r.

(** Every row names its app. *)
Definition named_frame (df : list row) : Prop :=
  Forall (λ r : row, ∃ s, cells r !! AppName = Some (Str s)) df.

(** A computed cell that is a fraction between 0 and 1. *)
Definition unit_cell (x : fl) : Prop := ∃ q, x = Fin q ∧ (0 ≤ q)%Qc ∧ (q ≤ 1)%Qc.

(** The columns [format_metrics] renders. *)
Definition rendered_cols : list string :=
  thousand_cols ++ percent_cols ++ decimal_cols.

(** What [format_metrics] may do to one cell: the column name stays; the
    value stays unless it is a number in a rendered column, and then it
    becomes text. *)
Definition cell_formatted (cv cv' : string * value) : Prop :=
  cv'.1 = cv.1
  ∧ (cv.1 ∉ rendered_cols ∨ numeric cv.2 = false → cv'.2 = cv.2)
  ∧ (cv.1 ∈ rendered_cols → numeric cv.2 = true → ∃ s, cv'.2 = VStr s).

(** The characters of a string. *)
Definition chars (s : string) : list ascii := String.list_ascii_of_string s.

(** Neither of the two separators. *)
Definition plain (c : ascii) : Prop := c ≠ ","%char ∧ c ≠ "."%char.

(** The size of a number, without its sign. *)
Definition magnitude (y : Qc) : Qc :=
  if decide (0 ≤ y)%Qc then y else (- y)%Qc.

(** [n] is the integer nearest to [y], that is [n - 1/2 ≤ y ≤ n + 1/2], and
    the even one of the two when [y] lies half-way. *)
Definition nearest_even (y : Qc) (n : Z) : Prop :=
  (Qc_of_Z (2 * n - 1) ≤ y + y)%Qc ∧ (y + y ≤ Qc_of_Z (2 * n + 1))%Qc
  ∧ ((y + y)%Qc = Qc_of_Z (2 * n - 1) ∨ (y + y)%Qc = Qc_of_Z (2 * n + 1) →
     Z.even n = true).

(** [s] shows [y] with two decimals: the sign, the numeral of the whole
    part, a point and two digits, where the hundredths [h] shown are the
    nearest to [y]. *)
Definition shows_two_decimals (y : Qc) (s : string) : Prop :=
  ∃ h : N,
    nearest_even (magnitude y * Qc_of_Z 100) (Z.of_N h)
    ∧ s = sign_of y +:+ pretty (h `div` 100)%N +:+ "."
            +:+ two_digits (h `mod` 100)%N.

(** The separator [sep] stands after every third character of [body],
    counted from the right, and nowhere else; it does not lead. *)
Definition separated_in_threes (sep : ascii) (body : string) : Prop :=
  head (chars body) ≠ Some sep
  ∧ ∀ (i : nat) (c : ascii),
      reverse (chars body) !! i = Some c → c = sep ↔ (i `mod` 4 = 3)%nat.

(** [s] shows [y] as a whole number with its thousands grouped: the sign
    and a body that is the numeral of the integer nearest to [y] with a
    point between the groups of three digits. *)
Definition shows_grouped (y : Qc) (s : string) : Prop :=
  ∃ (n : N) (body : string),
    nearest_even (magnitude y) (Z.of_N n)
    ∧ s = sign_of y +:+ body
    ∧ remove_char "."%char body = pretty n
    ∧ separated_in_threes "."%char body.

(** A count: a whole number that is not negative. *)
Definition counting (q : Qc) : Prop := ∃ n : Z, 0 ≤ n ∧ q = Qc_of_Z n.

(** Every whole number up to [2 ^ 53] is a float64. *)
Definition exact_bound : Qc := Qc_of_Z (2 ^ 53).

(** The budget utilisation of the specification:
    [spend / totalBudget * 100 if totalBudget > 0 else 0]. *)
Definition utilization_pct (spend : Qc) (total_budget : Z) : Qc :=
  if decide (0 < total_budget)
  then (spend / Qc_of_Z total_budget * Qc_of_Z 100)%Qc
  else 0%Qc.

(** A row holds the key [k] in the grouping columns: the first value of
    [k] in the first column, and so on. *)
Definition has_key (group_cols : list column) (k : list cell) (b : base)
    : Prop :=
  Forall2 (λ c v, cells b !! c = Some v) group_cols k.

Global Instance has_key_dec group_cols k b : Decision (has_key group_cols k b).
Proof. unfold has_key. apply _. Defined.

(** The rows of a frame that hold the key, in the order of the frame. *)
Definition rows_of_key (group_cols : list column) (df : list row)
    (k : list cell) : list row :=
  filter (λ r : row, has_key group_cols k r) df.

(** The total of a measure over some rows. *)
Fixpoint total (c : base → Qc) (rows : list row) : Qc :=
  match rows with
  | [] => 0%Qc
  | r :: rows' => (c r + total c rows')%Qc
  end.

(** The group of the key [k]: a row with that key that carries the totals
    of the five measures over the rows of the key, their average
    attribution, and the metrics of the table computed from the totals. *)
Record group_of (group_cols : list column) (df : list row)
    (k : list cell) (g : row) : Prop := GroupOf {
  go_key : has_key group_cols k g;
  go_rows : rows_of_key group_cols df k ≠ [];
  go_spend : spend g = total spend (rows_of_key group_cols df k);
  go_installs : installs g = total installs (rows_of_key group_cols df k);
  go_impressions :
    impressions g = total impressions (rows_of_key group_cols df k);
  go_payers : payers_d7 g = total payers_d7 (rows_of_key group_cols df k);
  go_revenue : revenue_d7 g = total revenue_d7 (rows_of_key group_cols df k);
  go_attribution :
    (attribution g
     * Qc_of_Z (Z.of_nat (length (rows_of_key group_cols df k))))%Qc
    = total attribution (rows_of_key group_cols df k);
  go_metrics : metrics_ok g
}.

(** The five columns [aggregate_data] sums. *)
Definition summed_measures : list (base → Qc) :=
  [spend; installs; impressions; payers_d7; revenue_d7].

(** The sums of the frame fit the 64-bit integers in which pandas adds a
    column of integers. *)
Definition sums_fit_int64 (df : list row) : Prop :=
  ∀ c : base → Qc, c ∈ summed_measures →
    (total (λ b, magnitude (c b)) df < Qc_of_Z (2 ^ 63))%Qc.

(** A frame of counts: the five summed measures are whole numbers, not
    negative, and each column adds up to at most [2 ^ 53].  On such a frame
    every float64 and every int64 addition of the code is exact. *)
Definition exact_frame (df : list row) : Prop :=
  ∀ c : base → Qc, c ∈ summed_measures →
    Forall (λ r : row, counting (c r)) df ∧ (total c df ≤ exact_bound)%Qc.

(** What [aggregate_data] returns for the sample by app ... *)
Definition sample_by_app : list row :=
  [ {| row_base :=
         {| cells := {[ AppName := Str "A" ]};
            spend := Qc_of_Z 400; installs := Qc_of_Z 40;
            impressions := Qc_of_Z 14000; payers_d7 := Qc_of_Z 5;
            revenue_d7 := Qc_of_Z 140; attribution := Q2Qc (1 # 8) |};
       CPI := Fin (Qc_of_Z 10);
       IPM := Fin (Q2Qc (20 # 7));
       CPM := Fin (Q2Qc (200 # 7));
       ROAS := Fin (Q2Qc (7 # 20));
       Payers_pct := Fin (Q2Qc (1 # 8));
       ARPI := Fin (Q2Qc (7 # 2));
       ARPP := Fin (Qc_of_Z 28) |};
    {| row_base :=
         {| cells := {[ AppName := Str "MaxiBingo" ]};
            spend := Qc_of_Z 200; installs := 0; impressions := 0;
            payers_d7 := 0; revenue_d7 := 0; attribution := Q2Qc (1 # 2) |};
       CPI := Fin 0; IPM := Fin 0; CPM := Fin 0; ROAS := Fin 0;
       Payers_pct := Fin 0; ARPI := Fin 0; ARPP := Fin 0 |} ].

(** ... and by day. *)
Definition sample_by_day : list row :=
  [ {| row_base :=
         {| cells := {[ Date := Day 20093 ]};
            spend := Qc_of_Z 100; installs := Qc_of_Z 10;
            impressions := Qc_of_Z 5000; payers_d7 := Qc_of_Z 2;
            revenue_d7 := Qc_of_Z 50; attribution := 0 |};
       CPI := Fin (Qc_of_Z 10);
       IPM := Fin (Qc_of_Z 2);
       CPM := Fin (Qc_of_Z 20);
       ROAS := Fin (Q2Qc (1 # 2));
       Payers_pct := Fin (Q2Qc (1 # 5));
       ARPI := Fin (Qc_of_Z 5);
       ARPP := Fin (Qc_of_Z 25) |};
    {| row_base :=
         {| cells := {[ Date := Day 20094 ]};
            spend := Qc_of_Z 500; installs := Qc_of_Z 30;
            impressions := Qc_of_Z 9000; payers_d7 := Qc_of_Z 3;
            revenue_d7 := Qc_of_Z 90; attribution := Q2Qc (3 # 8) |};
       CPI := Fin (Q2Qc (50 # 3));
       IPM := Fin (Q2Qc (10 # 3));
       CPM := Fin (Q2Qc (500 # 9));
       ROAS := Fin (Q2Qc (9 # 50));
       Payers_pct := Fin (Q2Qc (1 # 10));
       ARPI := Fin (Qc_of_Z 3);
       ARPP := Fin (Qc_of_Z 30) |} ].

(** A closed decidable fact, by evaluation. *)
Ltac by_eval := apply (bool_decide_unpack _); vm_compute; exact I.

(** * Properties *)

(** ** Numbers *)

Section numbers.
Implicit Types a b q : Qc.

Lemma Qc_ltb_irrefl a : Qc_ltb a a = false.
Proof.
  unfold Qc_ltb. apply bool_decide_eq_false. apply (irreflexivity Qclt).
Qed.

Lemma div_fin_nonzero a b : b ≠ 0%Qc → div_fin a b = Fin (a / b).
Proof. intros Hb. unfold div_fin. by destruct (decide (b = 0%Qc)). Qed.

Lemma div_fin_zero_pos a : (0 < a)%Qc → div_fin a 0 = PosInf.
Proof.
  intros Ha. unfold div_fin, Qc_ltb. rewrite decide_True by done.
  by rewrite bool_decide_eq_true_2.
Qed.

Lemma div_fin_zero_zero : div_fin 0 0 = NaN.
Proof.
  unfold div_fin. rewrite decide_True by done. by rewrite Qc_ltb_irrefl.
Qed.

Lemma clean_div_fin a b :
  fillna0 (replace_inf (div_fin a b)) = Fin (safe_div a b).
Proof.
  unfold div_fin, safe_div. destruct (decide (b = 0%Qc)); [|done].
  by repeat case_match.
Qed.

Lemma thousand_nonzero : thousand ≠ 0%Qc.
Proof. by_eval. Qed.

Lemma hundred_nonzero : hundred ≠ 0%Qc.
Proof. by_eval. Qed.

Lemma per_mille_zero a : (a / thousand = 0)%Qc ↔ a = 0%Qc.
Proof.
  split.
  - intros H. rewrite <-(Qcmult_div_r a thousand) by apply thousand_nonzero.
    rewrite H. ring.
  - intros ->. unfold Qcdiv. ring.
Qed.

Lemma safe_div_zero a : safe_div a 0 = 0%Qc.
Proof. unfold safe_div. by rewrite decide_True. Qed.

Lemma Qc_of_Z_nonzero (z : Z) : z ≠ 0 → Qc_of_Z z ≠ 0%Qc.
Proof. rewrite <-Z2Qc_inj_0. by intros ? ?%Z2Qc_inj. Qed.

Lemma sumQc_cons a (l : list Qc) : sumQc (a :: l) = (a + sumQc l)%Qc.
Proof. done. Qed.

Lemma sumQc_app (l1 l2 : list Qc) :
  sumQc (l1 ++ l2) = (sumQc l1 + sumQc l2)%Qc.
Proof.
  induction l1 as [|x l1 IH]; simpl; [by rewrite Qcplus_0_l|].
  rewrite IH. ring.
Qed.

Lemma sumZ_Permutation (l1 l2 : list Z) : l1 ≡ₚ l2 → sumZ l1 = sumZ l2.
Proof. induction 1; simpl; lia. Qed.

Lemma sumQc_Permutation (l1 l2 : list Qc) : l1 ≡ₚ l2 → sumQc l1 = sumQc l2.
Proof.
  induction 1 as [|x l1 l2 _ IH|x y l|l1 l2 l3 _ IH1 _ IH2]; simpl.
  - done.
  - by rewrite IH.
  - ring.
  - by rewrite IH1.
Qed.

Lemma mean_singleton a : mean [a] = a.
Proof.
  unfold mean. simpl. rewrite Qcplus_0_r.
  change (Qc_of_Z (Z.of_nat 1)) with (Qc_of_Z 1). rewrite Z2Qc_inj_1.
  apply (right_id 1%Qc Qcdiv).
Qed.
End numbers.

(** ** [str.strip] *)

Section strip.
Implicit Types s t ws : string.

Lemma lstrip_all_space ws : all_space ws = true → lstrip ws = "".
Proof.
  induction ws as [|c ws IH]; simpl; [done|].
  intros [Hc Hws]%andb_true_iff. rewrite Hc. auto.
Qed.

Lemma rstrip_all_space ws : all_space ws = true → rstrip ws = "".
Proof.
  induction ws as [|c ws IH]; simpl; [done|].
  intros [Hc Hws]%andb_true_iff. by rewrite IH, Hc.
Qed.

Lemma lstrip_app_space ws s :
  all_space ws = true → lstrip (ws +:+ s) = lstrip s.
Proof.
  induction ws as [|c ws IH]; simpl; [done|].
  intros [Hc Hws]%andb_true_iff. rewrite Hc. auto.
Qed.

Lemma rstrip_app_space s ws :
  all_space ws = true → rstrip (s +:+ ws) = rstrip s.
Proof.
  intros Hws. induction s as [|c s IH]; simpl.
  - by apply rstrip_all_space.
  - by rewrite IH.
Qed.

Lemma lstrip_app s t :
  lstrip (s +:+ t) =
    match lstrip s with
    | EmptyString => lstrip t
    | u => u +:+ t
    end.
Proof.
  induction s as [|c s IH]; simpl; [done|].
  destruct (isspace c); [apply IH|done].
Qed.

(** Whitespace around a name does not change what [strip] returns. *)
Lemma strip_surrounding ws1 s ws2 :
  all_space ws1 = true → all_space ws2 = true →
  strip (ws1 +:+ s +:+ ws2) = strip s.
Proof.
  intros H1 H2. unfold strip.
  rewrite lstrip_app_space by done. rewrite lstrip_app.
  destruct (lstrip s) as [|c u] eqn:Hs.
  - by rewrite (lstrip_all_space ws2).
  - by rewrite rstrip_app_space.
Qed.

(** [strip] leaves no whitespace at the left end ... *)
Lemma lstrip_head s c u : lstrip s = String c u → isspace c = false.
Proof.
  induction s as [|d s IH]; simpl; [done|].
  destruct (isspace d) eqn:Hd; [done|]. by intros [= <- _].
Qed.

Lemma rstrip_head s c u :
  rstrip s = String c u → ∃ s', s = String c s'.
Proof.
  destruct s as [|d s]; simpl; [done|].
  destruct (rstrip s); [destruct (isspace d)|]; intros [= <- _]; eauto.
Qed.

Lemma strip_head s c u : strip s = String c u → isspace c = false.
Proof.
  unfold strip. intros (s' & Hs')%rstrip_head. by eapply lstrip_head.
Qed.

(** ... and none at the right end. *)
Lemma rstrip_last s t c : rstrip s = t +:+ String c "" → isspace c = false.
Proof.
  revert t. induction s as [|d s IH]; intros t; simpl.
  - by destruct t.
  - destruct (rstrip s) as [|e u] eqn:Hr.
    + destruct (isspace d) eqn:Hd; destruct t as [|? [|]]; simpl; try done.
      by intros [= <-].
    + destruct t as [|d' t]; simpl; [done|].
      intros [= _ Ht]. by apply (IH t).
Qed.

Lemma strip_last s t c : strip s = t +:+ String c "" → isspace c = false.
Proof. apply rstrip_last. Qed.

(** What [strip] removes is whitespace. *)
Lemma lstrip_decompose s : ∃ ws, all_space ws = true ∧ s = ws +:+ lstrip s.
Proof.
  induction s as [|c s (ws & Hws & IH)]; simpl.
  - by exists "".
  - destruct (isspace c) eqn:Hc.
    + exists (String c ws). split; [simpl; by rewrite Hc, Hws|].
      change (String c s = String c (ws +:+ lstrip s)). by f_equal.
    + by exists "".
Qed.

Lemma rstrip_decompose s : ∃ ws, all_space ws = true ∧ s = rstrip s +:+ ws.
Proof.
  induction s as [|c s (ws & Hws & IH)]; simpl.
  - by exists "".
  - destruct (rstrip s) as [|e u] eqn:Hr.
    + change ("" +:+ ws) with ws in IH. subst ws.
      destruct (isspace c) eqn:Hc.
      * exists (String c s). split; [simpl; by rewrite Hc, Hws|done].
      * by exists s.
    + exists ws. split; [done|].
      change (String c s = String c (String e u +:+ ws)). by f_equal.
Qed.

Lemma strip_decompose s :
  ∃ ws1 ws2, all_space ws1 = true ∧ all_space ws2 = true
             ∧ s = ws1 +:+ strip s +:+ ws2.
Proof.
  destruct (lstrip_decompose s) as (ws1 & H1 & E1).
  destruct (rstrip_decompose (lstrip s)) as (ws2 & H2 & E2).
  exists ws1, ws2. unfold strip. by rewrite <-E2, <-E1.
Qed.
End strip.

(** ** Budget model *)

Lemma daily_budget_lookup_key (k : string) :
  daily_budget !! k =
    if decide (k = "MaxiBingo") then Some 4000
    else if decide (k = "default") then Some 2000 else None.
Proof.
  unfold daily_budget. rewrite !lookup_insert, lookup_empty.
  repeat case_decide; congruence.
Qed.

Lemma daily_cap_in_total (app_name : string) :
  daily_cap_in daily_budget app_name
  = Some (default 2000 (daily_budget !! strip app_name)).
Proof. done. Qed.

Lemma daily_cap_cases (app_name : string) :
  daily_cap app_name
  = if decide (strip app_name = "MaxiBingo") then 4000 else 2000.
Proof.
  unfold daily_cap. rewrite daily_cap_in_total. simpl.
  rewrite daily_budget_lookup_key. by repeat case_decide.
Qed.

Lemma daily_cap_pos (app_name : string) : 0 < daily_cap app_name.
Proof. rewrite daily_cap_cases. case_decide; lia. Qed.

(** C9.  The lookup never fails; it strips the name and then consults the
    dict with exact (case-sensitive) keys, falling back to the default cap:
    the cap is 4000 exactly when the stripped name is "MaxiBingo" and 2000
    otherwise, surrounding whitespace is immaterial, "MaxiBingo" gives 4000,
    "UnknownApp" gives 2000 and "maxibingo" gives 2000. *)
Theorem daily_cap_lookup :
  (∀ app_name,
     daily_cap_in daily_budget app_name = Some (daily_cap app_name)
     ∧ daily_cap app_name = default 2000 (daily_budget !! strip app_name)
     ∧ daily_cap app_name
       = if decide (strip app_name = "MaxiBingo") then 4000 else 2000)
  ∧ (∀ ws1 ws2 app_name,
       all_space ws1 = true → all_space ws2 = true →
       daily_cap (ws1 +:+ app_name +:+ ws2) = daily_cap app_name)
  ∧ daily_cap "MaxiBingo" = 4000
  ∧ daily_cap "UnknownApp" = 2000
  ∧ daily_cap "maxibingo" = 2000.
Proof.
  split; [|split; [|done]].
  - intros app_name. split; [|split].
    + unfold daily_cap. by rewrite daily_cap_in_total.
    + unfold daily_cap. by rewrite daily_cap_in_total.
    + apply daily_cap_cases.
  - intros ws1 ws2 app_name H1 H2.
    rewrite !daily_cap_cases. by rewrite strip_surrounding.
Qed.

Lemma daily_cap_lookup_witness :
  daily_cap ("  " +:+ "MaxiBingo" +:+ " ") = daily_cap "MaxiBingo".
Proof.
  apply (proj1 (proj2 daily_cap_lookup) "  " " " "MaxiBingo"); reflexivity.
Defined.

(** The guarded site computes the utilisation of the specification. *)
Lemma pct_used_spec (spend : Qc) (total_budget : Z) :
  (0 < total_budget →
     pct_used spend total_budget
     = Fin (spend / Qc_of_Z total_budget * hundred)%Qc)
  ∧ (total_budget ≤ 0 → pct_used spend total_budget = Fin 0).
Proof.
  unfold pct_used. split; intros H.
  - rewrite decide_True by done. simpl.
    rewrite div_fin_nonzero; [done|]. apply Qc_of_Z_nonzero. lia.
  - rewrite decide_False by lia. done.
Qed.

(** The unguarded sites agree with it on a positive budget. *)
Lemma pct_of_budget_used_pos (spend : Qc) (total_budget : Z) :
  0 < total_budget →
  pct_of_budget_used spend total_budget = pct_used spend total_budget.
Proof. intros H. unfold pct_used. by rewrite decide_True. Qed.

(** ** [unique] *)

Section unique.
Context `{EqDecision A}.
Implicit Types l : list A.

Lemma elem_of_unique l x : x ∈ unique l ↔ x ∈ l.
Proof.
  induction l as [|a l IH]; simpl; [done|].
  rewrite !elem_of_cons, list_elem_of_filter, IH.
  destruct (decide (x = a)); intuition.
Qed.

Lemma NoDup_unique l : NoDup (unique l).
Proof.
  induction l as [|a l IH]; simpl; [constructor|].
  apply NoDup_cons. split.
  - rewrite list_elem_of_filter. by intros [? _].
  - by apply NoDup_filter.
Qed.

Lemma filter_ne_absent l a : a ∉ l → filter (λ y, y ≠ a) l = l.
Proof.
  induction l as [|b l IH]; [done|].
  intros [Hab Ha]%not_elem_of_cons.
  rewrite filter_cons_True by congruence. f_equal. auto.
Qed.

Lemma unique_NoDup l : NoDup l → unique l = l.
Proof.
  induction 1 as [|a l Ha _ IH]; simpl; [done|].
  rewrite IH. f_equal. by apply filter_ne_absent.
Qed.

(** Two duplicate-free listings of the same values are permutations. *)
Lemma unique_Permutation l k :
  NoDup k → (∀ x, x ∈ k ↔ x ∈ l) → unique l ≡ₚ k.
Proof.
  intros Hk Hkl. apply NoDup_Permutation; [apply NoDup_unique|done|].
  intros x. by rewrite elem_of_unique, Hkl.
Qed.
End unique.

(** C5.  The day-level total budget is the sum of the daily caps over the
    distinct app names of the filtered frame: whatever duplicate-free
    listing [names] of exactly those names one takes, the budget is the sum
    of [daily_cap] over it.  Only the filtered frame enters; the number of
    days of the selected range and the apps outside the filter do not. *)
Theorem day_total_budget_distinct_apps
    (filtered : list row) (names : list string) :
  NoDup names →
  (∀ a, a ∈ names ↔ a ∈ app_names filtered) →
  day_total_budget filtered = sumZ (daily_cap <$> names).
Proof.
  intros Hnd Hnames. unfold day_total_budget.
  apply sumZ_Permutation, fmap_Permutation. by apply unique_Permutation.
Qed.

Lemma day_total_budget_distinct_apps_witness :
  day_total_budget sample_df = sumZ (daily_cap <$> ["MaxiBingo"; "A"]).
Proof.
  apply (day_total_budget_distinct_apps sample_df ["MaxiBingo"; "A"]).
  - by_eval.
  - intros a. change (app_names sample_df) with ["A"; "MaxiBingo"; "A"].
    rewrite !elem_of_cons, !elem_of_nil. tauto.
Defined.

(** ** Sidebar filters *)

Lemma filter_all {A} (P : A → Prop) `{∀ x, Decision (P x)} (l : list A) :
  Forall P l → filter P l = l.
Proof.
  induction 1 as [|x l Hx _ IH]; [done|].
  rewrite filter_cons_True by done. by f_equal.
Qed.

(** Selecting every observed value of a column keeps every row. *)
Lemma isin_default (c : column) (df : list row) :
  Forall (λ r : row, is_Some (cells r !! c)) df →
  isin c (unique (column_values c df)) df = df.
Proof.
  intros Hdf. apply filter_all. apply Forall_forall. intros r Hr.
  rewrite Forall_forall in Hdf. destruct (Hdf r Hr) as [v Hv].
  unfold isin_mask. rewrite Hv. apply bool_decide_eq_true.
  apply elem_of_unique. apply list_elem_of_omap. eauto.
Qed.

Lemma list_min_le d ds x : x ∈ d :: ds → list_min d ds ≤ x.
Proof.
  induction ds as [|e ds IH]; simpl.
  - intros ->%list_elem_of_singleton. lia.
  - rewrite !elem_of_cons. intros [->|[->|Hx]].
    + assert (list_min d ds ≤ d) by (apply IH; left). lia.
    + lia.
    + assert (list_min d ds ≤ x) by (apply IH; by right). lia.
Qed.

Lemma list_max_ge d ds x : x ∈ d :: ds → x ≤ list_max d ds.
Proof.
  induction ds as [|e ds IH]; simpl.
  - intros ->%list_elem_of_singleton. lia.
  - rewrite !elem_of_cons. intros [->|[->|Hx]].
    + assert (d ≤ list_max d ds) by (apply IH; left). lia.
    + lia.
    + assert (x ≤ list_max d ds) by (apply IH; by right). lia.
Qed.

Lemma list_min_elem d ds : list_min d ds ∈ d :: ds.
Proof.
  induction ds as [|e ds IH]; simpl; [left|].
  destruct (Z.min_spec e (list_min d ds)) as [[_ ->]|[_ ->]].
  - right; left.
  - apply elem_of_cons in IH as [->|?]; [left|right; by right].
Qed.

Lemma list_max_elem d ds : list_max d ds ∈ d :: ds.
Proof.
  induction ds as [|e ds IH]; simpl; [left|].
  destruct (Z.max_spec e (list_max d ds)) as [[_ ->]|[_ ->]].
  - apply elem_of_cons in IH as [->|?]; [left|right; by right].
  - right; left.
Qed.

(** The bounds of the date selector enclose every date of the frame. *)
Lemma date_bounds_enclose today (df : list row) d :
  d ∈ date_values df →
  (date_bounds today df).1 ≤ d ∧ d ≤ (date_bounds today df).2.
Proof.
  unfold date_bounds. destruct (date_values df) as [|e ds]; simpl.
  - by intros ?%elem_of_nil.
  - intros Hd. split; [by apply list_min_le|by apply list_max_ge].
Qed.

(** On a frame with rows they are the least and the greatest date. *)
Lemma date_bounds_attained today (df : list row) :
  date_values df ≠ [] →
  (date_bounds today df).1 ∈ date_values df
  ∧ (date_bounds today df).2 ∈ date_values df.
Proof.
  unfold date_bounds. destruct (date_values df) as [|e ds]; [done|].
  intros _. split; [apply list_min_elem|apply list_max_elem].
Qed.

Lemma date_filter_default today (df : list row) :
  Forall (λ r : row, ∃ d, cells r !! Date = Some (Day d)) df →
  date_filter [(date_bounds today df).1; (date_bounds today df).2] df = df.
Proof.
  intros Hdf. apply filter_all. apply Forall_forall. intros r Hr.
  rewrite Forall_forall in Hdf. destruct (Hdf r Hr) as [d Hd].
  unfold between_mask. rewrite Hd.
  destruct (date_bounds_enclose today df d) as [Hlo Hhi].
  { apply list_elem_of_omap. exists r. by rewrite Hd. }
  apply andb_true_iff. split; by apply Z.leb_le.
Qed.

Lemma raw_frame_columns (df : list row) :
  raw_frame df →
  Forall (λ r : row, is_Some (cells r !! AppName)) df
  ∧ Forall (λ r : row, is_Some (cells r !! CampaignId)) df
  ∧ Forall (λ r : row, is_Some (cells r !! CreativeId)) df
  ∧ Forall (λ r : row, ∃ d, cells r !! Date = Some (Day d)) df.
Proof.
  unfold raw_frame, raw_row. rewrite !Forall_forall.
  intros H. repeat split; intros r Hr; by destruct (H r Hr) as (?&?&?&?).
Qed.

(** C7.  With the widgets' defaults, which on a loaded frame are all the
    observed app names, all the observed campaign ids, all the observed
    creative ids and the range from the least to the greatest date, the
    filters return the frame unchanged. *)
Theorem filtered_df_default_identity (today : Z) (df : list row) :
  raw_frame df →
  default_selection today df
  = {| selected_apps := unique (column_values AppName df);
       selected_campaigns := unique (column_values CampaignId df);
       selected_creatives := unique (column_values CreativeId df);
       selected_dates := [(date_bounds today df).1; (date_bounds today df).2] |}
  ∧ (∀ d, d ∈ date_values df →
       (date_bounds today df).1 ≤ d ∧ d ≤ (date_bounds today df).2)
  ∧ (df ≠ [] →
       (date_bounds today df).1 ∈ date_values df
       ∧ (date_bounds today df).2 ∈ date_values df)
  ∧ filtered_df df (default_selection today df) = df.
Proof.
  intros Hraw. destruct (raw_frame_columns df Hraw) as (Ha & Hc & Hk & Hd).
  assert (default_selection today df
    = {| selected_apps := unique (column_values AppName df);
         selected_campaigns := unique (column_values CampaignId df);
         selected_creatives := unique (column_values CreativeId df);
         selected_dates :=
           [(date_bounds today df).1; (date_bounds today df).2] |}) as Hsel.
  { unfold default_selection. rewrite (isin_default AppName), (isin_default CampaignId),
      (isin_default CreativeId) by done.
    by destruct (date_bounds today df). }
  split; [done|]. split; [apply date_bounds_enclose|]. split.
  - intros Hne. apply date_bounds_attained.
    destruct df as [|r df]; [done|].
    apply Forall_cons in Hd as [[d Hd] _]. simpl. by rewrite Hd.
  - rewrite Hsel. unfold filtered_df. simpl.
    rewrite (isin_default AppName), (isin_default CampaignId),
      (isin_default CreativeId) by done. by apply date_filter_default.
Qed.

Lemma sample_df_raw : raw_frame sample_df.
Proof.
  repeat (apply Forall_cons; split); [..|by apply Forall_nil];
    (repeat split; eexists; vm_compute; reflexivity).
Defined.

Lemma filtered_df_default_identity_witness :
  filtered_df sample_df (default_selection 20100 sample_df) = sample_df.
Proof.
  exact (proj2 (proj2 (proj2
    (filtered_df_default_identity 20100 sample_df sample_df_raw)))).
Defined.

(** ** Metric calculator *)

Lemma clean_calculated_fields_ok (b : base) :
  metrics_ok (map_cells fillna0 (map_cells replace_inf (calculated_fields b))).
Proof.
  assert (∀ x, fdiv (Fin x) (Fin thousand) = Fin (x / thousand)%Qc) as Hm.
  { intros x. apply div_fin_nonzero, thousand_nonzero. }
  split; simpl; rewrite ?Hm; apply clean_div_fin.
Qed.

Lemma metrics_zero_policy (r : row) : metrics_ok r → zero_policy r.
Proof.
  intros [H1 H2 H3 H4 H5 H6 H7]. split.
  - intros E. rewrite H1, H5, H6, E. by rewrite !safe_div_zero.
  - intros E. rewrite H2, H3.
    assert (impressions r / thousand = 0)%Qc as -> by by apply per_mille_zero.
    by rewrite !safe_div_zero.
  - intros E. rewrite H4, E. by rewrite safe_div_zero.
  - intros E. rewrite H7, E. by rewrite safe_div_zero.
  - by rewrite H1, H2, H3, H4, H5, H6, H7.
Qed.

(** The two clean-up passes keep the base columns. *)
Lemma col_clean_calculated {A} (c : base → A) (bs : list base) :
  col c (frame_fillna0 (frame_replace_inf (calculated_fields <$> bs)))
  = c <$> bs.
Proof.
  unfold col, frame_fillna0, frame_replace_inf.
  rewrite <-!list_fmap_compose. by apply list_fmap_ext.
Qed.

(** ** Aggregator *)

Lemma fmap_ext_in {A B} (f g : A → B) (l : list A) :
  (∀ x, x ∈ l → f x = g x) → f <$> l = g <$> l.
Proof. intros H. apply Forall_fmap_ext_1, Forall_forall, H. Qed.

Lemma col_cons {A} (c : base → A) r df : col c (r :: df) = c r :: col c df.
Proof. done. Qed.

Lemma col_Forall {A} (c : base → A) (P : A → Prop) (df : list row) :
  Forall (λ r : row, P (c r)) df → Forall P (col c df).
Proof. intros H. unfold col. by apply Forall_fmap. Qed.

Lemma col_nonempty {A} (c : base → A) (df : list row) :
  df ≠ [] → col c df ≠ [].
Proof. by destruct df. Qed.

Section aggregate.
Variable group_cols : list column.
Implicit Types (df : list row) (k : list cell) (r g : row).

Lemma aggregate_data_unfold df :
  aggregate_data df group_cols =
    if decide (group_cols = []) then None
    else if decide (NoDup group_cols) then
      fmap (M:=list) (agg_row group_cols df) <$> group_keys df group_cols
    else None.
Proof.
  unfold aggregate_data, groupby_agg.
  repeat case_decide; try done.
  destruct (group_keys df group_cols) as [ks|]; simpl; [|done].
  f_equal. unfold frame_fillna0, frame_replace_inf.
  induction ks as [|k ks IH]; [done|]. csimpl. by f_equal.
Qed.

Lemma row_key_is_Some (b : base) :
  is_Some (row_key group_cols b)
  ↔ ∀ c, c ∈ group_cols → is_Some (cells b !! c).
Proof. unfold row_key. by rewrite mapM_is_Some, Forall_forall. Qed.

Lemma row_key_length (b : base) k :
  row_key group_cols b = Some k → length k = length group_cols.
Proof. by intros ?%length_mapM. Qed.

(** The key columns of an output row hold the key of its group. *)
Lemma row_key_agg_row df k :
  NoDup group_cols → length k = length group_cols →
  row_key group_cols (agg_row group_cols df k) = Some k.
Proof.
  intros Hnd Hlen. unfold row_key, agg_row. simpl.
  apply mapM_Some, Forall2_same_length_lookup_2; [done|].
  intros i c v Hc Hv. apply elem_of_list_to_map_1.
  - rewrite fst_zip by lia. done.
  - apply (list_elem_of_lookup_2 _ i). by apply lookup_zip_Some.
Qed.

Lemma keys_of_rows df ks k :
  mapM (λ r : row, row_key group_cols r) df = Some ks →
  k ∈ ks ↔ ∃ r, r ∈ df ∧ row_key group_cols r = Some k.
Proof.
  intros H%mapM_Some. induction H as [|r k' df ks Hr _ IH].
  - split; [by intros ?%elem_of_nil|by intros (? & ?%elem_of_nil & _)].
  - rewrite elem_of_cons, IH. split.
    + intros [->|(r' & ? & ?)]; [exists r|exists r'];
        by rewrite elem_of_cons; auto.
    + intros (r' & [->|?]%elem_of_cons & Hk); [left; congruence|right; eauto].
Qed.

(** The group keys are the distinct keys of the rows. *)
Lemma group_keys_Some df keys :
  group_keys df group_cols = Some keys →
  NoDup keys
  ∧ ∀ k, k ∈ keys ↔ ∃ r, r ∈ df ∧ row_key group_cols r = Some k.
Proof.
  unfold group_keys.
  destruct (mapM _ df) as [ks|] eqn:Hks; simpl; [|done].
  intros [= <-]. split.
  - rewrite merge_sort_Permutation. apply NoDup_unique.
  - intros k. rewrite merge_sort_Permutation, elem_of_unique.
    by apply keys_of_rows.
Qed.

Lemma group_keys_total df :
  has_columns group_cols df → is_Some (group_keys df group_cols).
Proof.
  intros Hdf. unfold group_keys.
  destruct (mapM_is_Some_2 (λ r : row, row_key group_cols r) df)
    as [ks ->]; [|by eexists].
  eapply Forall_impl; [exact Hdf|]. intros r Hr. by apply row_key_is_Some.
Qed.

Lemma aggregate_data_total df :
  group_cols ≠ [] → NoDup group_cols → has_columns group_cols df →
  ∃ keys, group_keys df group_cols = Some keys
          ∧ aggregate_data df group_cols
            = Some (agg_row group_cols df <$> keys).
Proof.
  intros Hne Hnd Hdf. destruct (group_keys_total df Hdf) as [keys Hkeys].
  exists keys. split; [done|]. rewrite aggregate_data_unfold.
  rewrite decide_False, decide_True by done. by rewrite Hkeys.
Qed.

Lemma aggregate_data_Some df agg :
  aggregate_data df group_cols = Some agg →
  group_cols ≠ [] ∧ NoDup group_cols
  ∧ ∃ keys, group_keys df group_cols = Some keys
            ∧ agg = agg_row group_cols df <$> keys.
Proof.
  rewrite aggregate_data_unfold. repeat case_decide; try done.
  destruct (group_keys df group_cols) as [keys|]; simpl; [|done].
  intros [= <-]. eauto.
Qed.

Lemma group_rows_nonempty df k r :
  r ∈ df → row_key group_cols r = Some k → group_rows group_cols k df ≠ [].
Proof.
  intros Hr Hk Hnil.
  assert (r ∈ group_rows group_cols k df) as Hin
    by by apply list_elem_of_filter.
  rewrite Hnil in Hin. by apply elem_of_nil in Hin.
Qed.

(** *** The groups partition the rows *)

Lemma sumQc_zero {A} (l : list A) : sumQc ((λ _, 0%Qc) <$> l) = 0%Qc.
Proof.
  induction l as [|x l IH]; [done|].
  rewrite fmap_cons, sumQc_cons, IH. ring.
Qed.

Lemma sumQc_fmap_plus {A} (f h : A → Qc) (l : list A) :
  sumQc ((λ x, f x + h x)%Qc <$> l)
  = (sumQc (f <$> l) + sumQc (h <$> l))%Qc.
Proof.
  induction l as [|x l IH]; [by rewrite Qcplus_0_l|].
  rewrite !fmap_cons, !sumQc_cons, IH. ring.
Qed.

(** Over duplicate-free keys, exactly one group receives a given row. *)
Lemma sumQc_indicator (keys : list (list cell)) k0 (x : Qc) :
  NoDup keys → k0 ∈ keys →
  sumQc ((λ k, if decide (Some k0 = Some k) then x else 0%Qc) <$> keys) = x.
Proof.
  induction 1 as [|k keys Hk Hnd IH]; [by intros ?%elem_of_nil|].
  intros [->|Hin]%elem_of_cons; rewrite fmap_cons, sumQc_cons.
  - rewrite decide_True by done.
    rewrite (fmap_ext_in _ (λ _, 0%Qc) keys), sumQc_zero; [ring|].
    intros k' Hk'. rewrite decide_False; [done|]. intros [= ->]. done.
  - rewrite decide_False by (intros [= ->]; done).
    rewrite IH by done. ring.
Qed.

Lemma group_rows_cons k r df :
  group_rows group_cols k (r :: df)
  = if decide (row_key group_cols r = Some k)
    then r :: group_rows group_cols k df
    else group_rows group_cols k df.
Proof. unfold group_rows. by rewrite filter_cons. Qed.

Lemma sum_groups (c : base → Qc) df (keys : list (list cell)) :
  NoDup keys →
  (∀ r, r ∈ df → ∃ k, k ∈ keys ∧ row_key group_cols r = Some k) →
  sumQc ((λ k, sumQc (col c (group_rows group_cols k df))) <$> keys)
  = sumQc (col c df).
Proof.
  intros Hnd. induction df as [|r df IH]; intros Hcover.
  - simpl. apply sumQc_zero.
  - destruct (Hcover r) as (k0 & Hk0 & Hr); [left|].
    rewrite (fmap_ext_in _
      (λ k, (if decide (Some k0 = Some k) then c r else 0)
            + sumQc (col c (group_rows group_cols k df)))%Qc keys).
    + rewrite sumQc_fmap_plus, sumQc_indicator, IH; [done| |done|done].
      intros r' Hr'. apply Hcover. by right.
    + intros k _. rewrite group_rows_cons, Hr.
      case_decide; [done|]. by rewrite Qcplus_0_l.
Qed.
End aggregate.

Lemma sample_df_has_app : has_columns [AppName] sample_df.
Proof.
  unfold has_columns.
  repeat (apply Forall_cons; split); [..|by apply Forall_nil];
    intros c ->%list_elem_of_singleton; eexists; vm_compute; reflexivity.
Defined.

(** C2.  In every row that [load_data] produces and in every row that
    [aggregate_data] produces, a metric with a zero denominator is 0: CPI,
    Payers % and ARPI when installs is 0, IPM and CPM when impressions is 0,
    ROAS when spend is 0, ARPP when payers is 0; and each of the seven
    metric cells is a finite number, never inf, NaN or missing. *)
Theorem zero_denominator_gives_zero :
  (∀ (parsed : list base) (r : row), r ∈ load_data parsed → zero_policy r)
  ∧ (∀ (df : list row) (group_cols : list column) (agg : list row) (r : row),
       aggregate_data df group_cols = Some agg → r ∈ agg → zero_policy r).
Proof.
  split.
  - intros parsed r. unfold load_data, frame_fillna0, frame_replace_inf.
    rewrite <-!list_fmap_compose.
    intros (b & -> & _)%list_elem_of_fmap.
    apply metrics_zero_policy, clean_calculated_fields_ok.
  - intros df group_cols agg r
      (_ & _ & keys & _ & ->)%aggregate_data_Some (k & -> & _)%list_elem_of_fmap.
    apply metrics_zero_policy, clean_calculated_fields_ok.
Qed.

Lemma zero_denominator_gives_zero_witness :
  zero_policy
    (map_cells fillna0 (map_cells replace_inf (calculated_fields idle_record)))
  ∧ zero_policy scenario_group.
Proof.
  split.
  - apply (proj1 zero_denominator_gives_zero sample_parsed).
    right; left.
  - apply (proj2 zero_denominator_gives_zero
             (load_data [scenario_record]) [AppName] [scenario_group]).
    + by_eval.
    + left.
Defined.

(** ** The order of the group keys *)

Section key_order.
Lemma string_compare_refl (s : string) : String.compare s s = Eq.
Proof.
  induction s as [|c s IH]; simpl; [done|].
  unfold Ascii.compare. by rewrite N.compare_refl.
Qed.

Lemma string_compare_lt_trans (s1 s2 s3 : string) :
  String.compare s1 s2 = Lt → String.compare s2 s3 = Lt →
  String.compare s1 s3 = Lt.
Proof.
  revert s2 s3. induction s1 as [|a s1 IH]; intros [|b s2] [|c s3];
    simpl; try done.
  unfold Ascii.compare.
  destruct (N.compare_spec (N_of_ascii a) (N_of_ascii b)) as [Hab|Hab|Hab],
    (N.compare_spec (N_of_ascii b) (N_of_ascii c)) as [Hbc|Hbc|Hbc],
    (N.compare_spec (N_of_ascii a) (N_of_ascii c)) as [Hac|Hac|Hac];
    try done; try lia.
  apply IH.
Qed.

Lemma string_leb_iff (s1 s2 : string) :
  String.leb s1 s2 = true ↔ String.compare s1 s2 = Lt ∨ s1 = s2.
Proof.
  unfold String.leb. split.
  - destruct (String.compare s1 s2) eqn:Hc; try done; [|by left].
    right. by apply String.compare_eq_iff.
  - intros [->| ->]; [done|]. by rewrite string_compare_refl.
Qed.

Lemma string_leb_trans (s1 s2 s3 : string) :
  String.leb s1 s2 = true → String.leb s2 s3 = true →
  String.leb s1 s3 = true.
Proof.
  rewrite !string_leb_iff. intros [H12| ->] [H23| ->]; auto.
  left. by eapply string_compare_lt_trans.
Qed.

Lemma cell_leb_total (a b : cell) : cell_leb a b = true ∨ cell_leb b a = true.
Proof.
  destruct a as [s|d], b as [t|e]; simpl; auto.
  - apply String.leb_total.
  - rewrite !Z.leb_le. lia.
Qed.

Lemma cell_leb_antisym (a b : cell) :
  cell_leb a b = true → cell_leb b a = true → a = b.
Proof.
  destruct a as [s|d], b as [t|e]; simpl; try done.
  - intros H1 H2. f_equal. by apply String.leb_antisym.
  - rewrite !Z.leb_le. intros. f_equal. lia.
Qed.

Lemma cell_leb_trans (a b c : cell) :
  cell_leb a b = true → cell_leb b c = true → cell_leb a c = true.
Proof.
  destruct a as [s|d], b as [t|e], c as [u|f]; simpl; try done.
  - apply string_leb_trans.
  - rewrite !Z.leb_le. lia.
Qed.

Global Instance key_le_total : Total key_le.
Proof.
  unfold key_le. intros k1.
  induction k1 as [|a k1 IH]; intros [|b k2]; simpl; auto.
  repeat case_decide; subst; try done;
    first [apply IH|apply cell_leb_total].
Qed.

Global Instance key_le_antisym : AntiSymm (=) key_le.
Proof.
  unfold key_le. intros k1.
  induction k1 as [|a k1 IH]; intros [|b k2]; simpl; try done.
  repeat case_decide; subst; try done.
  - intros. f_equal. by apply IH.
  - intros H1 H2. exfalso. eauto using cell_leb_antisym.
Qed.

Global Instance key_le_trans : Transitive key_le.
Proof.
  unfold key_le. intros k1.
  induction k1 as [|a k1 IH]; intros [|b k2] [|c k3]; simpl; try done.
  repeat case_decide; subst; try done.
  - apply IH.
  - intros H1 H2. exfalso. eauto using cell_leb_antisym.
  - apply cell_leb_trans.
Qed.

(** Sorting a sorted list of keys changes nothing. *)
Lemma merge_sort_sorted (keys : list (list cell)) :
  Sorted key_le keys → merge_sort key_le keys = keys.
Proof.
  intros Hs. apply (Sorted_unique key_le); [|done|].
  - apply (Sorted_merge_sort key_le).
  - apply merge_sort_Permutation.
Qed.

(** The groups come out in the order of their keys. *)
Lemma group_keys_sorted (df : list row) group_cols keys :
  group_keys df group_cols = Some keys → Sorted key_le keys.
Proof.
  unfold group_keys. destruct (mapM _ df) as [ks|]; simpl; [|done].
  intros [= <-]. apply (Sorted_merge_sort key_le).
Qed.
End key_order.

(** ** Aggregating an aggregate *)

Section aggregate_twice.
Variable group_cols : list column.
Hypothesis group_cols_distinct : NoDup group_cols.
Implicit Types (df : list row) (k : list cell) (keys : list (list cell)).

Local Abbreviation arity := (key_arity group_cols).

Lemma arity_cons k keys :
  arity (k :: keys) → length k = length group_cols ∧ arity keys.
Proof.
  intros H. split; [apply H; left|]. intros k' ?. apply H. by right.
Qed.

Lemma group_rows_absent df keys k :
  arity keys → k ∉ keys →
  group_rows group_cols k (agg_row group_cols df <$> keys) = [].
Proof.
  induction keys as [|k' keys IH]; [done|].
  intros [Hlen Har]%arity_cons [Hne Hk]%not_elem_of_cons.
  rewrite fmap_cons, group_rows_cons, row_key_agg_row by done.
  rewrite decide_False by congruence. by apply IH.
Qed.

(** In the aggregate, the group of a key is the one row of that key. *)
Lemma group_rows_agg df keys k :
  NoDup keys → arity keys → k ∈ keys →
  group_rows group_cols k (agg_row group_cols df <$> keys)
  = [agg_row group_cols df k].
Proof.
  induction 1 as [|k' keys Hk' Hnd IH]; [by intros _ ?%elem_of_nil|].
  intros [Hlen Har]%arity_cons Hin.
  rewrite fmap_cons, group_rows_cons, row_key_agg_row by done.
  destruct (decide (k' = k)) as [->|Hne].
  - rewrite decide_True by done. f_equal. by apply group_rows_absent.
  - rewrite decide_False by congruence. apply IH; [done|].
    apply elem_of_cons in Hin as [->|]; done.
Qed.

(** Summing one row gives back its sums, and the mean of one value is the
    value. *)
Lemma agg_group_singleton df k :
  agg_group group_cols k [agg_row group_cols df k]
  = row_base (agg_row group_cols df k).
Proof.
  unfold agg_group, agg_row, col. simpl.
  rewrite !Qcplus_0_r, mean_singleton. done.
Qed.

Lemma agg_row_again df keys k :
  NoDup keys → arity keys → k ∈ keys →
  agg_row group_cols (agg_row group_cols df <$> keys) k
  = agg_row group_cols df k.
Proof.
  intros Hnd Har Hk. unfold agg_row at 1.
  rewrite group_rows_agg, agg_group_singleton by done. done.
Qed.

Lemma group_keys_again df keys :
  group_keys df group_cols = Some keys →
  arity keys
  ∧ group_keys (agg_row group_cols df <$> keys) group_cols = Some keys.
Proof.
  intros Hkeys.
  destruct (group_keys_Some group_cols df keys Hkeys) as [Hnd Hmem].
  assert (arity keys) as Har.
  { intros k (r & _ & Hr)%Hmem. by eapply row_key_length. }
  split; [done|]. unfold group_keys.
  assert (mapM (λ r : row, row_key group_cols r)
            (agg_row group_cols df <$> keys) = Some keys) as ->.
  { apply mapM_Some, Forall2_fmap_l, Forall_Forall2_diag, Forall_forall.
    intros k Hk. apply row_key_agg_row; auto. }
  simpl. rewrite unique_NoDup by done.
  rewrite merge_sort_sorted; [done|]. by eapply group_keys_sorted.
Qed.

(** Aggregating the aggregate by the same columns returns it unchanged. *)
Lemma aggregate_data_twice df agg :
  aggregate_data df group_cols = Some agg →
  aggregate_data agg group_cols = Some agg.
Proof.
  intros (Hne & _ & keys & Hkeys & ->)%aggregate_data_Some.
  destruct (group_keys_Some group_cols df keys Hkeys) as [Hnd _].
  destruct (group_keys_again df keys Hkeys) as [Har Hagain].
  rewrite aggregate_data_unfold, decide_False, decide_True by done.
  rewrite Hagain. simpl. f_equal. apply fmap_ext_in.
  intros k Hk. by apply agg_row_again.
Qed.
End aggregate_twice.

(** C6.  Aggregating by a column and aggregating the result by the same
    column again returns the first aggregate itself: the same groups with the
    same key values and so the same summed spend, installs, impressions,
    payers and revenue. *)
Theorem aggregate_data_idempotent (df : list row) (A : column) :
  has_columns [A] df →
  ∃ agg : list row,
    aggregate_data df [A] = Some agg
    ∧ aggregate_data agg [A] = Some agg.
Proof.
  intros Hdf.
  assert (NoDup [A]) as Hnd by (apply NoDup_singleton).
  destruct (aggregate_data_total [A] df) as (keys & _ & Hagg); [done..|].
  eexists. split; [exact Hagg|]. by apply (aggregate_data_twice [A] Hnd df).
Qed.

Lemma aggregate_data_idempotent_witness :
  ∃ agg : list row,
    aggregate_data sample_df [AppName] = Some agg
    ∧ aggregate_data agg [AppName] = Some agg.
Proof.
  apply (aggregate_data_idempotent sample_df AppName).
  exact sample_df_has_app.
Defined.

(** ** Display formatting *)

Section rounding.
Implicit Types q : Qc.

Lemma round_half_even_integer (n : Z) : round_half_even (Qc_of_Z n) = n.
Proof.
  unfold round_half_even. simpl. rewrite Z.div_1_r, Z.mod_1_r. done.
Qed.

Lemma round_half_even_nonneg q : (0 ≤ q)%Qc → 0 ≤ round_half_even q.
Proof.
  intros Hq. assert (0 ≤ Qnum q) as Hn.
  { unfold Qcle, Qle in Hq. simpl in Hq. lia. }
  unfold round_half_even.
  pose proof (Z.div_pos (Qnum q) (Z.pos (Qden q)) Hn ltac:(lia)).
  repeat case_match; lia.
Qed.
End rounding.

Section digits.
Lemma string_app_nil_r (s : string) : s +:+ "" = s.
Proof.
  induction s as [|c s IH]; [done|].
  change (String c (s +:+ "") = String c s). by rewrite IH.
Qed.

Lemma frac_digits_two (f : N) : (f < 100)%N → frac_digits 2 f = two_digits f.
Proof.
  intros Hf.
  assert (Forall (λ n : nat, frac_digits 2 (N.of_nat n)
                             = two_digits (N.of_nat n)) (seq 0 100)) as Hall
    by by_eval.
  rewrite Forall_forall in Hall.
  rewrite <-(N2Nat.id f). apply Hall, elem_of_seq. lia.
Qed.

(** Two decimals: the integer part, a point, and exactly two digits. *)
Lemma format_fixed_two q :
  let n := round_half_even (Qc_abs q * Qc_of_Z 100)%Qc in
  format_fixed 2 false q
  = sign_of q +:+ pretty (Z.to_N (n `div` 100)) +:+ "."
      +:+ two_digits (Z.to_N (n `mod` 100)).
Proof.
  intros n. unfold format_fixed, sign_of.
  change (10 ^ Z.of_nat 2) with 100. cbv zeta. fold n.
  rewrite frac_digits_two; [done|].
  pose proof (Z.mod_pos_bound n 100 ltac:(lia)). lia.
Qed.

(** No decimals and the separator: the grouped digits of the rounded
    number. *)
Lemma format_fixed_grouped q :
  format_fixed 0 true q
  = sign_of q +:+ with_commas (pretty (Z.to_N (round_half_even (Qc_abs q)))).
Proof.
  unfold format_fixed, sign_of. change (10 ^ Z.of_nat 0) with 1. cbv zeta.
  rewrite Z2Qc_inj_1, Qcmult_1_r, Z.div_1_r.
  by rewrite string_app_nil_r.
Qed.

(** Induction along the groups of three. *)
Lemma group3_ind (P : list ascii → Prop) :
  P [] → (∀ a, P [a]) → (∀ a b, P [a; b]) → (∀ a b c, P [a; b; c]) →
  (∀ a b c d l, P (d :: l) → P (a :: b :: c :: d :: l)) →
  ∀ l, P l.
Proof.
  intros H0 H1 H2 H3 H4 l.
  assert (∀ n l, (length l ≤ n)%nat → P l) as Hn; [|by eapply Hn].
  clear l. intros n. induction n as [|n IH]; intros l Hl.
  - destruct l; [done|simpl in Hl; lia].
  - destruct l as [|a [|b [|c [|d l]]]]; auto.
    apply H4, IH. simpl in *. lia.
Qed.

Lemma group3_four a b c d l :
  group3 (a :: b :: c :: d :: l)
  = a :: b :: c :: ","%char :: group3 (d :: l).
Proof. done. Qed.

(** Grouping only inserts separators ... *)
Lemma drop_commas_group3 (l : list ascii) :
  ","%char ∉ l → drop_commas (group3 l) = l.
Proof.
  unfold drop_commas.
  induction l as [|a|a b|a b c|a b c d l IH] using group3_ind; intros Hl.
  - done.
  - apply filter_all, Forall_forall. intros x Hx ->. done.
  - apply filter_all, Forall_forall. intros x Hx ->. done.
  - apply filter_all, Forall_forall. intros x Hx ->. done.
  - rewrite group3_four.
    apply not_elem_of_cons in Hl as [Ha Hl].
    apply not_elem_of_cons in Hl as [Hb Hl].
    apply not_elem_of_cons in Hl as [Hc Hl].
    rewrite !filter_cons_True by congruence.
    rewrite filter_cons_False by (intros ?; done).
    by rewrite IH.
Qed.

(** ... one before every complete group of three that is not the first. *)
Lemma length_group3 (l : list ascii) :
  length (group3 l) = (length l + (length l - 1) `div` 3)%nat.
Proof.
  induction l as [|a|a b|a b c|a b c d l IH] using group3_ind; try done.
  rewrite group3_four. cbn [length] in *. rewrite IH.
  replace (S (S (S (S (length l)))) - 1)%nat
    with (1 * 3 + (S (length l) - 1))%nat by lia.
  rewrite Nat.div_add_l by lia. lia.
Qed.
End digits.

Section separators.
Implicit Types (c a : ascii) (s t : string) (l : list ascii).

Lemma chars_app s t : chars (s +:+ t) = chars s ++ chars t.
Proof.
  induction s as [|a s IH]; [done|].
  change (a :: chars (s +:+ t) = a :: (chars s ++ chars t)). by rewrite IH.
Qed.

Lemma chars_inj s t : chars s = chars t → s = t.
Proof.
  intros H. rewrite <-(String.string_of_list_ascii_of_string s),
    <-(String.string_of_list_ascii_of_string t). unfold chars in H.
  by rewrite H.
Qed.

Lemma remove_char_chars c s :
  chars (remove_char c s) = filter (λ a, a ≠ c) (chars s).
Proof.
  induction s as [|a s IH]; [done|]. simpl.
  change (chars (String a s)) with (a :: chars s). rewrite filter_cons.
  destruct (Ascii.eqb_spec a c) as [->|Hne].
  - by rewrite decide_False by (intros ?; done).
  - rewrite decide_True by done.
    change (a :: chars (remove_char c s) = a :: filter (λ a, a ≠ c) (chars s)).
    by rewrite IH.
Qed.

Lemma remove_char_absent c s : c ∉ chars s → remove_char c s = s.
Proof.
  intros H. apply chars_inj. rewrite remove_char_chars.
  apply filter_all, Forall_forall. intros a Ha ->. done.
Qed.

Lemma remove_char_app c s t :
  remove_char c (s +:+ t) = remove_char c s +:+ remove_char c t.
Proof.
  apply chars_inj.
  by rewrite chars_app, !remove_char_chars, chars_app, filter_app.
Qed.

Lemma chars_with_commas s :
  chars (with_commas s) = reverse (group3 (reverse (chars s))).
Proof.
  unfold with_commas, chars.
  by rewrite String.list_ascii_of_string_of_list_ascii.
Qed.

(** Removing the commas undoes the grouping. *)
Lemma remove_comma_with_commas s :
  ","%char ∉ chars s → remove_char ","%char (with_commas s) = s.
Proof.
  intros H. apply chars_inj.
  rewrite remove_char_chars, chars_with_commas, filter_reverse.
  fold (drop_commas (group3 (reverse (chars s)))).
  rewrite drop_commas_group3 by by rewrite elem_of_reverse.
  apply reverse_involutive.
Qed.

Lemma remove_dot_replace_comma s :
  remove_char "."%char (replace_comma s)
  = remove_char "."%char (remove_char ","%char s).
Proof.
  induction s as [|a s IH]; [done|]. simpl.
  destruct (Ascii.eqb_spec a ","%char) as [->|Hc]; simpl; [done|].
  destruct (Ascii.eqb_spec a "."%char) as [->|Hd]; [done|].
  by rewrite IH.
Qed.

Lemma pretty_N_char_plain (d : N) : plain (pretty_N_char d).
Proof. unfold pretty_N_char. repeat case_match; by split. Qed.

Lemma pretty_N_go_plain (x : N) s :
  Forall plain (chars s) → Forall plain (chars (pretty_N_go x s)).
Proof.
  revert s. induction (N.lt_wf_0 x) as [x _ IH]; intros s Hs.
  destruct (decide (0 < x)%N) as [Hx|Hx].
  - rewrite pretty_N_go_step by done. apply IH; [by apply N.div_lt|].
    change (chars (String (pretty_N_char (x `mod` 10)) s))
      with (pretty_N_char (x `mod` 10) :: chars s).
    constructor; [apply pretty_N_char_plain|done].
  - assert (x = 0%N) as -> by lia. by rewrite pretty_N_go_0.
Qed.

Lemma pretty_N_plain (n : N) : Forall plain (chars (pretty n)).
Proof.
  unfold pretty, pretty_N. case_decide.
  - repeat constructor; done.
  - apply pretty_N_go_plain. constructor.
Qed.

Lemma plain_no_comma s : Forall plain (chars s) → ","%char ∉ chars s.
Proof. rewrite Forall_forall. intros H Hin. by destruct (H _ Hin). Qed.

Lemma plain_no_dot s : Forall plain (chars s) → "."%char ∉ chars s.
Proof. rewrite Forall_forall. intros H Hin. by destruct (H _ Hin). Qed.

Lemma Qc_abs_of_Z (n : Z) : Qc_abs (Qc_of_Z n) = Qc_of_Z (Z.abs n).
Proof.
  unfold Qc_abs, Qc_ltb. rewrite <-Z2Qc_inj_0. case_bool_decide as H.
  - apply Z2Qc_inj_lt in H. rewrite <-Z2Qc_inj_opp. f_equal. lia.
  - f_equal. assert (¬ n < 0) by (by rewrite Z2Qc_inj_lt). lia.
Qed.

Lemma sign_of_Z (n : Z) :
  sign_of (Qc_of_Z n) = if decide (n < 0) then "-" else "".
Proof.
  unfold sign_of, Qc_ltb. rewrite <-Z2Qc_inj_0.
  case_bool_decide as H; case_decide as H'; try done.
  - by apply Z2Qc_inj_lt in H.
  - by apply Z2Qc_inj_lt in H'.
Qed.

Lemma pretty_Z_sign (n : Z) :
  pretty n
  = (if decide (n < 0) then "-" else "") +:+ pretty (Z.to_N (Z.abs n)).
Proof. by destruct n. Qed.

(** The grouped rendering of an integer. *)
Lemma format_grouped_integer (n : Z) :
  format_f 0 true (Fin (Qc_of_Z n))
  = (if decide (n < 0) then "-" else "")
      +:+ with_commas (pretty (Z.to_N (Z.abs n))).
Proof.
  simpl. rewrite format_fixed_grouped, Qc_abs_of_Z, sign_of_Z.
  by rewrite round_half_even_integer.
Qed.

Lemma remove_char_sign c (n : Z) :
  c ≠ "-"%char →
  remove_char c (if decide (n < 0) then "-" else "")
  = if decide (n < 0) then "-" else "".
Proof.
  intros Hc. case_decide; [|done].
  change ((if Ascii.eqb "-"%char c then "" else "-") = "-").
  destruct (Ascii.eqb_spec "-"%char c) as [E|]; [by destruct Hc|done].
Qed.
End separators.

(** ** float64 *)

Section float64.
Implicit Types (n p z : Z) (q y : Qc).

Lemma Qc_leb_of_Z (a b : Z) :
  Qc_leb (Qc_of_Z a) (Qc_of_Z b) = bool_decide (a ≤ b).
Proof. unfold Qc_leb. apply bool_decide_ext. symmetry. apply Z2Qc_inj_le. Qed.

Lemma pow2_nonneg_exp (e : Z) : 0 ≤ e → pow2 e = Qc_of_Z (2 ^ e).
Proof.
  intros He. unfold pow2. rewrite Z.max_l, Z.max_r by lia.
  rewrite Z.pow_0_r, Z2Qc_inj_1. unfold Qcdiv.
  replace (/ 1)%Qc with 1%Qc by by_eval. ring.
Qed.

Lemma pow2_nonpos_exp (e : Z) : e ≤ 0 → pow2 e = (/ Qc_of_Z (2 ^ (- e)))%Qc.
Proof.
  intros He. unfold pow2. rewrite Z.max_r, Z.max_l by lia.
  rewrite Z.pow_0_r, Z2Qc_inj_1. unfold Qcdiv. ring.
Qed.

Lemma ilog2_of_Z p : 0 < p → ilog2 (Qc_of_Z p) = Z.log2 p.
Proof.
  intros Hp. unfold ilog2. simpl. change (Z.log2 1) with 0.
  rewrite Z.sub_0_r.
  pose proof (Z.log2_nonneg p). pose proof (Z.log2_spec p Hp) as [Hlo _].
  rewrite pow2_nonneg_exp by done. rewrite Qc_leb_of_Z.
  by rewrite bool_decide_eq_true_2.
Qed.

(** A whole number of at most 53 bits is a float64. *)
Lemma f64_round_int n :
  Z.abs n ≤ 2 ^ 53 → f64_round (Qc_of_Z n) = Fin (Qc_of_Z n).
Proof.
  intros Hn.
  destruct (decide (n = 0)) as [->|Hn0]; [by_eval|].
  destruct (decide (Z.abs n = 2 ^ 53)) as [Habs|Hlt].
  { assert (n = 2 ^ 53 ∨ n = - 2 ^ 53) as [-> | ->] by lia; by_eval. }
  set (p := Z.abs n). assert (0 < p < 2 ^ 53) as Hp by lia.
  unfold f64_round. rewrite Qc_abs_of_Z. fold p.
  rewrite ilog2_of_Z by lia.
  pose proof (Z.log2_nonneg p).
  assert (Z.log2 p < 53) as Hk by (apply Z.log2_lt_pow2; lia).
  rewrite Z.max_l by lia.
  set (k := Z.log2 p) in *.
  rewrite (pow2_nonpos_exp (k - 52)) by lia.
  replace (- (k - 52)) with (52 - k) by lia.
  set (s := 2 ^ (52 - k)).
  assert (0 < s) as Hs by (apply Z.pow_pos_nonneg; lia).
  assert (Qc_of_Z s ≠ 0%Qc) as Hs' by (apply Qc_of_Z_nonzero; lia).
  replace (Qc_of_Z p / / Qc_of_Z s)%Qc with (Qc_of_Z (p * s)).
  2:{ rewrite Z2Qc_inj_mul. by field. }
  rewrite round_half_even_integer.
  replace (Qc_of_Z (p * s) * / Qc_of_Z s)%Qc with (Qc_of_Z p).
  2:{ rewrite Z2Qc_inj_mul. by field. }
  rewrite (pow2_nonneg_exp 1024) by lia. rewrite Qc_leb_of_Z.
  rewrite bool_decide_eq_false_2.
  2:{ assert (2 ^ 53 < 2 ^ 1024) by (apply Z.pow_lt_mono_r; lia). lia. }
  f_equal. unfold Qc_ltb. rewrite <-Z2Qc_inj_0. case_bool_decide as Hneg.
  - apply Z2Qc_inj_lt in Hneg. rewrite <-Z2Qc_inj_opp. f_equal. lia.
  - f_equal. assert (¬ n < 0) by (by rewrite Z2Qc_inj_lt). lia.
Qed.

Lemma counting_0 : counting 0.
Proof. exists 0. split; [lia|]. by rewrite Z2Qc_inj_0. Qed.

Lemma counting_nonneg q : counting q → (0 ≤ q)%Qc.
Proof.
  intros (n & Hn & ->). rewrite <-Z2Qc_inj_0.
  exact (proj1 (Z2Qc_inj_le 0 n) Hn).
Qed.

Lemma counting_plus (a b : Qc) : counting a → counting b → counting (a + b).
Proof.
  intros (n & Hn & ->) (m & Hm & ->). exists (n + m).
  split; [lia|]. by rewrite Z2Qc_inj_add.
Qed.

Lemma counting_sum (l : list Qc) : Forall counting l → counting (sumQc l).
Proof.
  induction 1 as [|x l Hx _ IH]; [apply counting_0|].
  rewrite sumQc_cons. by apply counting_plus.
Qed.

Lemma f64_round_counting q :
  counting q → (q ≤ exact_bound)%Qc → f64_round q = Fin q.
Proof.
  intros (n & Hn & ->) Hle. apply Z2Qc_inj_le in Hle.
  apply f64_round_int. lia.
Qed.

Lemma f64_add_counting (a b : Qc) :
  counting a → counting b → (a + b ≤ exact_bound)%Qc →
  f64_add (Fin a) (Fin b) = Fin (a + b).
Proof.
  intros Ha Hb Hle. unfold f64_add. simpl.
  apply f64_round_counting; [by apply counting_plus|done].
Qed.

Lemma Qcle_plus_l (a b c : Qc) : (0 ≤ b)%Qc → (a + b ≤ c)%Qc → (a ≤ c)%Qc.
Proof.
  intros Hb Hle. eapply Qcle_trans; [|exact Hle].
  rewrite <-(Qcplus_0_r a) at 1. apply Qcplus_le_compat; [apply Qcle_refl|done].
Qed.

Lemma Qcle_plus_r (a b c : Qc) : (0 ≤ a)%Qc → (a + b ≤ c)%Qc → (b ≤ c)%Qc.
Proof. rewrite (Qcplus_comm a b). apply Qcle_plus_l. Qed.

Lemma kahan_step_counting (s v : Qc) :
  counting s → counting v → (s + v ≤ exact_bound)%Qc →
  kahan_step (Fin s, Fin 0) (Fin v) = (Fin (s + v), Fin 0).
Proof.
  intros Hs Hv Hle. unfold kahan_step.
  pose proof (counting_nonneg _ Hs). pose proof (counting_nonneg _ Hv).
  assert (f64_sub (Fin v) (Fin 0) = Fin v) as ->.
  { unfold f64_sub. simpl. replace (v + - 0)%Qc with v by ring.
    apply f64_round_counting; [done|]. by apply (Qcle_plus_r s). }
  rewrite f64_add_counting by done.
  assert (f64_sub (Fin (s + v)) (Fin s) = Fin v) as ->.
  { unfold f64_sub. simpl. replace (s + v + - s)%Qc with v by ring.
    apply f64_round_counting; [done|]. by apply (Qcle_plus_r s). }
  assert (f64_sub (Fin v) (Fin v) = Fin 0) as ->.
  { unfold f64_sub. simpl. replace (v + - v)%Qc with 0%Qc by ring. by_eval. }
  done.
Qed.

Lemma kahan_fold_counting (l : list Qc) (s : Qc) :
  counting s → Forall counting l → (s + sumQc l ≤ exact_bound)%Qc →
  foldl kahan_step (Fin s, Fin 0) (Fin <$> l) = (Fin (s + sumQc l), Fin 0).
Proof.
  intros Hs Hl. revert s Hs. induction Hl as [|v l Hv Hl IH]; intros s Hs Hle.
  - simpl. by rewrite Qcplus_0_r.
  - rewrite sumQc_cons in Hle |- *. rewrite fmap_cons. cbn [foldl].
    pose proof (counting_nonneg _ (counting_sum l Hl)).
    rewrite kahan_step_counting; [|done..|].
    + rewrite IH; [|by apply counting_plus|].
      * by rewrite Qcplus_assoc.
      * by rewrite <-Qcplus_assoc.
    + apply (Qcle_plus_l _ (sumQc l)); [done|]. by rewrite <-Qcplus_assoc.
Qed.

(** On counts that add up to at most [2 ^ 53] the compensated float64 sum
    is the exact sum ... *)
Lemma f64_group_sum_exact (l : list Qc) :
  Forall counting l → (sumQc l ≤ exact_bound)%Qc →
  f64_group_sum l = Fin (sumQc l).
Proof.
  intros Hl Hle. unfold f64_group_sum.
  rewrite (kahan_fold_counting l 0); [|apply counting_0|done|].
  - simpl. by rewrite Qcplus_0_l.
  - by rewrite Qcplus_0_l.
Qed.

(** ... and so is the float64 sum in any bracketing. *)
Lemma f64_tree_sum_exact (t : sum_tree) :
  Forall counting (leaves t) → (sumQc (leaves t) ≤ exact_bound)%Qc →
  f64_tree_sum t = Fin (sumQc (leaves t)).
Proof.
  induction t as [x|l IHl r IHr]; simpl; intros Hall Hle.
  - by rewrite Qcplus_0_r.
  - apply Forall_app in Hall as [Hall_l Hall_r].
    rewrite sumQc_app in Hle |- *.
    pose proof (counting_nonneg _ (counting_sum _ Hall_l)).
    pose proof (counting_nonneg _ (counting_sum _ Hall_r)).
    rewrite IHl, IHr;
      [|done|by apply (Qcle_plus_r (sumQc (leaves l)))
       |done|by apply (Qcle_plus_l _ (sumQc (leaves r)))].
    apply f64_add_counting; [by apply counting_sum..|done].
Qed.

Lemma wrap_int64_small z : - 2 ^ 63 ≤ z < 2 ^ 63 → wrap_int64 z = z.
Proof. intros Hz. unfold wrap_int64. rewrite Z.mod_small; lia. Qed.

Lemma wrap_int64_add (a b : Z) :
  wrap_int64 (wrap_int64 a + b) = wrap_int64 (a + b).
Proof.
  unfold wrap_int64.
  replace ((a + 2 ^ 63) `mod` 2 ^ 64 - 2 ^ 63 + b + 2 ^ 63)
    with ((a + 2 ^ 63) `mod` 2 ^ 64 + b) by lia.
  rewrite Zplus_mod_idemp_l. do 2 f_equal. lia.
Qed.

(** The int64 sum is the sum modulo [2 ^ 64] ... *)
Lemma int64_sum_wrap (l : list Z) : int64_sum l = wrap_int64 (sumZ l).
Proof.
  unfold int64_sum.
  assert (∀ acc, foldl (λ acc x, wrap_int64 (acc + x)) (wrap_int64 acc) l
                 = wrap_int64 (acc + sumZ l)) as H.
  { induction l as [|x l IH]; intros acc; simpl.
    - by rewrite Z.add_0_r.
    - rewrite wrap_int64_add, IH. f_equal. fold (sumZ l). lia. }
  specialize (H 0). by rewrite wrap_int64_small in H by lia.
Qed.

(** ... and so the sum itself as long as that fits. *)
Lemma int64_sum_exact (l : list Z) :
  - 2 ^ 63 ≤ sumZ l < 2 ^ 63 → int64_sum l = sumZ l.
Proof. intros H. rewrite int64_sum_wrap. by apply wrap_int64_small. Qed.
End float64.

Section nearest.
Implicit Types (z n : Z) (y q : Qc).

Lemma Qc_of_Z_le_double z y :
  (Qc_of_Z z ≤ y + y)%Qc ↔ z * Z.pos (Qden y) ≤ 2 * Qnum y.
Proof.
  unfold Qcle. cbn [this Qc_of_Z Qcplus Q2Qc].
  rewrite !Qred_correct. unfold Qle, Qplus, inject_Z. cbn [Qnum Qden].
  rewrite Pos2Z.inj_mul. pose proof (Pos2Z.is_pos (Qden y)).
  generalize dependent (Z.pos (Qden y)). generalize (Qnum y).
  intros a d Hd. split; intros H; nia.
Qed.

Lemma double_le_Qc_of_Z z y :
  (y + y ≤ Qc_of_Z z)%Qc ↔ 2 * Qnum y ≤ z * Z.pos (Qden y).
Proof.
  unfold Qcle. cbn [this Qc_of_Z Qcplus Q2Qc].
  rewrite !Qred_correct. unfold Qle, Qplus, inject_Z. cbn [Qnum Qden].
  rewrite Pos2Z.inj_mul. pose proof (Pos2Z.is_pos (Qden y)).
  generalize dependent (Z.pos (Qden y)). generalize (Qnum y).
  intros a d Hd. split; intros H; nia.
Qed.

Lemma double_eq_Qc_of_Z z y :
  (y + y)%Qc = Qc_of_Z z ↔ 2 * Qnum y = z * Z.pos (Qden y).
Proof.
  split.
  - intros H. apply Z.le_antisymm.
    + apply double_le_Qc_of_Z. rewrite H. apply Qcle_refl.
    + apply Qc_of_Z_le_double. rewrite H. apply Qcle_refl.
  - intros H. apply Qcle_antisym.
    + apply double_le_Qc_of_Z. lia.
    + apply Qc_of_Z_le_double. lia.
Qed.

(** [round_half_even] rounds to the nearest integer, ties to even. *)
Lemma round_half_even_spec q : nearest_even q (round_half_even q).
Proof.
  unfold nearest_even.
  rewrite Qc_of_Z_le_double, double_le_Qc_of_Z, !double_eq_Qc_of_Z.
  unfold round_half_even.
  pose proof (Z.div_mod (Qnum q) (Z.pos (Qden q)) ltac:(lia)) as Hdm.
  pose proof (Z.mod_pos_bound (Qnum q) (Z.pos (Qden q)) ltac:(lia)) as Hr.
  set (d := Z.pos (Qden q)) in *. set (f := Qnum q `div` d) in *.
  set (r := Qnum q `mod` d) in *.
  destruct (Z.ltb_spec (2 * r) d); [repeat split; try nia; intros [?|?]; nia|].
  destruct (Z.ltb_spec d (2 * r)); [repeat split; try nia; intros [?|?]; nia|].
  destruct (Z.even f) eqn:He.
  - repeat split; try nia. done.
  - repeat split; try nia. intros _. by rewrite Z.even_add, He.
Qed.

Lemma Qc_abs_magnitude q : Qc_abs q = magnitude q.
Proof.
  unfold Qc_abs, magnitude, Qc_ltb. case_bool_decide as H; case_decide as H'.
  - by apply Qclt_not_le in H.
  - done.
  - done.
  - by apply Qcnot_le_lt in H'.
Qed.

Lemma magnitude_nonneg q : (0 ≤ magnitude q)%Qc.
Proof.
  unfold magnitude. case_decide as H; [done|].
  apply Qcnot_le_lt, Qclt_le_weak, Qcopp_le_compat in H.
  by replace (- 0)%Qc with 0%Qc in H by by_eval.
Qed.
End nearest.

Section shows.
Implicit Types (q y : Qc) (s d : string) (l : list ascii).

Lemma format_two_decimals q : shows_two_decimals q (format_f 2 false (Fin q)).
Proof.
  simpl. rewrite format_fixed_two. cbv zeta.
  set (n := round_half_even (Qc_abs q * Qc_of_Z 100)%Qc).
  assert (0 ≤ n) as Hn.
  { apply round_half_even_nonneg, Qcmult_nonneg_nonneg; [|by_eval].
    rewrite Qc_abs_magnitude. apply magnitude_nonneg. }
  exists (Z.to_N n). split.
  - rewrite Z2N.id by done. rewrite <-Qc_abs_magnitude.
    apply round_half_even_spec.
  - by rewrite Z2N.inj_div, Z2N.inj_mod by lia.
Qed.

Lemma chars_replace_comma s :
  chars (replace_comma s)
  = (λ c, if Ascii.eqb c ","%char then "."%char else c) <$> chars s.
Proof.
  induction s as [|a s IH]; [done|].
  change (chars (replace_comma (String a s)))
    with ((if Ascii.eqb a ","%char then "."%char else a)
          :: chars (replace_comma s)).
  by rewrite IH.
Qed.

Lemma replace_comma_sign q d :
  replace_comma (sign_of q +:+ d) = sign_of q +:+ replace_comma d.
Proof. unfold sign_of. by destruct (Qc_ltb q 0). Qed.

Lemma last_cons_ne {A} (x : A) (l : list A) :
  l ≠ [] → last (x :: l) = last l.
Proof. by destruct l. Qed.

Lemma last_group3 l : last (group3 l) = last l.
Proof.
  induction l as [|a|a b|a b c|a b c e l IH] using group3_ind; try done.
  assert (group3 (e :: l) ≠ []) as Hne.
  { intros E. apply (f_equal length) in E. rewrite length_group3 in E.
    simpl in E. lia. }
  rewrite group3_four.
  rewrite 4!last_cons_ne by done. rewrite IH.
  by rewrite 3!(last_cons_ne _ (_ :: _)) by done.
Qed.

Lemma plain_not_dot (c : ascii) :
  plain c → (if Ascii.eqb c ","%char then "."%char else c) ≠ "."%char.
Proof.
  intros [Hc Hd]. destruct (Ascii.eqb_spec c ","%char); done.
Qed.

Lemma group3_separators l (i : nat) (c : ascii) :
  Forall plain l →
  ((λ c, if Ascii.eqb c ","%char then "."%char else c) <$> group3 l) !! i
  = Some c →
  c = "."%char ↔ (i `mod` 4 = 3)%nat.
Proof.
  revert i.
  induction l as [|a|a b|a b e|a b e f l IH] using group3_ind;
    intros i Hl Hi.
  - done.
  - apply Forall_cons in Hl as [Ha _].
    destruct i as [|i]; [|done]. injection Hi as <-.
    split; [by intros ?%plain_not_dot|done].
  - apply Forall_cons in Hl as [Ha Hl]. apply Forall_cons in Hl as [Hb _].
    destruct i as [|[|i]]; [..|done]; injection Hi as <-;
      (split; [by intros ?%plain_not_dot|done]).
  - apply Forall_cons in Hl as [Ha Hl]. apply Forall_cons in Hl as [Hb Hl].
    apply Forall_cons in Hl as [He _].
    destruct i as [|[|[|i]]]; [..|done]; injection Hi as <-;
      (split; [by intros ?%plain_not_dot|done]).
  - apply Forall_cons in Hl as [Ha Hl]. apply Forall_cons in Hl as [Hb Hl].
    apply Forall_cons in Hl as [He Hl].
    rewrite group3_four in Hi.
    destruct i as [|[|[|[|i]]]].
    + injection Hi as <-. split; [by intros ?%plain_not_dot|done].
    + injection Hi as <-. split; [by intros ?%plain_not_dot|done].
    + injection Hi as <-. split; [by intros ?%plain_not_dot|done].
    + injection Hi as <-. done.
    + replace (S (S (S (S i)))) with (i + 1 * 4)%nat by lia.
      rewrite Nat.Div0.mod_add. by apply IH.
Qed.

(** The grouped digits, with the separator the dashboard shows. *)
Lemma replace_comma_with_commas d :
  Forall plain (chars d) →
  remove_char "."%char (replace_comma (with_commas d)) = d
  ∧ (d ≠ "" → separated_in_threes "."%char (replace_comma (with_commas d))).
Proof.
  intros Hd. split.
  - rewrite remove_dot_replace_comma.
    rewrite remove_comma_with_commas by by apply plain_no_comma.
    by apply remove_char_absent, plain_no_dot.
  - intros Hne. unfold separated_in_threes.
    rewrite chars_replace_comma, chars_with_commas.
    rewrite <-fmap_reverse, reverse_involutive. split.
    + rewrite fmap_reverse, head_reverse, fmap_last, last_group3.
      rewrite last_reverse.
      destruct (chars d) as [|a l] eqn:E.
      * destruct d; done.
      * simpl. apply Forall_cons in Hd as [Ha _].
        intros [= H]. by apply plain_not_dot in H.
    + intros i c. apply group3_separators. by apply Forall_reverse.
Qed.

Lemma pretty_N_go_nonempty (x : N) s : s ≠ "" → pretty_N_go x s ≠ "".
Proof.
  revert s. induction (N.lt_wf_0 x) as [x _ IH]; intros s Hs.
  destruct (decide (0 < x)%N) as [Hx|Hx].
  - rewrite pretty_N_go_step by done. apply IH; [by apply N.div_lt|done].
  - assert (x = 0%N) as -> by lia. by rewrite pretty_N_go_0.
Qed.

Lemma pretty_N_nonempty (n : N) : pretty n ≠ "".
Proof.
  unfold pretty, pretty_N. case_decide; [done|].
  rewrite pretty_N_go_step by lia. by apply pretty_N_go_nonempty.
Qed.

Lemma format_grouped q :
  shows_grouped q (replace_comma (format_f 0 true (Fin q))).
Proof.
  simpl. rewrite format_fixed_grouped, replace_comma_sign.
  set (n := round_half_even (Qc_abs q)).
  assert (0 ≤ n) as Hn.
  { apply round_half_even_nonneg. rewrite Qc_abs_magnitude.
    apply magnitude_nonneg. }
  destruct (replace_comma_with_commas (pretty (Z.to_N n))
              (pretty_N_plain _)) as [Hrm Hsep].
  exists (Z.to_N n), (replace_comma (with_commas (pretty (Z.to_N n)))).
  split; [|split; [done|split; [done|]]].
  - rewrite Z2N.id by done. rewrite <-Qc_abs_magnitude.
    apply round_half_even_spec.
  - apply Hsep, pretty_N_nonempty.
Qed.

Lemma to_float_int (n : Z) :
  Z.abs n ≤ 2 ^ 53 → to_float (VInt n) = Fin (Qc_of_Z n).
Proof. apply f64_round_int. Qed.
End shows.

Section format_cell.
Implicit Types (col : string) (x : value).

Lemma column_kinds_disjoint :
  Forall (λ c, ¬ (c ∈ thousand_cols)) percent_cols
  ∧ Forall (λ c, ¬ (c ∈ thousand_cols) ∧ ¬ (c ∈ percent_cols)) decimal_cols.
Proof. split; by_eval. Qed.

Lemma format_cell_thousand col x :
  col ∈ thousand_cols → format_cell col x = format_thousand x.
Proof. intros H. unfold format_cell. by rewrite bool_decide_eq_true_2. Qed.

Lemma format_cell_percent col x :
  col ∈ percent_cols → format_cell col x = format_percent x.
Proof.
  intros H. destruct column_kinds_disjoint as [Hd _].
  rewrite Forall_forall in Hd. unfold format_cell.
  rewrite bool_decide_eq_false_2 by auto. by rewrite bool_decide_eq_true_2.
Qed.

Lemma format_cell_decimal col x :
  col ∈ decimal_cols → format_cell col x = format_decimal x.
Proof.
  intros H. destruct column_kinds_disjoint as [_ Hd].
  rewrite Forall_forall in Hd. destruct (Hd col H) as [H1 H2].
  unfold format_cell.
  rewrite !bool_decide_eq_false_2 by done. by rewrite bool_decide_eq_true_2.
Qed.

Lemma format_cell_passthrough col x :
  numeric x = false → format_cell col x = x.
Proof.
  unfold numeric. intros H.
  unfold format_cell, format_thousand, format_percent, format_decimal.
  rewrite H. by repeat case_bool_decide.
Qed.

Lemma numeric_spec x :
  numeric x = true
  ↔ (∃ n, x = VInt n) ∨ (∃ q, x = VFloat (Fin q))
    ∨ x = VFloat PosInf ∨ x = VFloat NegInf.
Proof.
  split.
  - destruct x as [n|[q| | | |]|s|]; try done; eauto 6.
  - by intros [[n ->]|[[q ->]|[->| ->]]].
Qed.
End format_cell.

(** C8.  [format_metrics] renders a numeric cell by the kind of its column.
    A decimal column shows the number with two decimals: the sign, the
    whole part, a point and two digits, rounded to the nearest hundredth
    (ties to even).  A percent column shows in the same way the float64
    product of the number and 100, followed by a percent sign.  A thousands
    column shows the nearest whole number with a point between its groups
    of three digits.  An int of at most 53 bits is rendered as the float of
    the same value.  So 0.0732 in a percent column is "7.32%", 3.456 in a
    decimal column is "3.46", and 12345 in a thousands column is "12.345".
    A cell that is not a number (a string, None, NaN, NA) comes back
    unchanged in every column. *)
Theorem format_cell_by_kind :
  (∀ col q, col ∈ decimal_cols →
     ∃ s, format_cell col (VFloat (Fin q)) = VStr s ∧ shows_two_decimals q s)
  ∧ (∀ col q p, col ∈ percent_cols →
       f64_round (q * Qc_of_Z 100) = Fin p →
       ∃ s, format_cell col (VFloat (Fin q)) = VStr (s +:+ "%")
            ∧ shows_two_decimals p s)
  ∧ (∀ col q, col ∈ thousand_cols →
       ∃ s, format_cell col (VFloat (Fin q)) = VStr s ∧ shows_grouped q s)
  ∧ (∀ col n, col ∈ rendered_cols → Z.abs n ≤ 2 ^ 53 →
       format_cell col (VInt n) = format_cell col (VFloat (Fin (Qc_of_Z n))))
  ∧ format_cell "Payers %"
      <$> [VFloat (Fin (double (732 # 10000)));
           VFloat (Fin (double (65 # 100000)));
           VFloat (Fin (double (125 # 100000)));
           VFloat (Fin (double (- 256 # 1000)));
           VFloat (Fin (double (123456 # 1000000)));
           VInt 1; VFloat PosInf]
    = VStr <$> ["7.32%"; "0.07%"; "0.12%"; "-25.60%"; "12.35%";
                "100.00%"; "inf%"]
  ∧ format_cell "CPI"
      <$> [VFloat (Fin (double (3456 # 1000)));
           VFloat (Fin (double (125 # 1000)));
           VFloat (Fin (double (375 # 1000)));
           VFloat (Fin (double (2675 # 1000)));
           VFloat (Fin (double (- 1 # 1000)));
           VFloat (Fin (double (5 # 1000)));
           VInt 25; VFloat NegInf]
    = VStr <$> ["3.46"; "0.12"; "0.38"; "2.67"; "-0.00"; "0.01";
                "25.00"; "-inf"]
  ∧ format_cell "Spend ($)"
      <$> [VInt 12345;
           VFloat (Fin (double (12345675 # 10)));
           VFloat (Fin (double (5 # 10)));
           VFloat (Fin (double (15 # 10)));
           VFloat (Fin (double (9995 # 10)));
           VFloat (Fin (double (- 12345 # 10)));
           VInt (2 ^ 53 + 1); VInt 100; VInt 1000; VInt 999999;
           VInt 1000000; VInt 0; VFloat PosInf]
    = VStr <$> ["12.345"; "1.234.568"; "0"; "2"; "1.000"; "-1.234";
                "9.007.199.254.740.992"; "100"; "1.000"; "999.999";
                "1.000.000"; "0"; "inf"]
  ∧ (∀ col s, format_cell col (VStr s) = VStr s)
  ∧ (∀ col, format_cell col VNone = VNone
            ∧ format_cell col (VFloat NaN) = VFloat NaN
            ∧ format_cell col (VFloat NA) = VFloat NA).
Proof.
  repeat apply conj.
  - intros col q Hc. rewrite format_cell_decimal by done.
    exists (format_f 2 false (Fin q)). split; [done|].
    apply format_two_decimals.
  - intros col q p Hc Hp. rewrite format_cell_percent by done.
    exists (format_f 2 false (Fin p)). split; [|apply format_two_decimals].
    change (format_percent (VFloat (Fin q)))
      with (VStr (format_f 2 false (f64_round (q * Qc_of_Z 100)) +:+ "%")).
    by rewrite Hp.
  - intros col q Hc. rewrite format_cell_thousand by done.
    exists (replace_comma (format_f 0 true (Fin q))). split; [done|].
    apply format_grouped.
  - intros col n Hc Hn. unfold rendered_cols in Hc.
    rewrite !elem_of_app in Hc.
    unfold format_cell, format_thousand, format_percent, format_decimal.
    rewrite (to_float_int n Hn). simpl.
    repeat case_bool_decide; try done. exfalso. tauto.
  - by_eval.
  - by_eval.
  - by_eval.
  - intros col s. by apply format_cell_passthrough.
  - intros col. repeat split; by apply format_cell_passthrough.
Qed.

Lemma format_cell_by_kind_witness :
  (∃ s, format_cell "ARPP" (VFloat (Fin (Q2Qc (25 # 2)))) = VStr s
        ∧ shows_two_decimals (Q2Qc (25 # 2)) s)
  ∧ (∃ s, format_cell "Attribution %" (VFloat (Fin (Q2Qc (1 # 4))))
          = VStr (s +:+ "%")
          ∧ shows_two_decimals (Qc_of_Z 25) s)
  ∧ (∃ s, format_cell "Revenue D7" (VFloat (Fin (Q2Qc (24691 # 2)))) = VStr s
          ∧ shows_grouped (Q2Qc (24691 # 2)) s)
  ∧ format_cell "Installs" (VInt 40)
    = format_cell "Installs" (VFloat (Fin (Qc_of_Z 40))).
Proof.
  destruct format_cell_by_kind as (Hd & Hp & Ht & Hi & _).
  split; [|split; [|split]].
  - apply Hd. by_eval.
  - apply Hp; by_eval.
  - apply Ht. by_eval.
  - apply Hi; by_eval.
Defined.

(** ** The groups, described from the rows *)

Section groups.
Context (group_cols : list column).
Implicit Types (df rows : list row) (k : list cell) (r g : row) (c : base → Qc).

Lemma row_key_has_key (b : base) k :
  row_key group_cols b = Some k ↔ has_key group_cols k b.
Proof. unfold row_key, has_key. apply mapM_Some. Qed.

Lemma rows_of_key_group_rows df k :
  rows_of_key group_cols df k = group_rows group_cols k df.
Proof.
  unfold rows_of_key, group_rows. apply list_filter_iff.
  intros r. by rewrite row_key_has_key.
Qed.

Lemma total_sumQc c rows : total c rows = sumQc (col c rows).
Proof.
  induction rows as [|r rows IH]; [done|].
  by rewrite col_cons, sumQc_cons, <-IH.
Qed.

Lemma mean_times_length (l : list Qc) :
  l ≠ [] → (mean l * Qc_of_Z (Z.of_nat (length l)))%Qc = sumQc l.
Proof.
  intros Hl. unfold mean.
  assert (Qc_of_Z (Z.of_nat (length l)) ≠ 0%Qc) as Hn.
  { apply Qc_of_Z_nonzero. destruct l; [done|]. simpl. lia. }
  by field.
Qed.

(** Each output row is the group of its key. *)
Lemma agg_row_group_of df k r :
  NoDup group_cols → r ∈ df → has_key group_cols k r →
  group_of group_cols df k (agg_row group_cols df k).
Proof.
  intros Hnd Hr Hk. apply row_key_has_key in Hk.
  pose proof (group_rows_nonempty group_cols df k r Hr Hk) as Hne.
  split; rewrite ?rows_of_key_group_rows, ?total_sumQc; try done.
  - apply row_key_has_key, row_key_agg_row; [done|].
    by eapply row_key_length.
  - simpl. rewrite <-(length_fmap (λ r : row, attribution r)).
    apply mean_times_length. by apply col_nonempty.
  - apply clean_calculated_fields_ok.
Qed.

Lemma has_key_inj (b : base) k k' :
  has_key group_cols k b → has_key group_cols k' b → k = k'.
Proof. rewrite <-!row_key_has_key. congruence. Qed.

(** The rows of the keys, taken together, are the rows of the frame. *)
Lemma rows_of_keys_Permutation df (keys : list (list cell)) :
  NoDup keys →
  (∀ r, r ∈ df → ∃ k, k ∈ keys ∧ has_key group_cols k r) →
  concat (rows_of_key group_cols df <$> keys) ≡ₚ df.
Proof.
  intros Hnd. revert df.
  induction Hnd as [|k keys Hk Hnd IH]; intros df Hcover.
  - destruct df as [|r df]; [done|].
    destruct (Hcover r) as (k & ?%elem_of_nil & _); [left|done].
  - rewrite fmap_cons. cbn [concat].
    set (df' := filter (λ r : row, ¬ has_key group_cols k r) df).
    rewrite (fmap_ext_in (rows_of_key group_cols df)
               (rows_of_key group_cols df') keys).
    + rewrite IH; [apply filter_app_complement|].
      intros r [Hnk Hr]%list_elem_of_filter.
      destruct (Hcover r Hr) as (k0 & [->|Hk0]%elem_of_cons & Hr0); [done|].
      eauto.
    + intros k' Hk'. unfold rows_of_key, df'. rewrite list_filter_filter.
      apply list_filter_iff. intros r. split; [|tauto].
      intros Hr. split; [done|]. intros Hr'.
      by rewrite (has_key_inj r k k' Hr' Hr) in Hk.
Qed.

(** On a frame of counts, every part of a column is made of counts that
    add up to at most [2 ^ 53]. *)
Lemma total_filter_le c (P : row → Prop) `{∀ r, Decision (P r)} df :
  Forall (λ r : row, (0 ≤ c r)%Qc) df →
  (total c (filter P df) ≤ total c df)%Qc.
Proof.
  induction 1 as [|r df Hr Hdf IH]; [apply Qcle_refl|].
  rewrite filter_cons. case_decide; simpl.
  - apply Qcplus_le_compat; [apply Qcle_refl|done].
  - eapply Qcle_trans; [exact IH|].
    rewrite <-(Qcplus_0_l (total c df)) at 1.
    apply Qcplus_le_compat; [done|apply Qcle_refl].
Qed.

Lemma exact_frame_group df k c :
  exact_frame df → c ∈ summed_measures →
  f64_group_sum (col c (rows_of_key group_cols df k))
  = Fin (total c (rows_of_key group_cols df k)).
Proof.
  intros Hdf Hc. destruct (Hdf c Hc) as [Hall Hle].
  rewrite total_sumQc. apply f64_group_sum_exact.
  - apply col_Forall. unfold rows_of_key.
    rewrite Forall_forall in Hall. apply Forall_forall.
    intros r [_ Hr]%list_elem_of_filter. auto.
  - rewrite <-total_sumQc. eapply Qcle_trans; [|exact Hle].
    apply total_filter_le. eapply Forall_impl; [exact Hall|].
    intros r. apply counting_nonneg.
Qed.

Lemma sumQc_of_Z (zs : list Z) : sumQc (Qc_of_Z <$> zs) = Qc_of_Z (sumZ zs).
Proof.
  induction zs as [|z zs IH]; [symmetry; apply Z2Qc_inj_0|].
  rewrite fmap_cons, sumQc_cons, IH. cbn [sumZ foldr]. fold (sumZ zs).
  by rewrite Z2Qc_inj_add.
Qed.

Lemma sumZ_abs (zs : list Z) : Z.abs (sumZ zs) ≤ sumZ (Z.abs <$> zs).
Proof.
  induction zs as [|z zs IH]; [done|].
  rewrite fmap_cons. cbn [sumZ foldr]. fold (sumZ zs).
  fold (sumZ (Z.abs <$> zs)). lia.
Qed.

(** Where a column holds integers and the sums fit, the int64 sum that the
    code computes for a group is the total of the group. *)
Lemma int64_group_sum df k c (zs : list Z) :
  (total (λ b, magnitude (c b)) df < Qc_of_Z (2 ^ 63))%Qc →
  col c (rows_of_key group_cols df k) = Qc_of_Z <$> zs →
  Qc_of_Z (int64_sum zs) = total c (rows_of_key group_cols df k).
Proof.
  intros Hfit Hzs. rewrite total_sumQc, Hzs, sumQc_of_Z. f_equal.
  apply int64_sum_exact.
  assert (sumZ (Z.abs <$> zs) < 2 ^ 63) as Habs.
  { apply Z2Qc_inj_lt. eapply Qcle_lt_trans; [|exact Hfit].
    eapply Qcle_trans;
      [|apply (total_filter_le (λ b, magnitude (c b))
                 (λ r : row, has_key group_cols k r))].
    - fold (rows_of_key group_cols df k).
      rewrite total_sumQc, <-sumQc_of_Z.
      replace (col (λ b, magnitude (c b)) (rows_of_key group_cols df k))
        with (magnitude <$> col c (rows_of_key group_cols df k))
        by (unfold col; by rewrite <-list_fmap_compose).
      rewrite Hzs, <-!list_fmap_compose.
      rewrite (fmap_ext_in (magnitude ∘ Qc_of_Z) (Qc_of_Z ∘ Z.abs) zs);
        [apply Qcle_refl|].
      intros z _. simpl. by rewrite <-Qc_abs_magnitude, Qc_abs_of_Z.
    - apply Forall_forall. intros r _. apply magnitude_nonneg. }
  pose proof (sumZ_abs zs). lia.
Qed.
End groups.

(** C1.  On a frame that has the grouping columns, and for a non-empty list
    of distinct grouping columns, [aggregate_data] returns one row per key
    combination that occurs in the input: the keys are distinct, they are
    exactly the combinations that some row holds, and the rows of the
    result are their groups, in that order.  The group of a key holds the
    key, the totals of spend, installs, impressions, payers and revenue
    over the rows with that key, an attribution that times the number of
    these rows is their total attribution, and the seven metrics of the
    table computed from the totals.  The totals are those of the code as
    long as the sums stay within the 64-bit integers in which pandas adds
    a column of integers: for such a column the int64 sum of a group is its
    total.  An empty frame gives an empty result.  Aggregating the scenario
    record by app gives the single group with CPI 10, IPM 2, CPM 20, ROAS
    1/2, Payers % 1/5, ARPI 5 and ARPP 25; the three sample records give
    the two groups [sample_by_app] by app and [sample_by_day] by day. *)
Theorem aggregate_data_groups :
  (∀ (df : list row) (group_cols : list column),
     group_cols ≠ [] → NoDup group_cols → has_columns group_cols df →
     sums_fit_int64 df →
     ∃ (agg : list row) (keys : list (list cell)),
       aggregate_data df group_cols = Some agg
       ∧ NoDup keys
       ∧ (∀ k, k ∈ keys ↔ ∃ r : row, r ∈ df ∧ has_key group_cols k r)
       ∧ Forall2 (λ k (g : row),
                    group_of group_cols df k g
                    ∧ ∀ (c : base → Qc) (zs : list Z),
                        c ∈ summed_measures →
                        col c (rows_of_key group_cols df k) = Qc_of_Z <$> zs →
                        Qc_of_Z (int64_sum zs) = c g) keys agg
       ∧ (df = [] → agg = []))
  ∧ aggregate_data (load_data [scenario_record]) [AppName]
    = Some [scenario_group]
  ∧ aggregate_data sample_df [AppName] = Some sample_by_app
  ∧ aggregate_data sample_df [Date] = Some sample_by_day.
Proof.
  split; [|repeat split; by_eval].
  intros df group_cols Hne Hnd Hdf Hfit.
  destruct (aggregate_data_total group_cols df Hne Hnd Hdf)
    as (keys & Hkeys & Hagg).
  destruct (group_keys_Some group_cols df keys Hkeys) as [Hndk Hmem].
  assert (∀ k, k ∈ keys ↔ ∃ r : row, r ∈ df ∧ has_key group_cols k r)
    as Hmem'.
  { intros k. rewrite Hmem. by setoid_rewrite row_key_has_key. }
  exists (agg_row group_cols df <$> keys), keys.
  split; [done|]. split; [done|]. split; [done|]. split.
  - apply Forall2_fmap_r, Forall_Forall2_diag, Forall_forall.
    intros k (r & Hr & Hk)%Hmem'.
    pose proof (agg_row_group_of group_cols df k r Hnd Hr Hk) as Hg.
    split; [done|]. intros c zs Hc Hzs.
    rewrite (int64_group_sum group_cols df k c zs (Hfit c Hc) Hzs).
    destruct Hg as [_ _ H1 H2 H3 H4 H5 _ _].
    unfold summed_measures in Hc.
    repeat (apply elem_of_cons in Hc as [->|Hc]; [done|]).
    by apply elem_of_nil in Hc.
  - intros ->. destruct keys as [|k keys]; [done|].
    destruct (proj1 (Hmem k)) as (r & ?%elem_of_nil & _); [left|done].
Qed.

(** The sums fit, by inspection of the numbers. *)
Lemma sums_fit_canon (df : list row) :
  Forall (λ c : base → Qc,
            (total (λ b, magnitude (c b)) df < Qc_of_Z (2 ^ 63))%Qc)
    summed_measures →
  sums_fit_int64 df.
Proof. rewrite Forall_forall. intros H c Hc. by apply H. Qed.

Lemma sample_df_fits : sums_fit_int64 sample_df.
Proof. apply sums_fit_canon. by_eval. Defined.

Lemma aggregate_data_groups_witness :
  ∃ (agg : list row) (keys : list (list cell)),
    aggregate_data sample_df [AppName] = Some agg
    ∧ NoDup keys
    ∧ (∀ k, k ∈ keys ↔ ∃ r : row, r ∈ sample_df ∧ has_key [AppName] k r)
    ∧ Forall2 (λ k (g : row),
                 group_of [AppName] sample_df k g
                 ∧ ∀ (c : base → Qc) (zs : list Z),
                     c ∈ summed_measures →
                     col c (rows_of_key [AppName] sample_df k)
                     = Qc_of_Z <$> zs →
                     Qc_of_Z (int64_sum zs) = c g) keys agg
    ∧ (sample_df = [] → agg = []).
Proof.
  apply (proj1 aggregate_data_groups sample_df [AppName]).
  - discriminate.
  - by_eval.
  - exact sample_df_has_app.
  - exact sample_df_fits.
Defined.

(** Two records of one app with [2 ^ 62] installs each: the group carries
    the int64 sum [- 2 ^ 63], which is not the sum of its rows. *)
Lemma group_sum_int64_counterexample :
  int64_sum [2 ^ 62; 2 ^ 62] = - 2 ^ 63
  ∧ int64_sum [2 ^ 62; 2 ^ 62] ≠ sumZ [2 ^ 62; 2 ^ 62].
Proof. split; by_eval. Qed.

Section totals.
Implicit Types (df : list row) (c : base → Qc) (t : sum_tree).

Lemma exact_frame_tree df c t :
  Forall (λ r : row, counting (c r)) df → (total c df ≤ exact_bound)%Qc →
  leaves t ≡ₚ col c df → f64_tree_sum t = Fin (total c df).
Proof.
  intros Hall Hle Hperm. rewrite total_sumQc in Hle |- *.
  rewrite <-(sumQc_Permutation _ _ Hperm) in Hle |- *.
  apply f64_tree_sum_exact; [|done].
  rewrite Hperm. by apply col_Forall.
Qed.
End totals.

(** C10.  On a frame that has the grouping columns, and for a non-empty
    list of distinct grouping columns, the groups partition the rows: every
    row holds the key of exactly one output row, and the rows of the keys,
    taken together, are the rows of the frame, none lost and none repeated.
    On a frame of counts (whole numbers, each column adding up to at most
    [2 ^ 53]) the sums are preserved as the code computes them: the
    compensated float64 sum of a group is its total, the totals of the
    output rows add up to the total of the input rows, and a float64 sum of
    the output column and one of the input column, in any order and
    bracketing, both give that total. *)
Theorem aggregate_data_partitions_rows
    (df : list row) (group_cols : list column) :
  group_cols ≠ [] → NoDup group_cols → has_columns group_cols df →
  ∃ (agg : list row) (keys : list (list cell)),
    aggregate_data df group_cols = Some agg
    ∧ NoDup keys
    ∧ Forall2 (λ k (g : row), has_key group_cols k g) keys agg
    ∧ (∀ r : row, r ∈ df →
         ∃ k, k ∈ keys ∧ has_key group_cols k r
              ∧ ∀ k', has_key group_cols k' r → k' = k)
    ∧ concat (rows_of_key group_cols df <$> keys) ≡ₚ df
    ∧ (exact_frame df →
       ∀ c : base → Qc, c ∈ summed_measures →
         Forall2 (λ k (g : row),
                    f64_group_sum (col c (rows_of_key group_cols df k))
                    = Fin (c g)) keys agg
         ∧ total c agg = total c df
         ∧ ∀ t_out t_in : sum_tree,
             leaves t_out ≡ₚ col c agg → leaves t_in ≡ₚ col c df →
             f64_tree_sum t_out = Fin (total c df)
             ∧ f64_tree_sum t_in = Fin (total c df)).
Proof.
  intros Hne Hnd Hdf.
  destruct (aggregate_data_total group_cols df Hne Hnd Hdf)
    as (keys & Hkeys & Hagg).
  destruct (group_keys_Some group_cols df keys Hkeys) as [Hndk Hmem].
  assert (∀ r : row, r ∈ df →
            ∃ k, k ∈ keys ∧ has_key group_cols k r) as Hcover.
  { intros r Hr. unfold has_columns in Hdf. rewrite Forall_forall in Hdf.
    destruct (proj2 (row_key_is_Some group_cols r) (Hdf r Hr)) as [k Hk].
    exists k. split; [apply Hmem; eauto|by apply row_key_has_key]. }
  assert (∀ k, k ∈ keys → group_of group_cols df k (agg_row group_cols df k))
    as Hgroup.
  { intros k (r & Hr & Hk)%Hmem.
    apply (agg_row_group_of group_cols df k r); [done..|].
    by apply row_key_has_key. }
  exists (agg_row group_cols df <$> keys), keys.
  split; [done|]. split; [done|]. split; [|split; [|split]].
  - apply Forall2_fmap_r, Forall_Forall2_diag, Forall_forall.
    intros k Hk. by destruct (Hgroup k Hk).
  - intros r Hr. destruct (Hcover r Hr) as (k & Hk & Hrk).
    exists k. split; [done|]. split; [done|].
    intros k' Hrk'. by apply (has_key_inj group_cols r).
  - by apply rows_of_keys_Permutation.
  - intros Hexact c Hc.
    assert (∀ k, k ∈ keys →
              c (agg_row group_cols df k)
              = total c (rows_of_key group_cols df k)) as Hval.
    { intros k Hk. destruct (Hgroup k Hk) as [_ _ H1 H2 H3 H4 H5 _ _].
      unfold summed_measures in Hc.
      repeat (apply elem_of_cons in Hc as [->|Hc]; [done|]).
      by apply elem_of_nil in Hc. }
    assert (total c (agg_row group_cols df <$> keys) = total c df) as Htot.
    { rewrite !total_sumQc.
      rewrite <-(sum_groups group_cols c df keys Hndk).
      - unfold col at 1. rewrite <-list_fmap_compose. f_equal.
        apply fmap_ext_in. intros k Hk. unfold compose.
        by rewrite Hval, total_sumQc, rows_of_key_group_rows.
      - intros r Hr. destruct (Hcover r Hr) as (k & Hk & Hrk).
        exists k. split; [done|]. by apply row_key_has_key. }
    destruct (Hexact c Hc) as [Hall Hle].
    split; [|split; [done|]].
    + apply Forall2_fmap_r, Forall_Forall2_diag, Forall_forall.
      intros k Hk. unfold compose. rewrite Hval by done.
      by apply exact_frame_group.
    + intros t_out t_in Hout Hin. split.
      * rewrite <-Htot. apply exact_frame_tree; [|by rewrite Htot|done].
        apply Forall_fmap, Forall_forall. intros k Hk. unfold compose.
        rewrite Hval, total_sumQc by done. apply counting_sum, col_Forall.
        rewrite Forall_forall in Hall. apply Forall_forall.
        intros r [_ Hr]%list_elem_of_filter. auto.
      * by apply exact_frame_tree.
Qed.

Lemma counting_canon (q : Qc) :
  Qden q = 1%positive → 0 ≤ Qnum q → counting q.
Proof.
  intros Hden Hnum. exists (Qnum q). split; [done|].
  apply Qc_is_canon. unfold Qeq. simpl. rewrite Hden. lia.
Qed.

(** A frame of counts, by inspection of its numbers. *)
Lemma exact_frame_canon (df : list row) :
  Forall (λ c : base → Qc,
            Forall (λ r : row, Qden (c r) = 1%positive ∧ 0 ≤ Qnum (c r)) df
            ∧ (total c df ≤ exact_bound)%Qc) summed_measures →
  exact_frame df.
Proof.
  rewrite Forall_forall. intros H c Hc. destruct (H c Hc) as [Hall Hle].
  split; [|done]. eapply Forall_impl; [exact Hall|].
  intros r [? ?]. by apply counting_canon.
Qed.

Lemma exact_frame_filter (P : row → Prop) `{∀ r, Decision (P r)}
    (df : list row) :
  exact_frame df → exact_frame (filter P df).
Proof.
  intros Hdf c Hc. destruct (Hdf c Hc) as [Hall Hle]. split.
  - rewrite Forall_forall in Hall. apply Forall_forall.
    intros r [_ Hr]%list_elem_of_filter. auto.
  - eapply Qcle_trans; [|exact Hle]. apply total_filter_le.
    eapply Forall_impl; [exact Hall|]. intros r. apply counting_nonneg.
Qed.

Lemma exact_frame_nonneg (df : list row) (c : base → Qc) :
  exact_frame df → c ∈ summed_measures →
  Forall (λ r : row, (0 ≤ c r)%Qc) df.
Proof.
  intros Hdf Hc. destruct (Hdf c Hc) as [Hall _].
  eapply Forall_impl; [exact Hall|]. intros r. apply counting_nonneg.
Qed.

Lemma sample_df_exact : exact_frame sample_df.
Proof. apply exact_frame_canon. by_eval. Defined.

Lemma aggregate_data_partitions_rows_witness :
  ∃ (agg : list row) (keys : list (list cell)),
    aggregate_data sample_df [AppName] = Some agg
    ∧ NoDup keys
    ∧ concat (rows_of_key [AppName] sample_df <$> keys) ≡ₚ sample_df
    ∧ ∀ c : base → Qc, c ∈ summed_measures →
        Forall2 (λ k (g : row),
                   f64_group_sum (col c (rows_of_key [AppName] sample_df k))
                   = Fin (c g)) keys agg
        ∧ total c agg = total c sample_df.
Proof.
  destruct (aggregate_data_partitions_rows sample_df [AppName])
    as (agg & keys & Hagg & Hnd & _ & _ & Hperm & Hexact).
  - discriminate.
  - by_eval.
  - exact sample_df_has_app.
  - exists agg, keys. split; [done|]. split; [done|]. split; [done|].
    intros c Hc. destruct (Hexact sample_df_exact c Hc) as (H1 & H2 & _).
    by split.
Defined.

(** Three records of one app that spend 0.1, 0.2 and 0.3: the group
    carries the compensated sum 0.6, the column adds up to
    0.6000000000000001 from left to right, and neither is the sum of the
    three float64 values. *)
Lemma aggregate_data_totals_counterexample :
  let df :=
    load_data
      [parsed_row "A" "c1" "k1" 20093 (double (1 # 10)) 1 1 1 1 0;
       parsed_row "A" "c1" "k2" 20093 (double (2 # 10)) 1 1 1 1 0;
       parsed_row "A" "c2" "k1" 20094 (double (3 # 10)) 1 1 1 1 0] in
  let group := rows_of_key [AppName] df [Str "A"] in
  group = df
  ∧ f64_group_sum (col spend group) = Fin (double (6 # 10))
  ∧ f64_tree_sum (left_sum (col spend df))
    = Fin (double (6000000000000001 # 10000000000000000))
  ∧ f64_group_sum (col spend group) ≠ f64_tree_sum (left_sum (col spend df))
  ∧ f64_group_sum (col spend group) ≠ Fin (total spend df).
Proof. cbv zeta. repeat split; by_eval. Qed.

(** * Further properties of the code *)

(** ** Aggregator: order of the output *)

Lemma StronglySorted_strict (keys : list (list cell)) :
  StronglySorted key_le keys → NoDup keys → StronglySorted key_lt keys.
Proof.
  induction 1 as [|k keys _ IH Hall]; intros Hnd; [constructor|].
  apply NoDup_cons in Hnd as [Hk Hnd]. constructor; [by apply IH|].
  rewrite Forall_forall in Hall. apply Forall_forall. intros k' Hk'.
  split; [by apply Hall|]. by intros ->.
Qed.

Lemma group_keys_arity (df : list row) group_cols keys :
  group_keys df group_cols = Some keys → key_arity group_cols keys.
Proof.
  intros Hkeys k Hk.
  destruct (group_keys_Some group_cols df keys Hkeys) as [_ Hmem].
  apply Hmem in Hk as (r & _ & Hr). by eapply row_key_length.
Qed.

(** The key columns of the output rows hold the group keys, in order. *)
Lemma aggregate_data_keys (df : list row) group_cols keys :
  NoDup group_cols → group_keys df group_cols = Some keys →
  Forall2 (λ k (g : row), row_key group_cols g = Some k)
    keys (agg_row group_cols df <$> keys).
Proof.
  intros Hnd Hkeys. apply Forall2_fmap_r, Forall_Forall2_diag, Forall_forall.
  intros k Hk. apply row_key_agg_row; [done|].
  by eapply group_keys_arity.
Qed.

(** X1.  The rows of the aggregate come in strictly increasing order of
    their keys (names by code point, days by date, several columns
    lexicographically). *)
Theorem aggregate_data_sorted (df : list row) (group_cols : list column) :
  group_cols ≠ [] → NoDup group_cols → has_columns group_cols df →
  ∃ (agg : list row) (keys : list (list cell)),
    aggregate_data df group_cols = Some agg
    ∧ Forall2 (λ k (g : row), row_key group_cols g = Some k) keys agg
    ∧ StronglySorted key_lt keys.
Proof.
  intros Hne Hnd Hdf.
  destruct (aggregate_data_total group_cols df Hne Hnd Hdf)
    as (keys & Hkeys & Hagg).
  exists (agg_row group_cols df <$> keys), keys.
  split; [done|]. split; [by apply aggregate_data_keys|].
  apply StronglySorted_strict.
  - apply Sorted_StronglySorted; [apply _|]. by eapply group_keys_sorted.
  - by destruct (group_keys_Some group_cols df keys Hkeys).
Qed.

Lemma aggregate_data_sorted_witness :
  ∃ (agg : list row) (keys : list (list cell)),
    aggregate_data sample_df [AppName] = Some agg
    ∧ Forall2 (λ k (g : row), row_key [AppName] g = Some k) keys agg
    ∧ StronglySorted key_lt keys.
Proof.
  apply (aggregate_data_sorted sample_df [AppName]).
  - discriminate.
  - by_eval.
  - exact sample_df_has_app.
Defined.

(** ** Aggregator: the order of the input rows *)

Section row_order.
Variable group_cols : list column.
Implicit Types (df : list row) (k : list cell).

Lemma group_keys_None df :
  group_keys df group_cols = None
  ↔ ∃ r : row, r ∈ df ∧ row_key group_cols r = None.
Proof.
  unfold group_keys. split.
  - destruct (mapM _ df) as [ks|] eqn:Hks; [done|]. intros _.
    apply mapM_None, Exists_exists in Hks. done.
  - intros Hex. destruct (mapM _ df) as [ks|] eqn:Hks; [|done].
    exfalso. assert (is_Some (mapM (λ r : row, row_key group_cols r) df))
      as Hs by eauto.
    rewrite mapM_is_Some, Forall_forall in Hs.
    destruct Hex as (r & Hr & Hnone). destruct (Hs r Hr) as [k Hk].
    simpl in Hk. congruence.
Qed.

Lemma group_keys_Permutation df df' :
  df ≡ₚ df' → group_keys df group_cols = group_keys df' group_cols.
Proof.
  intros Hp.
  destruct (group_keys df group_cols) as [keys|] eqn:H1,
    (group_keys df' group_cols) as [keys'|] eqn:H2.
  - f_equal. apply (Sorted_unique key_le).
    + by eapply group_keys_sorted.
    + by eapply group_keys_sorted.
    + destruct (group_keys_Some group_cols df keys H1) as [Hnd Hmem].
      destruct (group_keys_Some group_cols df' keys' H2) as [Hnd' Hmem'].
      apply NoDup_Permutation; [done..|]. intros k.
      rewrite Hmem, Hmem'. by setoid_rewrite Hp.
  - apply group_keys_None in H2 as (r & Hr & Hnone).
    assert (group_keys df group_cols = None) as Hn.
    { apply group_keys_None. exists r. by rewrite Hp. }
    congruence.
  - apply group_keys_None in H1 as (r & Hr & Hnone).
    assert (group_keys df' group_cols = None) as Hn.
    { apply group_keys_None. exists r. by rewrite <-Hp. }
    congruence.
  - done.
Qed.

Lemma agg_row_Permutation df df' k :
  df ≡ₚ df' → agg_row group_cols df k = agg_row group_cols df' k.
Proof.
  intros Hp.
  assert (group_rows group_cols k df ≡ₚ group_rows group_cols k df') as Hg.
  { unfold group_rows. by rewrite Hp. }
  assert (∀ c : base → Qc,
    col c (group_rows group_cols k df) ≡ₚ col c (group_rows group_cols k df'))
    as Hc.
  { intros c. unfold col. by rewrite Hg. }
  unfold agg_row. do 3 f_equal. unfold agg_group, mean.
  rewrite (sumQc_Permutation _ _ (Hc spend)),
    (sumQc_Permutation _ _ (Hc installs)),
    (sumQc_Permutation _ _ (Hc impressions)),
    (sumQc_Permutation _ _ (Hc payers_d7)),
    (sumQc_Permutation _ _ (Hc revenue_d7)),
    (sumQc_Permutation _ _ (Hc attribution)).
  by rewrite (Permutation_length (Hc attribution)).
Qed.
End row_order.

(** X2.  The groups do not depend on the order of the input rows: a
    reordered frame has the same keys, in the same order, and under each
    key the same rows.  On a frame of counts, where the sums of the code
    are exact, its aggregate has the same keys, the same five sums and the
    same seven metrics, row by row. *)
Theorem aggregate_data_row_order
    (df df' : list row) (group_cols : list column) :
  df ≡ₚ df' →
  group_keys df group_cols = group_keys df' group_cols
  ∧ (∀ k, rows_of_key group_cols df k ≡ₚ rows_of_key group_cols df' k)
  ∧ (exact_frame df →
     ∀ agg, aggregate_data df group_cols = Some agg →
       ∃ agg', aggregate_data df' group_cols = Some agg'
               ∧ Forall2 (λ g g' : row,
                            cells g = cells g' ∧ same_sums g g'
                            ∧ same_metrics g g') agg agg').
Proof.
  intros Hp. split; [by apply group_keys_Permutation|]. split.
  - intros k. unfold rows_of_key. by rewrite Hp.
  - intros _ agg Hagg. exists agg. split.
    + rewrite <-Hagg. symmetry. rewrite !aggregate_data_unfold.
      rewrite (group_keys_Permutation group_cols df df' Hp).
      repeat case_decide; try done.
      destruct (group_keys df' group_cols) as [keys|]; simpl; [|done].
      f_equal. apply fmap_ext_in. intros k _. by apply agg_row_Permutation.
    + apply Forall_Forall2_diag, Forall_forall. intros g _.
      by repeat split.
Qed.

Lemma aggregate_data_row_order_witness :
  group_keys sample_df [AppName] = group_keys (reverse sample_df) [AppName]
  ∧ (∀ k, rows_of_key [AppName] sample_df k
          ≡ₚ rows_of_key [AppName] (reverse sample_df) k)
  ∧ ∃ agg', aggregate_data (reverse sample_df) [AppName] = Some agg'
            ∧ Forall2 (λ g g' : row,
                         cells g = cells g' ∧ same_sums g g'
                         ∧ same_metrics g g') sample_by_app agg'.
Proof.
  destruct (aggregate_data_row_order sample_df (reverse sample_df) [AppName])
    as (Hk & Hr & Ha).
  - by rewrite reverse_Permutation.
  - split; [done|]. split; [done|].
    apply (Ha sample_df_exact). by_eval.
Defined.

(** ** Metric calculator and aggregator: signs and bounds *)

Section bounds.
Local Open Scope Qc_scope.
Implicit Types (a b lo hi : Qc) (l : list Qc).

Lemma Qcdiv_nonneg a b : 0 ≤ a → 0 < b → 0 ≤ a / b.
Proof.
  intros Ha Hb. unfold Qcdiv. apply Qcmult_nonneg_nonneg; [done|].
  by apply Qclt_le_weak, Qcinv_pos.
Qed.

Lemma safe_div_nonneg a b : 0 ≤ a → 0 ≤ b → 0 ≤ safe_div a b.
Proof.
  intros Ha Hb. unfold safe_div. case_decide as Hz; [done|].
  apply Qcdiv_nonneg; [done|].
  destruct (Qcle_lt_or_eq _ _ Hb) as [?| <-]; done.
Qed.

Lemma sumQc_nonneg l : Forall (λ x, 0 ≤ x) l → 0 ≤ sumQc l.
Proof.
  induction 1 as [|x l Hx _ IH]; [done|].
  rewrite sumQc_cons. by apply Qcplus_nonneg_nonneg.
Qed.

Lemma Qc_of_nat_pos (n : nat) : (0 < n)%nat → 0 < Qc_of_Z (Z.of_nat n).
Proof.
  intros Hn. rewrite <-Z2Qc_inj_0.
  apply (proj1 (Z2Qc_inj_lt 0 (Z.of_nat n))). lia.
Qed.

(** The mean of a non-empty list lies between any bounds of its values. *)
Lemma mean_nonneg l : Forall (λ x, 0 ≤ x) l → 0 ≤ mean l.
Proof.
  intros Hall. destruct l as [|x l]; [by_eval|].
  apply Qcdiv_nonneg; [by apply sumQc_nonneg|].
  apply Qc_of_nat_pos. simpl. lia.
Qed.

Lemma metrics_nonneg (r : row) :
  metrics_ok r → nonneg_base r → nonneg_row r.
Proof.
  intros [H1 H2 H3 H4 H5 H6 H7] Hb. destruct Hb as [? ? ? ? ? ?] eqn:E.
  clear E.
  assert (0 ≤ impressions r / thousand) as Him.
  { apply Qcdiv_nonneg; [done|]. by_eval. }
  split; [done|..]; eexists; (split; [eassumption|]);
    by apply safe_div_nonneg.
Qed.
End bounds.

Lemma group_rows_subset group_cols k (df : list row) (P : row → Prop) :
  Forall P df → Forall P (group_rows group_cols k df).
Proof.
  rewrite !Forall_forall. intros H r [_ Hr]%list_elem_of_filter. auto.
Qed.



(** X3.  Non-negative measures stay non-negative: if spend, installs,
    impressions, payers, revenue and attribution are non-negative in every
    input row, then in every row that [load_data] produces, and in every
    row that [aggregate_data] produces from a frame whose sums fit the
    64-bit integers, the six measures are non-negative and the seven
    metrics are non-negative numbers. *)
Theorem nonnegative_in_nonnegative_out :
  (∀ parsed : list base,
     Forall nonneg_base parsed → Forall nonneg_row (load_data parsed))
  ∧ (∀ (df : list row) (group_cols : list column) (agg : list row),
       Forall (λ r : row, nonneg_base r) df → sums_fit_int64 df →
       aggregate_data df group_cols = Some agg →
       Forall nonneg_row agg).
Proof.
  split.
  - intros parsed Hp. unfold load_data, frame_fillna0, frame_replace_inf.
    rewrite <-!list_fmap_compose. apply Forall_fmap.
    eapply Forall_impl; [exact Hp|]. intros b Hb.
    apply metrics_nonneg; [apply clean_calculated_fields_ok|done].
  - intros df group_cols agg Hdf _
      (_ & Hnd & keys & Hkeys & ->)%aggregate_data_Some.
    destruct (group_keys_Some group_cols df keys Hkeys) as [_ Hmem].
    apply Forall_fmap, Forall_forall. intros k (r & Hr & Hk)%Hmem.
    apply metrics_nonneg; [apply clean_calculated_fields_ok|].
    pose proof (group_rows_subset group_cols k df _ Hdf) as Hg.
    split; simpl.
    + apply sumQc_nonneg, col_Forall.
      eapply Forall_impl; [exact Hg|]. by intros ? [].
    + apply sumQc_nonneg, col_Forall.
      eapply Forall_impl; [exact Hg|]. by intros ? [].
    + apply sumQc_nonneg, col_Forall.
      eapply Forall_impl; [exact Hg|]. by intros ? [].
    + apply sumQc_nonneg, col_Forall.
      eapply Forall_impl; [exact Hg|]. by intros ? [].
    + apply sumQc_nonneg, col_Forall.
      eapply Forall_impl; [exact Hg|]. by intros ? [].
    + apply mean_nonneg, col_Forall.
      eapply Forall_impl; [exact Hg|]. by intros ? [].
Qed.

Lemma sample_parsed_nonneg : Forall nonneg_base sample_parsed.
Proof.
  repeat (apply Forall_cons; split); [..|by apply Forall_nil];
    (split; by_eval).
Defined.

Lemma nonnegative_in_nonnegative_out_witness :
  Forall nonneg_row (load_data sample_parsed)
  ∧ Forall nonneg_row [scenario_group].
Proof.
  split.
  - apply (proj1 nonnegative_in_nonnegative_out sample_parsed).
    exact sample_parsed_nonneg.
  - apply (proj2 nonnegative_in_nonnegative_out
             (load_data [scenario_record]) [AppName] [scenario_group]).
    + apply Forall_cons; split; [|by apply Forall_nil]. split; by_eval.
    + apply sums_fit_canon. by_eval.
    + by_eval.
Defined.

(** ** Row-level and aggregated metrics agree *)

Lemma load_data_rows (parsed : list base) :
  Forall2 (λ (b : base) (r : row), row_base r = b ∧ metrics_ok r)
    parsed (load_data parsed).
Proof.
  unfold load_data, frame_fillna0, frame_replace_inf.
  rewrite <-!list_fmap_compose.
  apply Forall2_fmap_r, Forall_Forall2_diag, Forall_forall.
  intros b _. split; [done|]. apply clean_calculated_fields_ok.
Qed.

Lemma metrics_ok_same (g r : row) :
  metrics_ok g → metrics_ok r → same_sums g r → same_metrics g r.
Proof.
  intros [G1 G2 G3 G4 G5 G6 G7] [R1 R2 R3 R4 R5 R6 R7] (E1 & E2 & E3 & E4 & E5).
  unfold same_metrics.
  rewrite G1, G2, G3, G4, G5, G6, G7, R1, R2, R3, R4, R5, R6, R7.
  by rewrite E1, E2, E3, E4, E5.
Qed.

Lemma load_data_metrics_ok (parsed : list base) (r : row) :
  r ∈ load_data parsed → metrics_ok r.
Proof.
  unfold load_data, frame_fillna0, frame_replace_inf.
  rewrite <-!list_fmap_compose. intros (b & -> & _)%list_elem_of_fmap.
  apply clean_calculated_fields_ok.
Qed.

(** X5.  [load_data] keeps the records as they are, in order, and gives
    each row the seven metrics of the table: the ratio when the denominator
    is not zero and 0 when it is. *)
Theorem load_data_row_level_metrics (parsed : list base) :
  row_base <$> load_data parsed = parsed
  ∧ Forall metrics_ok (load_data parsed).
Proof.
  split.
  - unfold load_data, frame_fillna0, frame_replace_inf.
    rewrite <-!list_fmap_compose.
    rewrite (fmap_ext_in _ id); [apply list_fmap_id|done].
  - apply Forall_forall, load_data_metrics_ok.
Qed.

(** X6.  A group of one row of a loaded frame shows that row: the same
    spend, installs, impressions, payers, revenue and attribution and the
    same seven metrics as [load_data] computed for the row. *)
Theorem aggregate_data_single_row_group
    (parsed : list base) (group_cols : list column) (agg : list row)
    (g r : row) (k : list cell) :
  aggregate_data (load_data parsed) group_cols = Some agg →
  g ∈ agg → row_key group_cols g = Some k →
  group_rows group_cols k (load_data parsed) = [r] →
  same_sums g r ∧ attribution g = attribution r ∧ same_metrics g r.
Proof.
  intros (_ & Hnd & keys & Hkeys & ->)%aggregate_data_Some
    (k' & -> & Hk')%list_elem_of_fmap Hk Hrows.
  rewrite row_key_agg_row in Hk;
    [|done|by eapply group_keys_arity]. injection Hk as ->.
  assert (same_sums (agg_row group_cols (load_data parsed) k) r) as Hs.
  { unfold same_sums, agg_row. simpl. rewrite Hrows. unfold col. simpl.
    by rewrite !Qcplus_0_r. }
  split; [done|]. split.
  - unfold agg_row. simpl. rewrite Hrows. apply mean_singleton.
  - apply metrics_ok_same; [apply clean_calculated_fields_ok| |done].
    assert (r ∈ load_data parsed) as Hr.
    { assert (r ∈ group_rows group_cols k (load_data parsed)) as Hin
        by (rewrite Hrows; left).
      by apply list_elem_of_filter in Hin as [_ ?]. }
    by apply (load_data_metrics_ok parsed).
Qed.

Lemma aggregate_data_single_row_group_witness :
  same_sums scenario_group
    (map_cells fillna0 (map_cells replace_inf
       (calculated_fields scenario_record)))
  ∧ attribution scenario_group
    = attribution (map_cells fillna0 (map_cells replace_inf
        (calculated_fields scenario_record)))
  ∧ same_metrics scenario_group
      (map_cells fillna0 (map_cells replace_inf
         (calculated_fields scenario_record))).
Proof.
  apply (aggregate_data_single_row_group [scenario_record] [AppName]
           [scenario_group] _ _ [Str "A"]).
  - by_eval.
  - left.
  - by_eval.
  - by_eval.
Defined.

(** ** Rolling up a finer aggregate *)

Lemma group_keys_total_inv (df : list row) group_cols keys (r : row) :
  group_keys df group_cols = Some keys → r ∈ df →
  is_Some (row_key group_cols r).
Proof.
  intros Hkeys Hr. destruct (row_key group_cols r) as [k|] eqn:Hk; [eauto|].
  assert (group_keys df group_cols = None) as Hn
    by (apply group_keys_None; eauto).
  congruence.
Qed.

Section roll_up.
Variables fine coarse : list column.
Hypothesis fine_distinct : NoDup fine.
Hypothesis coarse_distinct : NoDup coarse.
Hypothesis coarse_nonempty : coarse ≠ [].
Hypothesis coarse_in_fine : ∀ c, c ∈ coarse → c ∈ fine.
Implicit Types (df : list row) (kf kc : list cell) (r g : row).

Lemma fine_nonempty : fine ≠ [].
Proof.
  destruct coarse as [|c cs]; [done|]. intros Hf.
  specialize (coarse_in_fine c ltac:(left)). rewrite Hf in coarse_in_fine.
  by apply elem_of_nil in coarse_in_fine.
Qed.

(** A row and the group of its fine key agree on the fine columns ... *)
Lemma agg_row_cells df r kf c :
  row_key fine r = Some kf → c ∈ fine →
  cells (agg_row fine df kf) !! c = cells r !! c.
Proof.
  intros Hr Hc.
  pose proof (row_key_agg_row fine df kf fine_distinct
                (row_key_length fine r kf Hr)) as Hg.
  unfold row_key in Hr, Hg. apply mapM_Some in Hr, Hg.
  apply list_elem_of_lookup in Hc as [i Hi].
  destruct (Forall2_lookup_l _ _ _ i c Hr Hi) as (v & Hv & ->).
  destruct (Forall2_lookup_l _ _ _ i c Hg Hi) as (v' & Hv' & ->).
  congruence.
Qed.

(** ... and so they have the same coarse key. *)
Lemma agg_row_coarse_key df r kf :
  row_key fine r = Some kf →
  row_key coarse (agg_row fine df kf) = row_key coarse r.
Proof.
  intros Hr. unfold row_key. apply Forall_mapM_ext, Forall_forall.
  intros c Hc. by apply (agg_row_cells df r kf c), coarse_in_fine.
Qed.

Lemma has_columns_coarse df : has_columns fine df → has_columns coarse df.
Proof.
  unfold has_columns. intros H. eapply Forall_impl; [exact H|].
  intros r Hr c Hc. by apply Hr, coarse_in_fine.
Qed.

Lemma group_rows_fmap (F : list cell → row) (keys : list (list cell)) kc :
  group_rows coarse kc (F <$> keys)
  = F <$> filter (λ kf, row_key coarse (F kf) = Some kc) keys.
Proof.
  induction keys as [|kf keys IH]; [done|].
  rewrite fmap_cons, group_rows_cons, filter_cons.
  case_decide; csimpl; by rewrite IH.
Qed.

(** The coarse keys of the fine aggregate are the coarse keys of the
    frame. *)
Lemma group_keys_roll_up df keys_f keys_c :
  group_keys df fine = Some keys_f →
  group_keys df coarse = Some keys_c →
  group_keys (agg_row fine df <$> keys_f) coarse = Some keys_c.
Proof.
  intros Hf Hc.
  destruct (group_keys_Some fine df keys_f Hf) as [Hndf Hmemf].
  destruct (group_keys_Some coarse df keys_c Hc) as [Hndc Hmemc].
  destruct (group_keys (agg_row fine df <$> keys_f) coarse)
    as [keys'|] eqn:H'.
  - f_equal. apply (Sorted_unique key_le).
    + by eapply group_keys_sorted.
    + by eapply group_keys_sorted.
    + destruct (group_keys_Some coarse _ keys' H') as [Hnd' Hmem'].
      apply NoDup_Permutation; [done..|]. intros k.
      rewrite Hmem', Hmemc. split.
      * intros (g & (kf & -> & Hkf)%list_elem_of_fmap & Hg).
        apply Hmemf in Hkf as (r & Hr & Hrf). exists r. split; [done|].
        by rewrite <-(agg_row_coarse_key df r kf).
      * intros (r & Hr & Hrc).
        assert (is_Some (row_key fine r)) as [kf Hrf].
        { apply group_keys_total_inv with df keys_f; done. }
        exists (agg_row fine df kf). split.
        -- apply list_elem_of_fmap. exists kf. split; [done|].
           apply Hmemf. eauto.
        -- by rewrite (agg_row_coarse_key df r kf).
  - exfalso. apply group_keys_None in H' as (g & Hg & Hnone).
    apply list_elem_of_fmap in Hg as (kf & -> & Hkf).
    apply Hmemf in Hkf as (r & Hr & Hrf).
    rewrite (agg_row_coarse_key df r kf) in Hnone by done.
    assert (is_Some (row_key coarse r)) as [kc Hkc].
    { apply group_keys_total_inv with df keys_c; done. }
    congruence.
Qed.

(** The coarse group of the fine aggregate sums to the coarse group of the
    frame. *)
Lemma sum_roll_up (c : base → Qc) df keys_f kc :
  group_keys df fine = Some keys_f →
  (∀ kf, c (agg_row fine df kf) = sumQc (col c (group_rows fine kf df))) →
  sumQc (col c (group_rows coarse kc (agg_row fine df <$> keys_f)))
  = sumQc (col c (group_rows coarse kc df)).
Proof.
  intros Hf Hc.
  destruct (group_keys_Some fine df keys_f Hf) as [Hndf Hmemf].
  rewrite group_rows_fmap.
  set (P := λ kf, row_key coarse (agg_row fine df kf) = Some kc).
  rewrite <-(sum_groups fine c (group_rows coarse kc df) (filter P keys_f)).
  - unfold col at 1. rewrite <-list_fmap_compose. f_equal.
    apply fmap_ext_in. intros kf [HP Hkf]%list_elem_of_filter.
    unfold compose. rewrite Hc. do 2 f_equal. unfold group_rows.
    rewrite list_filter_filter. apply list_filter_iff. intros r.
    split; [|by intros []]. intros Hr. split; [done|].
    by rewrite <-(agg_row_coarse_key df r kf).
  - by apply NoDup_filter.
  - intros r [Hrc Hr]%list_elem_of_filter.
    assert (is_Some (row_key fine r)) as [kf Hrf].
    { apply group_keys_total_inv with df keys_f; done. }
    exists kf. split; [|done]. apply list_elem_of_filter. split.
    + unfold P. by rewrite (agg_row_coarse_key df r kf).
    + apply Hmemf. eauto.
Qed.
End roll_up.

(** X7.  Rolling up: aggregating by columns [fine] and then aggregating the
    result by some of those columns gives the same groups, with the same
    keys in the same order, as aggregating the input by the fewer columns
    directly; and on a frame of counts, where the sums of the code are
    exact, also the same five sums and the same seven metrics. *)
Theorem aggregate_data_roll_up (df : list row) (fine coarse : list column) :
  coarse ≠ [] → NoDup coarse → NoDup fine →
  (∀ c, c ∈ coarse → c ∈ fine) → has_columns fine df →
  ∃ fine_agg direct rolled : list row,
    aggregate_data df fine = Some fine_agg
    ∧ aggregate_data df coarse = Some direct
    ∧ aggregate_data fine_agg coarse = Some rolled
    ∧ Forall2 (λ g g' : row, cells g = cells g') rolled direct
    ∧ (exact_frame df →
       Forall2 (λ g g' : row, same_sums g g' ∧ same_metrics g g')
         rolled direct).
Proof.
  intros Hne Hndc Hndf Hsub Hdf.
  pose proof (fine_nonempty fine coarse Hndc Hne Hsub) as Hnef.
  destruct (aggregate_data_total fine df Hnef Hndf Hdf)
    as (keys_f & Hkf & Hfine).
  destruct (aggregate_data_total coarse df Hne Hndc
              (has_columns_coarse fine coarse Hsub df Hdf))
    as (keys_c & Hkc & Hdirect).
  pose proof (group_keys_roll_up fine coarse Hndf Hsub df keys_f keys_c
                Hkf Hkc) as Hroll.
  exists (agg_row fine df <$> keys_f), (agg_row coarse df <$> keys_c),
    (agg_row coarse (agg_row fine df <$> keys_f) <$> keys_c).
  split; [done|]. split; [done|]. split; [|split].
  - rewrite aggregate_data_unfold, decide_False, decide_True by done.
    by rewrite Hroll.
  - apply Forall2_fmap, Forall_Forall2_diag, Forall_forall. by intros kc _.
  - intros _.
    apply Forall2_fmap, Forall_Forall2_diag, Forall_forall. intros kc _.
    assert (same_sums (agg_row coarse (agg_row fine df <$> keys_f) kc)
              (agg_row coarse df kc)) as Hs.
    { repeat split;
        apply (sum_roll_up fine coarse Hndf Hsub _ df keys_f kc Hkf);
        done. }
    split; [done|].
    apply metrics_ok_same; [apply clean_calculated_fields_ok..|done].
Qed.

Lemma sample_df_has_app_campaign :
  has_columns [AppName; CampaignId] sample_df.
Proof.
  eapply Forall_impl; [exact sample_df_raw|].
  intros r (Ha & Hc & _) c Hin.
  apply elem_of_cons in Hin as [->|Hin]; [done|].
  by apply list_elem_of_singleton in Hin as ->.
Defined.

Lemma aggregate_data_roll_up_witness :
  ∃ fine_agg direct rolled : list row,
    aggregate_data sample_df [AppName; CampaignId] = Some fine_agg
    ∧ aggregate_data sample_df [AppName] = Some direct
    ∧ aggregate_data fine_agg [AppName] = Some rolled
    ∧ Forall2 (λ g g' : row, cells g = cells g') rolled direct
    ∧ Forall2 (λ g g' : row, same_sums g g' ∧ same_metrics g g')
        rolled direct.
Proof.
  destruct (aggregate_data_roll_up sample_df [AppName; CampaignId] [AppName])
    as (fine_agg & direct & rolled & H1 & H2 & H3 & H4 & H5).
  - discriminate.
  - by_eval.
  - by_eval.
  - intros c ->%list_elem_of_singleton. left.
  - exact sample_df_has_app_campaign.
  - exists fine_agg, direct, rolled. repeat (split; [done|]).
    exact (H5 sample_df_exact).
Defined.

(** ** Sidebar filters: what passes *)

Section filters.
Implicit Types (df : list row) (sel : selection) (r : row).

Lemma isin_mask_spec c (vs : list cell) r :
  isin_mask c vs r = true ↔ ∃ v, cells r !! c = Some v ∧ v ∈ vs.
Proof.
  unfold isin_mask. destruct (cells r !! c) as [v|].
  - rewrite bool_decide_eq_true. split; [eauto|]. by intros (? & [= <-] & ?).
  - split; [done|]. by intros (? & ? & _).
Qed.

Lemma between_mask_spec s e r :
  between_mask s e r = true
  ↔ ∃ d, cells r !! Date = Some (Day d) ∧ s ≤ d ∧ d ≤ e.
Proof.
  unfold between_mask. destruct (cells r !! Date) as [[?|d]|].
  - split; [done|]. by intros (? & ? & _).
  - rewrite andb_true_iff, !Z.leb_le. split; [eauto|].
    by intros (? & [= <-] & ?).
  - split; [done|]. by intros (? & ? & _).
Qed.

Lemma passes_spec sel r : passes sel r = true ↔ selected sel r.
Proof.
  unfold passes. rewrite !andb_true_iff, !isin_mask_spec. split.
  - intros [[[Ha Hc] Hk] Hd]. split; try done.
    intros s e E. rewrite E in Hd. by apply between_mask_spec.
  - intros [Ha Hc Hk Hd]. repeat split; try done.
    unfold date_mask. destruct (selected_dates sel) as [|s [|e [|]]]; try done.
    by apply between_mask_spec, Hd.
Qed.

Lemma date_filter_filter dates df :
  date_filter dates df = filter (λ r, date_mask dates r = true) df.
Proof.
  unfold date_filter, date_mask.
  destruct dates as [|s [|e [|]]]; try done;
    symmetry; apply filter_all, Forall_forall; done.
Qed.

(** The four filters in sequence are one filter by the conjunction. *)
Lemma filtered_df_filter df sel :
  filtered_df df sel = filter (λ r, passes sel r = true) df.
Proof.
  unfold filtered_df, isin. rewrite date_filter_filter.
  rewrite !list_filter_filter. apply list_filter_iff. intros r.
  unfold passes. rewrite !andb_true_iff. tauto.
Qed.


Lemma sumQc_sublist (c : base → Qc) df df' :
  df' `sublist_of` df → Forall (λ r : row, (0 ≤ c r)%Qc) df →
  (sumQc (col c df') ≤ sumQc (col c df))%Qc.
Proof.
  induction 1 as [|r l1 l2 _ IH|r l1 l2 _ IH]; intros Hall.
  - apply Qcle_refl.
  - apply Forall_cons in Hall as [_ Hall].
    rewrite !col_cons, !sumQc_cons.
    apply Qcplus_le_compat; [apply Qcle_refl|]. by apply IH.
  - apply Forall_cons in Hall as [Hr Hall].
    rewrite col_cons, sumQc_cons. eapply Qcle_trans; [by apply IH|].
    rewrite <-(Qcplus_0_l (sumQc (col c l2))) at 1.
    by apply Qcplus_le_compat; [|apply Qcle_refl].
Qed.
Lemma filtered_df_sublist df sel : filtered_df df sel `sublist_of` df.
Proof. rewrite filtered_df_filter. apply sublist_filter. Qed.

Lemma elem_of_filtered_df df sel r :
  r ∈ filtered_df df sel ↔ r ∈ df ∧ selected sel r.
Proof.
  rewrite filtered_df_filter, list_elem_of_filter, passes_spec. tauto.
Qed.
End filters.

(** X8.  The filters keep exactly the rows that meet all four criteria,
    in their original order and without repeating any: the result is a
    sublist of the frame, and a row is in it if and only if it is in the
    frame and its app, campaign and creative are selected and its date is in
    the selected range (when a range of two dates is selected). *)
Theorem filtered_df_selects (df : list row) (sel : selection) :
  filtered_df df sel `sublist_of` df
  ∧ ∀ r, r ∈ filtered_df df sel ↔ r ∈ df ∧ selected sel r.
Proof. split; [apply filtered_df_sublist|apply elem_of_filtered_df]. Qed.

(** X9.  Filtering is idempotent: applying the same selection to the
    filtered frame changes nothing. *)
Theorem filtered_df_idempotent (df : list row) (sel : selection) :
  filtered_df (filtered_df df sel) sel = filtered_df df sel.
Proof.
  rewrite !filtered_df_filter, list_filter_filter.
  apply list_filter_iff. tauto.
Qed.

(** X10.  An empty selection in any of the three dimensions excludes every
    row, and so does a range whose end is before its start. *)
Theorem filtered_df_excludes_all (df : list row) (sel : selection) :
  selected_apps sel = [] ∨ selected_campaigns sel = []
  ∨ selected_creatives sel = []
  ∨ (∃ start_date end_date,
       selected_dates sel = [start_date; end_date] ∧ end_date < start_date) →
  filtered_df df sel = [].
Proof.
  intros H. apply elem_of_nil_inv. intros r Hr.
  apply elem_of_filtered_df in Hr as [_ [Ha Hc Hk Hd]].
  destruct H as [E|[E|[E|(s & e & E & Hlt)]]].
  - destruct Ha as (v & _ & Hv). rewrite E in Hv. by apply elem_of_nil in Hv.
  - destruct Hc as (v & _ & Hv). rewrite E in Hv. by apply elem_of_nil in Hv.
  - destruct Hk as (v & _ & Hv). rewrite E in Hv. by apply elem_of_nil in Hv.
  - destruct (Hd s e E) as (d & _ & ? & ?). lia.
Qed.

Lemma filtered_df_excludes_all_witness :
  filtered_df sample_df
    {| selected_apps := [Str "A"]; selected_campaigns := [];
       selected_creatives := [Str "k1"]; selected_dates := [20093; 20094] |}
  = []
  ∧ filtered_df sample_df
      {| selected_apps := [Str "A"]; selected_campaigns := [Str "c1"];
         selected_creatives := [Str "k1"]; selected_dates := [20094; 20093] |}
    = [].
Proof.
  split.
  - apply filtered_df_excludes_all. right; left. reflexivity.
  - apply filtered_df_excludes_all. right; right; right.
    exists 20094, 20093. split; [reflexivity|lia].
Defined.

Lemma exact_frame_sublist (df part : list row) :
  part `sublist_of` df → exact_frame df → exact_frame part.
Proof.
  intros Hsub Hdf c Hc. destruct (Hdf c Hc) as [Hall Hle]. split.
  - rewrite Forall_forall in Hall. apply Forall_forall.
    intros r Hr. apply Hall. by eapply elem_of_sublist.
  - eapply Qcle_trans; [|exact Hle]. rewrite !total_sumQc.
    apply sumQc_sublist; [done|].
    eapply Forall_impl; [exact Hall|]. intros r. apply counting_nonneg.
Qed.

(** X4.  On a frame of counts every sum of the code is exact.  For any
    rows kept from such a frame, in their order, and for each of the five
    summed columns: the compensated float64 sum of a groupby, a plain
    float64 sum in any order and bracketing, as [Series.sum()] computes
    one, and the int64 sum of a column of integers are all the exact sum
    [column_sum]. *)
Theorem column_sum_exact (df part : list row) (c : base → Qc) :
  exact_frame df → c ∈ summed_measures → part `sublist_of` df →
  f64_group_sum (col c part) = Fin (column_sum c part)
  ∧ (∀ t : sum_tree,
       leaves t ≡ₚ col c part → f64_tree_sum t = Fin (column_sum c part))
  ∧ (∀ zs : list Z,
       col c part = Qc_of_Z <$> zs →
       Qc_of_Z (int64_sum zs) = column_sum c part).
Proof.
  intros Hdf Hc Hsub.
  destruct (exact_frame_sublist df part Hsub Hdf c Hc) as [Hall Hle].
  rewrite total_sumQc in Hle. unfold column_sum.
  pose proof (col_Forall c counting part Hall) as Hcol.
  split; [by apply f64_group_sum_exact|]. split.
  - intros t Ht. rewrite <-(sumQc_Permutation _ _ Ht) in Hle |- *.
    apply f64_tree_sum_exact; [|done]. by rewrite Ht.
  - intros zs Hzs. rewrite Hzs in Hle, Hcol |- *.
    rewrite sumQc_of_Z in Hle |- *. f_equal. apply int64_sum_exact.
    apply Z2Qc_inj_le in Hle.
    assert (0 ≤ sumZ zs) as Hnn.
    { apply Z2Qc_inj_le. rewrite Z2Qc_inj_0, <-sumQc_of_Z.
      by apply counting_nonneg, counting_sum. }
    assert (2 ^ 53 < 2 ^ 63) by (apply Z.pow_lt_mono_r; lia). lia.
Qed.

Lemma column_sum_exact_witness :
  f64_group_sum (col spend (select_app sample_df "A"))
  = Fin (column_sum spend (select_app sample_df "A"))
  ∧ (∀ t : sum_tree,
       leaves t ≡ₚ col spend (select_app sample_df "A") →
       f64_tree_sum t = Fin (column_sum spend (select_app sample_df "A")))
  ∧ (∀ zs : list Z,
       col spend (select_app sample_df "A") = Qc_of_Z <$> zs →
       Qc_of_Z (int64_sum zs) = column_sum spend (select_app sample_df "A")).
Proof.
  apply (column_sum_exact sample_df (select_app sample_df "A") spend).
  - exact sample_df_exact.
  - left.
  - apply sublist_filter.
Defined.

(** X11.  On a frame of counts a filter never increases a total: for each
    of the five summed columns, the sum over the filtered frame is at most
    the sum over the frame. *)
Theorem filtered_df_total_le
    (c : base → Qc) (df : list row) (sel : selection) :
  exact_frame df → c ∈ summed_measures →
  (column_sum c (filtered_df df sel) ≤ column_sum c df)%Qc.
Proof.
  intros Hdf Hc. apply sumQc_sublist; [apply filtered_df_sublist|].
  by apply exact_frame_nonneg.
Qed.

Lemma filtered_df_total_le_witness :
  (column_sum spend
     (filtered_df sample_df
        {| selected_apps := [Str "A"]; selected_campaigns := [Str "c1"];
           selected_creatives := [Str "k1"];
           selected_dates := [20093; 20094] |})
   ≤ column_sum spend sample_df)%Qc.
Proof.
  apply (filtered_df_total_le spend sample_df).
  - exact sample_df_exact.
  - left.
Defined.

(** ** Budget usage *)

Section progress.
Local Open Scope Qc_scope.
Implicit Types (spend x : Qc) (total : Z).

Lemma hundred_pos : 0 < hundred.
Proof. by_eval. Qed.

Lemma pct_display_Fin x :
  pct_display (Fin x)
  = if Qc_ltb 1 (x / hundred) then Fin 1 else Fin (x / hundred).
Proof.
  unfold pct_display. simpl.
  rewrite div_fin_nonzero by apply hundred_nonzero. done.
Qed.

Lemma pct_display_unit x : 0 ≤ x → unit_cell (pct_display (Fin x)).
Proof.
  intros Hx. rewrite pct_display_Fin. unfold Qc_ltb. case_bool_decide as H.
  - exists 1. split; [done|]. split; by_eval.
  - eexists. split; [done|]. split.
    + apply Qcdiv_nonneg; [done|apply hundred_pos].
    + by apply Qcnot_lt_le.
Qed.

Lemma pct_used_nonneg spend total :
  0 ≤ spend → ∃ x, pct_used spend total = Fin x ∧ 0 ≤ x.
Proof.
  intros Hs. destruct (decide (0 < total)%Z) as [Ht|Ht].
  - eexists. split; [exact (proj1 (pct_used_spec spend total) Ht)|].
    apply Qcmult_nonneg_nonneg; [|apply Qclt_le_weak, hundred_pos].
    apply Qcdiv_nonneg; [done|].
    rewrite <-Z2Qc_inj_0. by apply (proj1 (Z2Qc_inj_lt 0 total)).
  - exists 0. split; [|done].
    apply (proj2 (pct_used_spec spend total)). lia.
Qed.

(** The progress bar always gets a value between 0 and 1. *)
Lemma progress_value_unit spend total :
  0 ≤ spend → unit_cell (pct_display (pct_used spend total)).
Proof.
  intros Hs. destruct (pct_used_nonneg spend total Hs) as (x & -> & Hx).
  by apply pct_display_unit.
Qed.
End progress.

Section app_views.
Implicit Types (df : list row) (nd : Z) (k : list cell).

(** A total over the aggregate is the total over the frame. *)
Lemma agg_total (c : base → Qc) df group_cols agg :
  (∀ k, c (agg_row group_cols df k)
        = sumQc (col c (group_rows group_cols k df))) →
  aggregate_data df group_cols = Some agg →
  sumQc (col c agg) = sumQc (col c df).
Proof.
  intros Hc (_ & _ & keys & Hkeys & ->)%aggregate_data_Some.
  destruct (group_keys_Some group_cols df keys Hkeys) as [Hnd Hmem].
  rewrite <-(sum_groups group_cols c df keys); [|done|].
  - unfold col at 1. rewrite <-list_fmap_compose. f_equal.
    apply fmap_ext_in. intros k _. apply Hc.
  - intros r Hr.
    destruct (group_keys_total_inv df group_cols keys r Hkeys Hr) as [k Hk].
    exists k. split; [|done]. apply Hmem. eauto.
Qed.

Lemma named_frame_has_app df : named_frame df → has_columns [AppName] df.
Proof.
  unfold named_frame, has_columns. intros H.
  eapply Forall_impl; [exact H|].
  intros r (s & Hs) c ->%list_elem_of_singleton. eauto.
Qed.

(** The rows of the aggregate by app name their app. *)
Lemma aggregate_by_app_named df agg :
  named_frame df → aggregate_data df [AppName] = Some agg → named_frame agg.
Proof.
  intros Hdf (_ & _ & keys & Hkeys & ->)%aggregate_data_Some.
  destruct (group_keys_Some [AppName] df keys Hkeys) as [_ Hmem].
  apply Forall_fmap, Forall_forall. intros k (r & Hr & Hk)%Hmem.
  unfold named_frame in Hdf. rewrite Forall_forall in Hdf.
  destruct (Hdf r Hr) as (s & Hs). exists s.
  unfold row_key in Hk. simpl in Hk. rewrite Hs in Hk. simpl in Hk.
  injection Hk as <-. simpl. apply lookup_insert_eq.
Qed.

Lemma budget_bar_of_named nd (g : row) s :
  cells g !! AppName = Some (Str s) →
  budget_bar_of nd g
  = Some {| bar_app := s; bar_spend := spend g;
            bar_total_budget := daily_cap s * nd;
            bar_pct_used := pct_used (spend g) (daily_cap s * nd);
            bar_pct_display :=
              pct_display (pct_used (spend g) (daily_cap s * nd)) |}.
Proof. intros H. unfold budget_bar_of. by rewrite H. Qed.

Lemma app_level_row_named nd (g : row) s :
  cells g !! AppName = Some (Str s) →
  app_level_row nd g = Some (with_budget (daily_cap s * nd) g).
Proof. intros H. unfold app_level_row. by rewrite H. Qed.

(** A per-row function that succeeds on named rows maps a named frame. *)
Lemma mapM_named {B} (f : row → option B) (Q : row → Prop)
    (P : row → B → Prop) df :
  named_frame df → Forall Q df →
  (∀ (g : row) s, Q g → cells g !! AppName = Some (Str s) →
                  ∃ b, f g = Some b ∧ P g b) →
  ∃ out, mapM f df = Some out ∧ Forall2 P df out.
Proof.
  intros Hdf HQ Hf. revert HQ.
  induction Hdf as [|g df (s & Hs) _ IH]; intros HQ.
  - by exists [].
  - apply Forall_cons in HQ as [Hg HQ].
    destruct (IH HQ) as (out & Hout & Hall).
    destruct (Hf g s Hg Hs) as (b & Hb & HP). exists (b :: out).
    split; [|by constructor]. apply mapM_Some. constructor; [done|].
    by apply mapM_Some.
Qed.

Lemma agg_spend_nonneg df group_cols agg :
  Forall (λ r : row, (0 ≤ spend r)%Qc) df →
  aggregate_data df group_cols = Some agg →
  Forall (λ g : row, (0 ≤ spend g)%Qc) agg.
Proof.
  intros Hdf (_ & _ & keys & _ & ->)%aggregate_data_Some.
  apply Forall_fmap, Forall_forall. intros k _. simpl.
  apply sumQc_nonneg, col_Forall. by apply group_rows_subset.
Qed.

Lemma sumQc_Forall2 {A B} (f : A → Qc) (h : B → Qc) (l : list A)
    (k : list B) :
  Forall2 (λ a b, h b = f a) l k → sumQc (h <$> k) = sumQc (f <$> l).
Proof.
  induction 1 as [|a b l k Hab _ IH]; [done|].
  by rewrite !fmap_cons, !sumQc_cons, Hab, IH.
Qed.
End app_views.

(** X12.  The value handed to the progress widget is a fraction between 0
    and 1 whenever the spend is not negative, whatever the budget; it is 1
    as soon as the spend reaches a positive budget.  So on a frame whose
    rows name their app and have non-negative spend, and whose sums fit the
    64-bit integers, there is one bar per app of the aggregate, in its
    order, and every bar shows a fraction between 0 and 1. *)
Theorem budget_bars_progress :
  (∀ (sp : Qc) (total : Z),
     (0 ≤ sp)%Qc → unit_cell (pct_display (pct_used sp total)))
  ∧ (∀ (sp : Qc) (total : Z),
       0 < total → (Qc_of_Z total ≤ sp)%Qc →
       pct_display (pct_used sp total) = Fin 1)
  ∧ (∀ (filtered : list row) (nd : Z),
       named_frame filtered →
       Forall (λ r : row, (0 ≤ spend r)%Qc) filtered →
       sums_fit_int64 filtered →
       ∃ (agg : list row) (bars : list budget_bar),
         aggregate_data filtered [AppName] = Some agg
         ∧ budget_bars filtered nd = Some bars
         ∧ Forall2 (λ (g : row) (b : budget_bar),
                      cells g !! AppName = Some (Str (bar_app b))
                      ∧ unit_cell (bar_pct_display b)) agg bars).
Proof.
  split; [|split].
  - intros sp total Hsp. by apply progress_value_unit.
  - intros sp total Htotal Hsp.
    rewrite (proj1 (pct_used_spec sp total) Htotal), pct_display_Fin.
    assert (0 < Qc_of_Z total)%Qc as Hpos.
    { rewrite <-Z2Qc_inj_0. by apply (proj1 (Z2Qc_inj_lt 0 total)). }
    assert (sp / Qc_of_Z total * hundred / hundred = sp / Qc_of_Z total)%Qc
      as ->.
    { field. repeat split;
        first [apply hundred_nonzero|by apply not_eq_sym, Qclt_not_eq]. }
    unfold Qc_ltb. case_bool_decide as H; [done|].
    apply Qcnot_lt_le in H. f_equal. apply Qcle_antisym; [done|].
    apply (Qcmult_lt_0_le_reg_r _ _ (Qc_of_Z total)); [done|].
    rewrite Qcmult_1_l.
    replace (sp / Qc_of_Z total * Qc_of_Z total)%Qc with sp; [done|].
    field. by apply not_eq_sym, Qclt_not_eq.
  - intros filtered nd Hnamed Hnn _.
    destruct (aggregate_data_total [AppName] filtered) as (keys & _ & Hagg);
      [done|apply NoDup_singleton|by apply named_frame_has_app|].
    pose proof (aggregate_by_app_named filtered _ Hnamed Hagg) as Hnagg.
    pose proof (agg_spend_nonneg filtered _ _ Hnn Hagg) as Hnnagg.
    destruct (mapM_named (budget_bar_of nd) (λ g : row, (0 ≤ spend g)%Qc)
      (λ (g : row) (b : budget_bar),
         cells g !! AppName = Some (Str (bar_app b))
         ∧ unit_cell (bar_pct_display b))
      _ Hnagg Hnnagg) as (bars & Hbars & Hall).
    { intros g s Hg Hs. eexists. split; [by apply budget_bar_of_named|].
      simpl. split; [done|]. by apply progress_value_unit. }
    exists (agg_row [AppName] filtered <$> keys), bars.
    split; [done|]. split; [|done].
    unfold budget_bars. by rewrite Hagg.
Qed.

Lemma sample_df_named : named_frame sample_df.
Proof.
  repeat (apply Forall_cons; split); [..|by apply Forall_nil];
    eexists; vm_compute; reflexivity.
Defined.

Lemma sample_df_spend_nonneg :
  Forall (λ r : row, (0 ≤ spend r)%Qc) sample_df.
Proof.
  repeat (apply Forall_cons; split); [..|by apply Forall_nil]; by_eval.
Defined.

Lemma budget_bars_progress_witness :
  unit_cell (pct_display (pct_used (Qc_of_Z 400) 4000))
  ∧ pct_display (pct_used (Qc_of_Z 9000) 4000) = Fin 1
  ∧ ∃ (agg : list row) (bars : list budget_bar),
      aggregate_data sample_df [AppName] = Some agg
      ∧ budget_bars sample_df 2 = Some bars
      ∧ Forall2 (λ (g : row) (b : budget_bar),
                   cells g !! AppName = Some (Str (bar_app b))
                   ∧ unit_cell (bar_pct_display b)) agg bars.
Proof.
  destruct budget_bars_progress as (Hunit & Hfull & Hbars).
  split; [apply Hunit; by_eval|]. split; [apply Hfull; [lia|by_eval]|].
  apply Hbars.
  - exact sample_df_named.
  - exact sample_df_spend_nonneg.
  - exact sample_df_fits.
Defined.

(** ** Performance by day *)

Section date_order.
Implicit Types (r g : row) (df : list row).

Lemma cell_leb_refl (a : cell) : cell_leb a a = true.
Proof.
  destruct a as [s|d]; simpl.
  - unfold String.leb. by rewrite string_compare_refl.
  - apply Z.leb_refl.
Qed.

Global Instance date_le_total : Total date_le.
Proof.
  intros r1 r2. unfold date_le, date_leb.
  destruct (cells r1 !! Date), (cells r2 !! Date); auto.
  apply cell_leb_total.
Qed.

Global Instance date_le_trans : Transitive date_le.
Proof.
  intros r1 r2 r3. unfold date_le, date_leb.
  destruct (cells r1 !! Date), (cells r2 !! Date), (cells r3 !! Date);
    try done.
  apply cell_leb_trans.
Qed.

Lemma date_key_cell df (v : cell) :
  cells (agg_row [Date] df [v]) !! Date = Some v.
Proof. simpl. apply lookup_insert_eq. Qed.

Lemma key_arity_one group_cols (keys : list (list cell)) k :
  length group_cols = 1%nat → key_arity group_cols keys → k ∈ keys →
  ∃ v, k = [v].
Proof.
  intros Hlen Har Hk. specialize (Har k Hk). rewrite Hlen in Har.
  destruct k as [|v [|]]; try done. by exists v.
Qed.

(** The aggregate by date is in date order already. *)
Lemma aggregate_by_date_sorted df agg :
  aggregate_data df [Date] = Some agg →
  StronglySorted date_le agg
  ∧ ∀ g1 g2, g1 ∈ agg → g2 ∈ agg → date_le g1 g2 → date_le g2 g1 → g1 = g2.
Proof.
  intros (_ & _ & keys & Hkeys & ->)%aggregate_data_Some.
  pose proof (group_keys_arity df [Date] keys Hkeys) as Har.
  pose proof (group_keys_sorted df [Date] keys Hkeys) as Hs.
  apply (Sorted_StronglySorted key_le) in Hs.
  assert (∀ k1 k2, k1 ∈ keys → k2 ∈ keys →
            date_le (agg_row [Date] df k1) (agg_row [Date] df k2)
            ↔ key_le k1 k2) as Hle.
  { intros k1 k2 H1 H2.
    destruct (key_arity_one [Date] keys k1 eq_refl Har H1) as [v1 ->].
    destruct (key_arity_one [Date] keys k2 eq_refl Har H2) as [v2 ->].
    unfold date_le, date_leb, key_le. rewrite !date_key_cell. simpl.
    case_decide; [subst; by rewrite cell_leb_refl|done]. }
  split.
  - clear Hkeys. induction Hs as [|k keys Hs IH Hall]; [constructor|].
    rewrite fmap_cons. constructor.
    + apply IH.
      * intros k' Hk'. apply Har. by right.
      * intros k1 k2 H1 H2. apply Hle; by right.
    + apply Forall_fmap, Forall_forall. intros k' Hk'.
      apply Hle; [left|by right|].
      rewrite Forall_forall in Hall. by apply Hall.
  - intros g1 g2 (k1 & -> & H1)%list_elem_of_fmap
      (k2 & -> & H2)%list_elem_of_fmap H12 H21.
    f_equal. apply (anti_symm key_le); by apply Hle.
Qed.
End date_order.

(** X13.  Sorting the aggregate by date, as the day table does, leaves it
    as it is: [aggregate_data] already returns the days in ascending
    order. *)
Theorem sort_values_date_aggregate (filtered agg : list row) :
  aggregate_data filtered [Date] = Some agg →
  sort_values_date agg = agg.
Proof.
  intros Hagg. destruct (aggregate_by_date_sorted filtered agg Hagg)
    as [Hs Hanti].
  unfold sort_values_date.
  apply (StronglySorted_unique_strong date_le).
  - intros g1 g2 H1 H2. apply Hanti; [|done].
    by rewrite <-(merge_sort_Permutation date_le agg).
  - apply (StronglySorted_merge_sort date_le).
  - done.
  - apply merge_sort_Permutation.
Qed.

Lemma sort_values_date_aggregate_witness :
  sort_values_date
    (agg_row [Date] sample_df <$> [[Day 20093]; [Day 20094]])
  = agg_row [Date] sample_df <$> [[Day 20093]; [Day 20094]].
Proof.
  apply (sort_values_date_aggregate sample_df). by_eval.
Defined.

Section day_budget.
Implicit Types (df filtered : list row).

Lemma raw_frame_has_date df : raw_frame df → has_columns [Date] df.
Proof.
  intros H. eapply Forall_impl; [exact H|].
  intros r (_ & _ & _ & d & Hd) c ->%list_elem_of_singleton. eauto.
Qed.

Lemma daily_cap_bounds (app_name : string) :
  2000 ≤ daily_cap app_name ≤ 4000.
Proof. rewrite daily_cap_cases. case_decide; lia. Qed.

Lemma sumZ_caps_bounds (names : list string) :
  2000 * Z.of_nat (length names) ≤ sumZ (daily_cap <$> names)
  ≤ 4000 * Z.of_nat (length names).
Proof.
  induction names as [|a names IH]; [simpl; lia|].
  pose proof (daily_cap_bounds a). cbn [length fmap list_fmap sumZ foldr].
  fold (sumZ (daily_cap <$> names)). lia.
Qed.

Lemma app_names_nonempty df : named_frame df → df ≠ [] → app_names df ≠ [].
Proof.
  intros Hn Hne. destruct df as [|r df]; [done|].
  apply Forall_cons in Hn as [(s & Hs) _].
  unfold app_names. simpl. by rewrite Hs.
Qed.

Lemma unique_nonempty {A} `{EqDecision A} (l : list A) :
  l ≠ [] → unique l ≠ [].
Proof. by destruct l. Qed.

Lemma pct_of_budget_used_Fin (sp : Qc) (total : Z) :
  0 < total →
  pct_of_budget_used sp total = Fin (sp / Qc_of_Z total * hundred)%Qc.
Proof.
  intros H. rewrite pct_of_budget_used_pos by done.
  by apply pct_used_spec.
Qed.
End day_budget.

(** X14.  The day table: on a loaded frame whose rows name their app the
    table is computed; the day budget lies between 2000 and 4000 times the
    number of distinct apps of the filtered frame; and as soon as the frame
    has a row the budget is positive, so every "% of Budget Used" of the
    table is the finite number [spend / budget * 100], never inf or NaN.
    An empty frame gives an empty table. *)
Theorem day_level_df_budget (filtered : list row) :
  raw_frame filtered → named_frame filtered →
  ∃ rows : list budget_row,
    day_level_df filtered = Some rows
    ∧ (filtered = [] → rows = [])
    ∧ 2000 * Z.of_nat (length (unique (app_names filtered)))
      ≤ day_total_budget filtered
      ≤ 4000 * Z.of_nat (length (unique (app_names filtered)))
    ∧ (filtered ≠ [] →
         0 < day_total_budget filtered
         ∧ Forall (λ b : budget_row,
                     br_total_budget b = day_total_budget filtered
                     ∧ br_pct b
                       = Fin (spend (br_row b)
                              / Qc_of_Z (day_total_budget filtered)
                              * hundred)%Qc) rows).
Proof.
  intros Hraw Hnamed.
  destruct (aggregate_data_total [Date] filtered) as (keys & Hkeys & Hagg);
    [done|apply NoDup_singleton|by apply raw_frame_has_date|].
  pose proof (sumZ_caps_bounds (unique (app_names filtered))) as Hb.
  fold (day_total_budget filtered) in Hb.
  eexists. split; [unfold day_level_df; by rewrite Hagg|].
  split; [|split; [done|]].
  - intros ->. destruct (group_keys_Some [Date] [] keys Hkeys) as [_ Hmem].
    destruct keys as [|k keys]; [done|].
    destruct (proj1 (Hmem k)) as (r & ?%elem_of_nil & _); [left|done].
  - intros Hne.
    assert (0 < day_total_budget filtered) as Hpos.
    { pose proof (unique_nonempty (app_names filtered)
                    (app_names_nonempty filtered Hnamed Hne)) as Hu.
      destruct (unique (app_names filtered)); [done|]. simpl in Hb. lia. }
    split; [done|]. apply Forall_forall.
    intros b (g & -> & _)%list_elem_of_fmap. split; [done|].
    by apply pct_of_budget_used_Fin.
Qed.

Lemma day_level_df_budget_witness :
  ∃ rows : list budget_row,
    day_level_df sample_df = Some rows
    ∧ (sample_df = [] → rows = [])
    ∧ 2000 * Z.of_nat (length (unique (app_names sample_df)))
      ≤ day_total_budget sample_df
      ≤ 4000 * Z.of_nat (length (unique (app_names sample_df)))
    ∧ (sample_df ≠ [] →
         0 < day_total_budget sample_df
         ∧ Forall (λ b : budget_row,
                     br_total_budget b = day_total_budget sample_df
                     ∧ br_pct b
                       = Fin (spend (br_row b)
                              / Qc_of_Z (day_total_budget sample_df)
                              * hundred)%Qc) rows).
Proof.
  apply (day_level_df_budget sample_df).
  - exact sample_df_raw.
  - exact sample_df_named.
Defined.

(** X15.  The views agree on the total: on a frame of counts, where the
    sums of the code are exact, the spends of the progress bars, of the
    rows of the app table and of the rows of the day table each add up to
    the headline total spend of the filtered frame. *)
Theorem views_share_total_spend (filtered : list row) (nd : Z) :
  raw_frame filtered → named_frame filtered → exact_frame filtered →
  ∃ (bars : list budget_bar) (app_rows day_rows : list budget_row),
    budget_bars filtered nd = Some bars
    ∧ app_level_df filtered nd = Some app_rows
    ∧ day_level_df filtered = Some day_rows
    ∧ sumQc (bar_spend <$> bars) = (headline_kpis filtered).1.1
    ∧ sumQc ((λ b, spend (br_row b)) <$> app_rows)
      = (headline_kpis filtered).1.1
    ∧ sumQc ((λ b, spend (br_row b)) <$> day_rows)
      = (headline_kpis filtered).1.1.
Proof.
  intros Hraw Hnamed _.
  change ((headline_kpis filtered).1.1) with (sumQc (col spend filtered)).
  destruct (aggregate_data_total [AppName] filtered) as (ka & _ & Happ);
    [done|apply NoDup_singleton|by apply named_frame_has_app|].
  destruct (aggregate_data_total [Date] filtered) as (kd & _ & Hday);
    [done|apply NoDup_singleton|by apply raw_frame_has_date|].
  pose proof (aggregate_by_app_named filtered _ Hnamed Happ) as Hnagg.
  assert (Forall (λ _ : row, True) (agg_row [AppName] filtered <$> ka))
    as Htrue by (apply Forall_forall; done).
  destruct (mapM_named (budget_bar_of nd) (λ _, True)
    (λ (g : row) (b : budget_bar), bar_spend b = spend g) _ Hnagg Htrue)
    as (bars & Hbars & Hb).
  { intros g s _ Hs. eexists. by split; [apply budget_bar_of_named|]. }
  destruct (mapM_named (app_level_row nd) (λ _, True)
    (λ (g : row) (b : budget_row), spend (br_row b) = spend g)
    _ Hnagg Htrue) as (rows & Hrows & Hr).
  { intros g s _ Hs. eexists. by split; [apply app_level_row_named|]. }
  exists bars, rows. eexists.
  split; [unfold budget_bars; by rewrite Happ|].
  split; [unfold app_level_df; by rewrite Happ|].
  split; [unfold day_level_df; by rewrite Hday|].
  split; [|split].
  - rewrite (sumQc_Forall2 (λ g : row, spend g) _ _ _ Hb).
    by apply (agg_total spend filtered [AppName]).
  - rewrite (sumQc_Forall2 (λ g : row, spend g) _ _ _ Hr).
    by apply (agg_total spend filtered [AppName]).
  - rewrite <-list_fmap_compose.
    rewrite (sumQc_Permutation _ (col spend (agg_row [Date] filtered <$> kd))).
    + by apply (agg_total spend filtered [Date]).
    + unfold col, sort_values_date.
      by rewrite (merge_sort_Permutation date_le).
Qed.

Lemma views_share_total_spend_witness :
  ∃ (bars : list budget_bar) (app_rows day_rows : list budget_row),
    budget_bars sample_df 2 = Some bars
    ∧ app_level_df sample_df 2 = Some app_rows
    ∧ day_level_df sample_df = Some day_rows
    ∧ sumQc (bar_spend <$> bars) = (headline_kpis sample_df).1.1
    ∧ sumQc ((λ b, spend (br_row b)) <$> app_rows)
      = (headline_kpis sample_df).1.1
    ∧ sumQc ((λ b, spend (br_row b)) <$> day_rows)
      = (headline_kpis sample_df).1.1.
Proof.
  apply (views_share_total_spend sample_df 2).
  - exact sample_df_raw.
  - exact sample_df_named.
  - exact sample_df_exact.
Defined.

(** ** Day count *)

Lemma default_selection_dates (today : Z) (df : list row) :
  raw_frame df →
  selected_dates (default_selection today df)
  = [(date_bounds today df).1; (date_bounds today df).2]
  ∧ filtered_df df (default_selection today df) = df.
Proof.
  intros Hraw. destruct (raw_frame_columns df Hraw) as (Ha & Hc & Hk & Hd).
  unfold filtered_df, default_selection.
  rewrite (isin_default AppName), (isin_default CampaignId),
    (isin_default CreativeId) by done.
  destruct (date_bounds today df) as [lo hi] eqn:Hb. simpl.
  rewrite (isin_default AppName), (isin_default CampaignId),
    (isin_default CreativeId) by done.
  split; [done|].
  replace lo with (date_bounds today df).1 by by rewrite Hb.
  replace hi with (date_bounds today df).2 by by rewrite Hb.
  by apply date_filter_default.
Qed.

Lemma list_min_le_max d ds : list_min d ds ≤ list_max d ds.
Proof.
  pose proof (list_min_le d ds d ltac:(left)).
  pose proof (list_max_ge d ds d ltac:(left)). lia.
Qed.

(** X16.  With the default date range on a loaded frame that has rows, the
    day count is the span of the data, [latest - earliest + 1], which is at
    least 1; the branch for an incomplete date selection computes the same
    count; and every app's total budget is then positive. *)
Theorem budget_num_days_default (today : Z) (df : list row) :
  raw_frame df → df ≠ [] →
  ∃ n : Z,
    budget_num_days (selected_dates (default_selection today df))
      (filtered_df df (default_selection today df)) = Some n
    ∧ budget_num_days [] df = Some n
    ∧ n = (date_bounds today df).2 - (date_bounds today df).1 + 1
    ∧ 1 ≤ n
    ∧ ∀ app_name, 0 < daily_cap app_name * n.
Proof.
  intros Hraw Hne.
  destruct (default_selection_dates today df Hraw) as [-> ->].
  destruct (raw_frame_columns df Hraw) as (_ & _ & _ & Hd).
  assert (date_values df ≠ []) as Hdv.
  { destruct df as [|r df]; [done|].
    apply Forall_cons in Hd as [[d Hd] _].
    unfold date_values. simpl. by rewrite Hd. }
  unfold budget_num_days, budget_range, date_bounds.
  destruct (date_values df) as [|d ds]; [done|]. simpl.
  eexists. split; [done|]. split; [done|]. split; [done|].
  pose proof (list_min_le_max d ds). unfold num_days.
  split; [lia|]. intros app_name. pose proof (daily_cap_pos app_name). nia.
Qed.

Lemma budget_num_days_default_witness :
  ∃ n : Z,
    budget_num_days (selected_dates (default_selection 20100 sample_df))
      (filtered_df sample_df (default_selection 20100 sample_df)) = Some n
    ∧ budget_num_days [] sample_df = Some n
    ∧ n = (date_bounds 20100 sample_df).2 - (date_bounds 20100 sample_df).1 + 1
    ∧ 1 ≤ n
    ∧ ∀ app_name, 0 < daily_cap app_name * n.
Proof.
  apply (budget_num_days_default 20100 sample_df).
  - exact sample_df_raw.
  - discriminate.
Defined.

(** ** Headline ROAS *)

Lemma roas_percent_safe_div (rev sp : Qc) :
  (0 ≤ sp)%Qc →
  roas_percent rev sp = fmul (Fin (safe_div rev sp)) (Fin hundred).
Proof.
  intros Hsp. unfold roas_percent, safe_div, Qc_ltb.
  case_bool_decide as Hpos.
  - rewrite decide_False by by apply not_eq_sym, Qclt_not_eq.
    simpl. rewrite div_fin_nonzero; [done|].
    by apply not_eq_sym, Qclt_not_eq.
  - rewrite decide_True.
    + simpl. by rewrite Qcmult_0_l.
    + destruct (Qcle_lt_or_eq _ _ Hsp) as [?| <-]; done.
Qed.

(** X17.  The headline ROAS and the ROAS column agree: on a frame of
    counts, where the sums of the code are exact, [revenue / spend * 100 if
    spend > 0 else 0] over the totals of the rows of a group is 100 times
    the ROAS that [aggregate_data] puts in the group's row. *)
Theorem roas_percent_matches_aggregate
    (df : list row) (group_cols : list column) (agg : list row)
    (g : row) (k : list cell) :
  exact_frame df →
  aggregate_data df group_cols = Some agg →
  g ∈ agg → row_key group_cols g = Some k →
  (headline_kpis (group_rows group_cols k df)).2
  = fmul (ROAS g) (Fin hundred).
Proof.
  intros Hexact Hagg Hg Hk.
  assert (Forall (λ r : row, (0 ≤ spend r)%Qc) df) as Hnn
    by (apply exact_frame_nonneg; [done|left]).
  pose proof (agg_spend_nonneg df group_cols agg Hnn Hagg) as Hsp.
  rewrite Forall_forall in Hsp. specialize (Hsp g Hg).
  apply aggregate_data_Some in Hagg as (_ & Hnd & keys & Hkeys & ->).
  apply list_elem_of_fmap in Hg as (k' & -> & Hk').
  rewrite row_key_agg_row in Hk; [|done|by eapply group_keys_arity].
  injection Hk as ->.
  destruct (clean_calculated_fields_ok
    (agg_group group_cols k (group_rows group_cols k df)))
    as [_ _ _ HROAS _ _ _].
  unfold agg_row. rewrite HROAS. unfold headline_kpis, column_sum. simpl.
  by apply roas_percent_safe_div.
Qed.

Lemma roas_percent_matches_aggregate_witness :
  (headline_kpis
     (group_rows [AppName] [Str "A"] (load_data [scenario_record]))).2
  = fmul (ROAS scenario_group) (Fin hundred).
Proof.
  apply (roas_percent_matches_aggregate (load_data [scenario_record])
           [AppName] [scenario_group]).
  - apply exact_frame_canon. by_eval.
  - by_eval.
  - left.
  - by_eval.
Defined.

(** ** App analysis tab *)

Section app_tab.
Local Open Scope Qc_scope.
Implicit Types (df app_df : list row) (k : list cell).

Lemma map_fmap {A B} (f : A → B) (l : list A) : map f l = f <$> l.
Proof. done. Qed.

Lemma raw_frame_has_columns group_cols df :
  raw_frame df → has_columns group_cols df.
Proof.
  intros H. eapply Forall_impl; [exact H|].
  intros r (Ha & Hc & Hk & d & Hd) c _. destruct c; eauto.
Qed.

Lemma raw_frame_filter (P : row → Prop) `{∀ r, Decision (P r)} df :
  raw_frame df → raw_frame (filter P df).
Proof.
  unfold raw_frame. rewrite !Forall_forall.
  intros H' r [_ Hr]%list_elem_of_filter. auto.
Qed.

Lemma n_unique_dates_pos app_df :
  raw_frame app_df → app_df ≠ [] → (0 < n_unique_dates app_df)%nat.
Proof.
  intros Hraw Hne. unfold n_unique_dates.
  destruct app_df as [|r app_df]; [done|].
  apply Forall_cons in Hraw as [(_ & _ & _ & d & Hd) _].
  unfold column_values. simpl. rewrite Hd. simpl. lia.
Qed.

Lemma group_keys_strictly_sorted df group_cols (keys : list (list cell)) :
  group_keys df group_cols = Some keys → StronglySorted key_lt keys.
Proof.
  intros Hkeys. apply StronglySorted_strict.
  - apply Sorted_StronglySorted; [apply _|]. by eapply group_keys_sorted.
  - by destruct (group_keys_Some group_cols df keys Hkeys).
Qed.

Lemma campaign_detail_of_Some (grp : list cell * list row) d :
  campaign_detail_of grp = Some d →
  cd_campaign d = grp.1
  ∧ cd_spend d = column_sum spend grp.2
  ∧ cd_revenue d = column_sum revenue_d7 grp.2
  ∧ cd_roas d = roas_percent (cd_revenue d) (cd_spend d)
  ∧ aggregate_data grp.2 [AppName; CampaignId; CreativeId]
    = Some (cd_creatives d).
Proof.
  unfold campaign_detail_of.
  destruct (aggregate_data grp.2 _) as [creative_df|]; simpl; [|done].
  by intros [= <-].
Qed.
End app_tab.

(** X18.  The campaign summary of a selected app: on a loaded frame in
    which the app has rows, the budget [daily cap * number of distinct
    dates of the app] is positive, and every "% of Budget Used" is the
    finite number [spend / budget * 100], never inf or NaN. *)
Theorem campaign_df_budget (df : list row) (selected_app : string) :
  raw_frame df → select_app df selected_app ≠ [] →
  ∃ rows : list budget_row,
    campaign_df selected_app (select_app df selected_app) = Some rows
    ∧ rows ≠ []
    ∧ 0 < campaign_budget selected_app (select_app df selected_app)
    ∧ Forall (λ b : budget_row,
                br_total_budget b
                = campaign_budget selected_app (select_app df selected_app)
                ∧ br_pct b
                  = Fin (spend (br_row b)
                         / Qc_of_Z (campaign_budget selected_app
                                      (select_app df selected_app))
                         * Qc_of_Z 100)%Qc) rows.
Proof.
  intros Hraw Hne.
  set (app_df := select_app df selected_app) in *.
  assert (raw_frame app_df) as Hraw' by by apply raw_frame_filter.
  set (B := campaign_budget selected_app app_df).
  assert (0 < B) as HB.
  { unfold B, campaign_budget.
    pose proof (daily_cap_pos selected_app).
    pose proof (n_unique_dates_pos app_df Hraw' Hne). nia. }
  destruct (aggregate_data_total [AppName; CampaignId] app_df)
    as (keys & Hkeys & Hagg);
    [done|by_eval|by apply raw_frame_has_columns|].
  exists (with_budget B <$> (agg_row [AppName; CampaignId] app_df <$> keys)).
  split; [unfold campaign_df; by rewrite Hagg|]. split; [|split; [done|]].
  - destruct (group_keys_Some [AppName; CampaignId] app_df keys Hkeys)
      as [_ Hmem].
    destruct app_df as [|r app_df'] eqn:E; [done|].
    destruct (group_keys_total_inv (r :: app_df') [AppName; CampaignId]
                keys r Hkeys) as [k Hk]; [left|].
    assert (k ∈ keys) as Hin by (apply Hmem; exists r; split; [left|done]).
    destruct keys; [by apply elem_of_nil in Hin|done].
  - apply Forall_fmap, Forall_forall. intros g _. split; [done|].
    by apply pct_of_budget_used_Fin.
Qed.

Lemma campaign_df_budget_witness :
  ∃ rows : list budget_row,
    campaign_df "A" (select_app sample_df "A") = Some rows
    ∧ rows ≠ []
    ∧ 0 < campaign_budget "A" (select_app sample_df "A")
    ∧ Forall (λ b : budget_row,
                br_total_budget b
                = campaign_budget "A" (select_app sample_df "A")
                ∧ br_pct b
                  = Fin (spend (br_row b)
                         / Qc_of_Z (campaign_budget "A"
                                      (select_app sample_df "A"))
                         * Qc_of_Z 100)%Qc) rows.
Proof.
  apply (campaign_df_budget sample_df "A").
  - exact sample_df_raw.
  - by_eval.
Defined.

(** X19.  The campaign details: on a loaded frame of counts, where the
    sums of the code are exact, there is one expander per campaign, in
    strictly increasing order of the campaign id; the spends and the
    revenues of the expanders add up to the totals of the app's frame, and
    inside each expander the creative rows add up to the spend and the
    revenue in its title. *)
Theorem campaign_details_partition (app_df : list row) :
  raw_frame app_df → exact_frame app_df →
  ∃ details : list campaign_detail,
    campaign_details app_df = Some details
    ∧ StronglySorted key_lt (cd_campaign <$> details)
    ∧ sumQc (cd_spend <$> details) = column_sum spend app_df
    ∧ sumQc (cd_revenue <$> details) = column_sum revenue_d7 app_df
    ∧ Forall (λ d : campaign_detail,
                sumQc (col spend (cd_creatives d)) = cd_spend d
                ∧ sumQc (col revenue_d7 (cd_creatives d)) = cd_revenue d
                ∧ cd_roas d = roas_percent (cd_revenue d) (cd_spend d))
        details.
Proof.
  intros Hraw _.
  destruct (group_keys_total [CampaignId] app_df) as [keys Hkeys];
    [by apply raw_frame_has_columns|].
  destruct (group_keys_Some [CampaignId] app_df keys Hkeys) as [Hnd Hmem].
  set (groups := (λ k, (k, group_rows [CampaignId] k app_df)) <$> keys).
  assert (is_Some (mapM campaign_detail_of groups)) as [details Hdetails].
  { apply mapM_is_Some, Forall_fmap, Forall_forall. intros k _. simpl.
    unfold campaign_detail_of. simpl.
    destruct (aggregate_data_total [AppName; CampaignId; CreativeId]
                (group_rows [CampaignId] k app_df))
      as (ks & _ & ->); [done|by_eval| |by eexists].
    by apply raw_frame_has_columns, raw_frame_filter. }
  exists details.
  split; [unfold campaign_details, groupby_iter; by rewrite Hkeys|].
  apply mapM_Some in Hdetails.
  assert (Forall2 (λ k d,
            cd_campaign d = k
            ∧ cd_spend d = sumQc (col spend (group_rows [CampaignId] k app_df))
            ∧ cd_revenue d
              = sumQc (col revenue_d7 (group_rows [CampaignId] k app_df))
            ∧ cd_roas d = roas_percent (cd_revenue d) (cd_spend d)
            ∧ aggregate_data (group_rows [CampaignId] k app_df)
                [AppName; CampaignId; CreativeId] = Some (cd_creatives d))
            keys details) as Hall.
  { apply Forall2_fmap_l in Hdetails.
    eapply Forall2_impl; [exact Hdetails|].
    intros k d Hd%campaign_detail_of_Some. exact Hd. }
  assert (∀ r : row, r ∈ app_df →
            ∃ k, k ∈ keys ∧ row_key [CampaignId] r = Some k) as Hcover.
  { intros r Hr.
    destruct (group_keys_total_inv app_df [CampaignId] keys r Hkeys Hr)
      as [k Hk]. exists k. split; [|done]. apply Hmem. eauto. }
  split; [|split; [|split]].
  - replace (cd_campaign <$> details) with keys.
    + by eapply group_keys_strictly_sorted.
    + clear -Hall. induction Hall as [|k d ks ds (Hk & _) _ IH]; [done|].
      csimpl. by rewrite Hk, <-IH.
  - unfold column_sum.
    rewrite <-(sum_groups [CampaignId] spend app_df keys Hnd Hcover).
    apply sumQc_Forall2. eapply Forall2_impl; [exact Hall|].
    by intros k d (_ & ? & _).
  - unfold column_sum.
    rewrite <-(sum_groups [CampaignId] revenue_d7 app_df keys Hnd Hcover).
    apply sumQc_Forall2. eapply Forall2_impl; [exact Hall|].
    by intros k d (_ & _ & ? & _).
  - clear -Hall. induction Hall as [|k d ks ds (_ & Hs & Hr & Hro & Hc) _ IH];
      constructor; [|done].
    split; [|split; [|done]].
    + rewrite Hs.
      by apply (agg_total spend _ [AppName; CampaignId; CreativeId]).
    + rewrite Hr.
      by apply (agg_total revenue_d7 _ [AppName; CampaignId; CreativeId]).
Qed.

Lemma campaign_details_partition_witness :
  ∃ details : list campaign_detail,
    campaign_details (select_app sample_df "A") = Some details
    ∧ StronglySorted key_lt (cd_campaign <$> details)
    ∧ sumQc (cd_spend <$> details)
      = column_sum spend (select_app sample_df "A")
    ∧ sumQc (cd_revenue <$> details)
      = column_sum revenue_d7 (select_app sample_df "A")
    ∧ Forall (λ d : campaign_detail,
                sumQc (col spend (cd_creatives d)) = cd_spend d
                ∧ sumQc (col revenue_d7 (cd_creatives d)) = cd_revenue d
                ∧ cd_roas d = roas_percent (cd_revenue d) (cd_spend d))
        details.
Proof.
  apply (campaign_details_partition (select_app sample_df "A")).
  - apply raw_frame_filter. exact sample_df_raw.
  - apply exact_frame_filter. exact sample_df_exact.
Defined.

(** ** [format_metrics] on a frame *)

Section format_frame.
Implicit Types (col : string) (x : value).

Lemma format_cell_unrendered col x :
  col ∉ rendered_cols → format_cell col x = x.
Proof.
  unfold rendered_cols. rewrite !elem_of_app. intros H.
  unfold format_cell.
  repeat case_bool_decide; try done; exfalso; apply H; auto.
Qed.

Lemma format_cell_rendered col x :
  col ∈ rendered_cols → numeric x = true → ∃ s, format_cell col x = VStr s.
Proof.
  unfold rendered_cols. rewrite !elem_of_app. intros [H|[H|H]] Hx.
  - rewrite format_cell_thousand by done. unfold format_thousand.
    fold (numeric x). rewrite Hx. eauto.
  - rewrite format_cell_percent by done. unfold format_percent.
    fold (numeric x). rewrite Hx. eauto.
  - rewrite format_cell_decimal by done. unfold format_decimal.
    fold (numeric x). rewrite Hx. eauto.
Qed.

(** A formatted cell is the cell itself or a text. *)
Lemma format_cell_cases col x :
  format_cell col x = x ∨ ∃ s, format_cell col x = VStr s.
Proof.
  destruct (numeric x) eqn:Hx; [|left; by apply format_cell_passthrough].
  destruct (decide (col ∈ rendered_cols)) as [Hc|Hc].
  - right. by apply format_cell_rendered.
  - left. by apply format_cell_unrendered.
Qed.

Lemma format_cell_idempotent col x :
  format_cell col (format_cell col x) = format_cell col x.
Proof.
  destruct (format_cell_cases col x) as [H|[s H]].
  - by rewrite !H.
  - rewrite H. by apply format_cell_passthrough.
Qed.
End format_frame.

(** X20.  [format_metrics] keeps the shape of the frame: the same rows in
    the same order, each with the same columns in the same order; a cell
    keeps its value unless it is a number in one of the thirteen rendered
    columns, and such a cell becomes a text. *)
Theorem format_metrics_shape (df : list (list (string * value))) :
  Forall2 (Forall2 cell_formatted) df (format_metrics df).
Proof.
  unfold format_metrics.
  apply Forall2_fmap_r, Forall_Forall2_diag, Forall_forall. intros r _.
  apply Forall2_fmap_r, Forall_Forall2_diag, Forall_forall.
  intros [col x] _. split; [done|]. split; simpl.
  - intros [H|H]; [by apply format_cell_unrendered
                  |by apply format_cell_passthrough].
  - apply format_cell_rendered.
Qed.

(** X21.  Formatting is idempotent: a frame that went through
    [format_metrics] comes out of it unchanged. *)
Theorem format_metrics_idempotent (df : list (list (string * value))) :
  format_metrics (format_metrics df) = format_metrics df.
Proof.
  unfold format_metrics. rewrite <-list_fmap_compose.
  apply fmap_ext_in. intros r _. unfold compose.
  rewrite <-list_fmap_compose. apply fmap_ext_in. intros [col x] _.
  unfold compose. simpl. by rewrite format_cell_idempotent.
Qed.

(** ** Thousands separators *)

(** X22.  The grouping of the thousands loses nothing: for an integer of
    at most 53 bits, which [float()] converts exactly, removing the commas
    from its rendering [f"{n:,.0f}"], which is what [load_data] does to the
    "Impressions" text, gives the plain numeral of the integer; and so does
    removing the points from what a thousands column displays. *)
Theorem thousands_separators_round_trip (n : Z) :
  Z.abs n ≤ 2 ^ 53 →
  remove_char ","%char (format_f 0 true (to_float (VInt n))) = pretty n
  ∧ ∃ s, format_cell "Impressions" (VInt n) = VStr s
         ∧ remove_char "."%char s = pretty n.
Proof.
  intros Hn.
  pose proof (pretty_N_plain (Z.to_N (Z.abs n))) as Hplain.
  assert (remove_char ","%char (format_f 0 true (to_float (VInt n)))
          = pretty n) as Hcomma.
  { rewrite to_float_int by done.
    rewrite format_grouped_integer, remove_char_app, remove_char_sign by done.
    rewrite remove_comma_with_commas by by apply plain_no_comma.
    by rewrite pretty_Z_sign. }
  split; [done|].
  exists (replace_comma (format_f 0 true (to_float (VInt n)))).
  split; [done|].
  rewrite remove_dot_replace_comma, Hcomma, pretty_Z_sign.
  rewrite remove_char_app, remove_char_sign by done.
  by rewrite (remove_char_absent "."%char) by by apply plain_no_dot.
Qed.

Lemma thousands_separators_round_trip_witness :
  remove_char ","%char (format_f 0 true (to_float (VInt (- 1234567))))
  = pretty (- 1234567)
  ∧ ∃ s, format_cell "Impressions" (VInt (- 1234567)) = VStr s
         ∧ remove_char "."%char s = pretty (- 1234567).
Proof. apply (thousands_separators_round_trip (- 1234567)). by_eval. Defined.

(** ** The app table and the progress bars *)

Lemma Forall2_common_source {A B C} (P : A → B → Prop) (Q : A → C → Prop)
    (l : list A) (k : list B) (m : list C) :
  Forall2 P l k → Forall2 Q l m →
  Forall2 (λ b c, ∃ a, P a b ∧ Q a c) k m.
Proof.
  intros HP. revert m. induction HP as [|a b l k Hab _ IH]; intros m HQ.
  - apply Forall2_nil_inv_l in HQ as ->. constructor.
  - apply Forall2_cons_inv_l in HQ as (c & m' & Hac & HQ & ->).
    constructor; [eauto|by apply IH].
Qed.

(** X23.  With a positive day count the app table and the progress bars
    show the same budget and the same utilisation for every app, and that
    utilisation is a finite number. *)
Theorem app_table_matches_bars (filtered : list row) (nd : Z) :
  named_frame filtered → 0 < nd →
  ∃ (bars : list budget_bar) (rows : list budget_row),
    budget_bars filtered nd = Some bars
    ∧ app_level_df filtered nd = Some rows
    ∧ Forall2 (λ (b : budget_bar) (r : budget_row),
                 cells (br_row r) !! AppName = Some (Str (bar_app b))
                 ∧ br_total_budget r = bar_total_budget b
                 ∧ br_pct r = bar_pct_used b
                 ∧ is_finite (br_pct r) = true) bars rows.
Proof.
  intros Hnamed Hnd.
  destruct (aggregate_data_total [AppName] filtered) as (keys & _ & Hagg);
    [done|apply NoDup_singleton|by apply named_frame_has_app|].
  pose proof (aggregate_by_app_named filtered _ Hnamed Hagg) as Hnagg.
  assert (Forall (λ _ : row, True) (agg_row [AppName] filtered <$> keys))
    as Htrue by (apply Forall_forall; done).
  destruct (mapM_named (budget_bar_of nd) (λ _, True)
    (λ (g : row) (b : budget_bar),
       cells g !! AppName = Some (Str (bar_app b))
       ∧ bar_total_budget b = daily_cap (bar_app b) * nd
       ∧ bar_pct_used b = pct_used (spend g) (daily_cap (bar_app b) * nd))
    _ Hnagg Htrue) as (bars & Hbars & Hb).
  { intros g s _ Hs. eexists. by split; [apply budget_bar_of_named|]. }
  destruct (mapM_named (app_level_row nd) (λ _, True)
    (λ (g : row) (r : budget_row),
       br_row r = g
       ∧ ∃ s, cells g !! AppName = Some (Str s)
              ∧ br_total_budget r = daily_cap s * nd
              ∧ br_pct r = pct_of_budget_used (spend g) (daily_cap s * nd))
    _ Hnagg Htrue) as (rows & Hrows & Hr).
  { intros g s _ Hs. eexists. split; [by apply app_level_row_named|].
    split; [done|]. by exists s. }
  exists bars, rows.
  split; [unfold budget_bars; by rewrite Hagg|].
  split; [unfold app_level_df; by rewrite Hagg|].
  eapply Forall2_impl; [exact (Forall2_common_source _ _ _ _ _ Hb Hr)|].
  intros b r (g & (Hgb & Htb & Hpb) & Hrg & s & Hgs & Htr & Hpr).
  assert (s = bar_app b) as -> by congruence.
  assert (0 < daily_cap (bar_app b) * nd) as Hpos.
  { pose proof (daily_cap_pos (bar_app b)). nia. }
  rewrite Hrg, Htr, Hpr, Htb, Hpb.
  rewrite pct_of_budget_used_pos by done.
  repeat split; try done.
  by rewrite (proj1 (pct_used_spec (spend g) _) Hpos).
Qed.

Lemma app_table_matches_bars_witness :
  ∃ (bars : list budget_bar) (rows : list budget_row),
    budget_bars sample_df 2 = Some bars
    ∧ app_level_df sample_df 2 = Some rows
    ∧ Forall2 (λ (b : budget_bar) (r : budget_row),
                 cells (br_row r) !! AppName = Some (Str (bar_app b))
                 ∧ br_total_budget r = bar_total_budget b
                 ∧ br_pct r = bar_pct_used b
                 ∧ is_finite (br_pct r) = true) bars rows.
Proof.
  apply (app_table_matches_bars sample_df 2).
  - exact sample_df_named.
  - lia.
Defined.

(** * The budget where the dashboard computes it *)

(** ** Budget utilisation at the sites of the dashboard *)

Section sites.
Implicit Types (df filtered : list row) (sel : selection) (nd : Z).

Lemma pct_used_utilization (sp : Qc) (total : Z) :
  pct_used sp total = Fin (utilization_pct sp total).
Proof.
  unfold utilization_pct. case_decide as H.
  - by apply pct_used_spec.
  - apply pct_used_spec. lia.
Qed.

Lemma pct_of_budget_used_utilization (sp : Qc) (total : Z) :
  0 < total → pct_of_budget_used sp total = Fin (utilization_pct sp total).
Proof.
  intros H. rewrite pct_of_budget_used_pos by done.
  apply pct_used_utilization.
Qed.

(** A row that passed the date filter lies in the selected range, which
    therefore is not reversed. *)
Lemma filtered_df_range df sel (r : row) s e :
  r ∈ filtered_df df sel → selected_dates sel = [s; e] → s ≤ e.
Proof.
  intros [_ [_ _ _ Hd]]%elem_of_filtered_df E.
  destruct (Hd s e E) as (d & _ & ? & ?). lia.
Qed.

(** The day count of a frame that has a row is at least one. *)
Lemma budget_num_days_pos df sel nd :
  budget_num_days (selected_dates sel) (filtered_df df sel) = Some nd →
  filtered_df df sel ≠ [] → 1 ≤ nd.
Proof.
  unfold budget_num_days, budget_range. intros Hnd Hne.
  destruct (selected_dates sel) as [|s [|e [|]]] eqn:E;
    try (destruct (date_values (filtered_df df sel)) as [|d ds];
         [done|]; injection Hnd as <-; unfold num_days; simpl;
         pose proof (list_min_le_max d ds); lia).
  injection Hnd as <-. unfold num_days. simpl.
  destruct (filtered_df df sel) as [|r l] eqn:Ef; [done|].
  assert (s ≤ e); [|lia].
  apply (filtered_df_range df sel r); [|done]. rewrite Ef. left.
Qed.

Lemma aggregate_data_nonempty df group_cols agg :
  aggregate_data df group_cols = Some agg → agg ≠ [] → df ≠ [].
Proof.
  intros (_ & _ & keys & Hkeys & ->)%aggregate_data_Some Hne ->.
  destruct (group_keys_Some group_cols [] keys Hkeys) as [_ Hmem].
  destruct keys as [|k keys]; [done|].
  destruct (proj1 (Hmem k)) as (r & ?%elem_of_nil & _); [left|done].
Qed.

Lemma named_frame_filtered df sel :
  named_frame df → named_frame (filtered_df df sel).
Proof.
  unfold named_frame. rewrite !Forall_forall.
  intros H r [Hr _]%elem_of_filtered_df. auto.
Qed.

(** The progress bars and the app table of a frame with its day count: the
    budget of every row is [daily cap * days] and positive. *)
Lemma app_budgets filtered nd :
  named_frame filtered → (filtered ≠ [] → 1 ≤ nd) →
  ∃ (bars : list budget_bar) (rows : list budget_row),
    budget_bars filtered nd = Some bars
    ∧ app_level_df filtered nd = Some rows
    ∧ (filtered = [] → bars = [] ∧ rows = [])
    ∧ Forall (λ b : budget_bar,
                bar_total_budget b = daily_cap (bar_app b) * nd
                ∧ 0 < bar_total_budget b
                ∧ bar_pct_used b
                  = pct_used (bar_spend b) (bar_total_budget b)) bars
    ∧ Forall (λ b : budget_row,
                (∃ s, cells (br_row b) !! AppName = Some (Str s)
                      ∧ br_total_budget b = daily_cap s * nd)
                ∧ 0 < br_total_budget b
                ∧ br_pct b
                  = pct_of_budget_used (spend (br_row b))
                      (br_total_budget b)) rows.
Proof.
  intros Hnamed Hnd.
  destruct (aggregate_data_total [AppName] filtered) as (keys & Hkeys & Hagg);
    [done|apply NoDup_singleton|by apply named_frame_has_app|].
  pose proof (aggregate_by_app_named filtered _ Hnamed Hagg) as Hnagg.
  assert (agg_row [AppName] filtered <$> keys ≠ [] → 1 ≤ nd) as Hpos.
  { intros Hne. by apply Hnd, (aggregate_data_nonempty _ _ _ Hagg). }
  assert (Forall (λ _ : row, 1 ≤ nd) (agg_row [AppName] filtered <$> keys))
    as Hall.
  { apply Forall_forall. intros g Hg. apply Hpos. intros E.
    rewrite E in Hg. by apply elem_of_nil in Hg. }
  destruct (mapM_named (budget_bar_of nd) (λ _, 1 ≤ nd)
    (λ (g : row) (b : budget_bar),
       bar_total_budget b = daily_cap (bar_app b) * nd
       ∧ 0 < bar_total_budget b
       ∧ bar_pct_used b = pct_used (bar_spend b) (bar_total_budget b))
    _ Hnagg Hall) as (bars & Hbars & Hb).
  { intros g s Hg Hs. eexists. split; [by apply budget_bar_of_named|].
    simpl. pose proof (daily_cap_pos s). repeat split; [nia]. }
  destruct (mapM_named (app_level_row nd) (λ _, 1 ≤ nd)
    (λ (g : row) (b : budget_row),
       (∃ s, cells (br_row b) !! AppName = Some (Str s)
             ∧ br_total_budget b = daily_cap s * nd)
       ∧ 0 < br_total_budget b
       ∧ br_pct b
         = pct_of_budget_used (spend (br_row b)) (br_total_budget b))
    _ Hnagg Hall) as (rows & Hrows & Hr).
  { intros g s Hg Hs. eexists. split; [by apply app_level_row_named|].
    simpl. pose proof (daily_cap_pos s). repeat split; [eauto|nia]. }
  exists bars, rows.
  split; [unfold budget_bars; by rewrite Hagg|].
  split; [unfold app_level_df; by rewrite Hagg|].
  split; [|split].
  - intros ->. destruct (group_keys_Some [AppName] [] keys Hkeys) as [_ Hmem].
    destruct keys as [|k keys].
    + apply Forall2_nil_inv_l in Hb, Hr. done.
    + destruct (proj1 (Hmem k)) as (r & ?%elem_of_nil & _); [left|done].
  - by eapply Forall2_Forall_r; [exact Hb|apply Forall_forall].
  - by eapply Forall2_Forall_r; [exact Hr|apply Forall_forall].
Qed.

(** The day table. *)
Lemma day_budgets filtered :
  raw_frame filtered → named_frame filtered →
  ∃ rows : list budget_row,
    day_level_df filtered = Some rows
    ∧ Forall (λ b : budget_row,
                br_total_budget b = day_total_budget filtered
                ∧ 0 < br_total_budget b
                ∧ br_pct b
                  = pct_of_budget_used (spend (br_row b))
                      (br_total_budget b)) rows.
Proof.
  intros Hraw Hnamed.
  destruct (aggregate_data_total [Date] filtered) as (keys & Hkeys & Hagg);
    [done|apply NoDup_singleton|by apply raw_frame_has_date|].
  eexists. split; [unfold day_level_df; by rewrite Hagg|].
  apply Forall_fmap, Forall_forall. intros g Hg. simpl.
  split; [done|]. split; [|done].
  assert (filtered ≠ []) as Hne.
  { apply (aggregate_data_nonempty _ _ _ Hagg). intros E.
    unfold sort_values_date in Hg.
    rewrite (merge_sort_Permutation date_le), E in Hg.
    by apply elem_of_nil in Hg. }
  pose proof (sumZ_caps_bounds (unique (app_names filtered))) as Hb.
  fold (day_total_budget filtered) in Hb.
  pose proof (unique_nonempty (app_names filtered)
                (app_names_nonempty filtered Hnamed Hne)) as Hu.
  destruct (unique (app_names filtered)); [done|]. simpl in Hb. lia.
Qed.

(** The campaign table of an app. *)
Lemma campaign_budgets df (selected_app : string) :
  raw_frame df →
  ∃ rows : list budget_row,
    campaign_df selected_app (select_app df selected_app) = Some rows
    ∧ Forall (λ b : budget_row,
                br_total_budget b
                = campaign_budget selected_app (select_app df selected_app)
                ∧ 0 < br_total_budget b
                ∧ br_pct b
                  = pct_of_budget_used (spend (br_row b))
                      (br_total_budget b)) rows.
Proof.
  intros Hraw. set (app_df := select_app df selected_app).
  assert (raw_frame app_df) as Hraw' by by apply raw_frame_filter.
  destruct (aggregate_data_total [AppName; CampaignId] app_df)
    as (keys & _ & Hagg);
    [done|by_eval|by apply raw_frame_has_columns|].
  eexists. split; [unfold campaign_df; by rewrite Hagg|].
  apply Forall_fmap, Forall_forall. intros g Hg. simpl.
  split; [done|]. split; [|done].
  assert (app_df ≠ []) as Hne.
  { apply (aggregate_data_nonempty _ _ _ Hagg). intros E.
    rewrite E in Hg. by apply elem_of_nil in Hg. }
  unfold campaign_budget. pose proof (daily_cap_pos selected_app).
  pose proof (n_unique_dates_pos app_df Hraw' Hne). nia.
Qed.
End sites.

(** C3.  Budget utilisation is [spend / totalBudget * 100] for a positive
    total budget and 0 otherwise, so it is 0 for spend 0 and budget 1000
    and for spend 500 and budget 0, and this is the value at every site
    that computes it.  The progress bars compute it with the guard.  The
    app table, the day table and the campaign table divide without a guard,
    and their cells still hold this value, because a table row exists only
    if the frame has a row, and then the budget of the table is positive:
    a row that passed the date filter makes the range at least one day
    long, at least one app is present on the day table, and the selected
    app has at least one date. *)
Theorem budget_utilization_at_every_site :
  (∀ (sp : Qc) (total : Z), 0 < total →
     pct_used sp total = Fin (sp / Qc_of_Z total * Qc_of_Z 100)%Qc)
  ∧ (∀ (sp : Qc) (total : Z), total ≤ 0 → pct_used sp total = Fin 0)
  ∧ pct_used 0 1000 = Fin 0
  ∧ pct_used (Qc_of_Z 500) 0 = Fin 0
  ∧ (λ b : budget_bar, (bar_app b, bar_total_budget b, bar_pct_used b))
      <$> default [] (budget_bars sample_df 2)
    = [("A", 4000, Fin (Qc_of_Z 10));
       ("MaxiBingo", 8000, Fin (Q2Qc (5 # 2)))]
  ∧ (λ b : budget_row, (br_total_budget b, br_pct b))
      <$> default [] (app_level_df sample_df 2)
    = [(4000, Fin (Qc_of_Z 10)); (8000, Fin (Q2Qc (5 # 2)))]
  ∧ (∀ (df : list row) (sel : selection) (nd : Z),
       named_frame df →
       budget_num_days (selected_dates sel) (filtered_df df sel) = Some nd →
       ∃ (bars : list budget_bar) (rows : list budget_row),
         budget_bars (filtered_df df sel) nd = Some bars
         ∧ app_level_df (filtered_df df sel) nd = Some rows
         ∧ Forall (λ b : budget_bar,
                     bar_pct_used b
                     = Fin (utilization_pct (bar_spend b)
                              (bar_total_budget b))) bars
         ∧ Forall (λ b : budget_row,
                     0 < br_total_budget b
                     ∧ br_pct b
                       = Fin (utilization_pct (spend (br_row b))
                                (br_total_budget b))) rows)
  ∧ (∀ filtered : list row,
       raw_frame filtered → named_frame filtered →
       ∃ rows : list budget_row,
         day_level_df filtered = Some rows
         ∧ Forall (λ b : budget_row,
                     0 < br_total_budget b
                     ∧ br_pct b
                       = Fin (utilization_pct (spend (br_row b))
                                (br_total_budget b))) rows)
  ∧ (∀ (df : list row) (selected_app : string),
       raw_frame df →
       ∃ rows : list budget_row,
         campaign_df selected_app (select_app df selected_app) = Some rows
         ∧ Forall (λ b : budget_row,
                     0 < br_total_budget b
                     ∧ br_pct b
                       = Fin (utilization_pct (spend (br_row b))
                                (br_total_budget b))) rows).
Proof.
  split; [|split; [|split; [|split; [|split; [|split; [|split; [|split]]]]]]].
  - intros sp total H. by apply pct_used_spec.
  - intros sp total H. apply pct_used_spec. lia.
  - by_eval.
  - by_eval.
  - by_eval.
  - by_eval.
  - intros df sel nd Hnamed Hnd.
    destruct (app_budgets (filtered_df df sel) nd)
      as (bars & rows & Hbars & Hrows & _ & Hb & Hr).
    { by apply named_frame_filtered. }
    { by apply budget_num_days_pos. }
    exists bars, rows. split; [done|]. split; [done|]. split.
    + eapply Forall_impl; [exact Hb|]. intros b (_ & _ & ->).
      apply pct_used_utilization.
    + eapply Forall_impl; [exact Hr|]. intros b (_ & Hpos & ->).
      split; [done|]. by apply pct_of_budget_used_utilization.
  - intros filtered Hraw Hnamed.
    destruct (day_budgets filtered Hraw Hnamed) as (rows & Hrows & Hr).
    exists rows. split; [done|].
    eapply Forall_impl; [exact Hr|]. intros b (_ & Hpos & ->).
    split; [done|]. by apply pct_of_budget_used_utilization.
  - intros df selected_app Hraw.
    destruct (campaign_budgets df selected_app Hraw) as (rows & Hrows & Hr).
    exists rows. split; [done|].
    eapply Forall_impl; [exact Hr|]. intros b (_ & Hpos & ->).
    split; [done|]. by apply pct_of_budget_used_utilization.
Qed.

Lemma budget_utilization_at_every_site_witness :
  pct_used (Qc_of_Z 400) 4000
  = Fin (Qc_of_Z 400 / Qc_of_Z 4000 * Qc_of_Z 100)%Qc
  ∧ pct_used (Qc_of_Z 400) (- 4000) = Fin 0
  ∧ ∃ (bars : list budget_bar) (rows : list budget_row),
      budget_bars
        (filtered_df sample_df (default_selection 20100 sample_df)) 2
      = Some bars
      ∧ app_level_df
          (filtered_df sample_df (default_selection 20100 sample_df)) 2
        = Some rows
      ∧ Forall (λ b : budget_bar,
                  bar_pct_used b
                  = Fin (utilization_pct (bar_spend b) (bar_total_budget b)))
          bars
      ∧ Forall (λ b : budget_row,
                  0 < br_total_budget b
                  ∧ br_pct b
                    = Fin (utilization_pct (spend (br_row b))
                             (br_total_budget b))) rows.
Proof.
  destruct budget_utilization_at_every_site
    as (Hpos & Hzero & _ & _ & _ & _ & Hsite & _).
  split; [apply Hpos; lia|]. split; [apply Hzero; lia|].
  apply Hsite; [exact sample_df_named|by_eval].
Defined.

(** C4.  The total budget of an app is its daily cap times the day count,
    and the day count of a selected range is [(end - start).days + 1] as it
    is, without a floor: for an end before the start it is zero or
    negative.  A reversed range however lets no row through the date
    filter, so that there is neither a progress bar nor a table row and no
    total budget is computed; and as soon as the filtered frame has a row
    the day count is at least 1 and every total budget is positive. *)
Theorem total_budget_of_day_count (df : list row) (sel : selection) :
  named_frame df →
  (∀ s e, selected_dates sel = [s; e] →
     budget_num_days (selected_dates sel) (filtered_df df sel)
     = Some (e - s + 1)
     ∧ (e < s → filtered_df df sel = []))
  ∧ ∀ nd,
      budget_num_days (selected_dates sel) (filtered_df df sel) = Some nd →
      ∃ (bars : list budget_bar) (rows : list budget_row),
        budget_bars (filtered_df df sel) nd = Some bars
        ∧ app_level_df (filtered_df df sel) nd = Some rows
        ∧ (filtered_df df sel = [] → bars = [] ∧ rows = [])
        ∧ (filtered_df df sel ≠ [] → 1 ≤ nd)
        ∧ Forall (λ b : budget_bar,
                    bar_total_budget b = daily_cap (bar_app b) * nd
                    ∧ 0 < bar_total_budget b) bars
        ∧ Forall (λ b : budget_row,
                    (∃ s, cells (br_row b) !! AppName = Some (Str s)
                          ∧ br_total_budget b = daily_cap s * nd)
                    ∧ 0 < br_total_budget b) rows.
Proof.
  intros Hnamed. split.
  - intros s e E. split; [by rewrite E|].
    intros Hlt. apply elem_of_nil_inv. intros r Hr.
    pose proof (filtered_df_range df sel r s e Hr E). lia.
  - intros nd Hnd.
    pose proof (budget_num_days_pos df sel nd Hnd) as Hpos.
    destruct (app_budgets (filtered_df df sel) nd)
      as (bars & rows & Hbars & Hrows & Hnil & Hb & Hr).
    { by apply named_frame_filtered. }
    { done. }
    exists bars, rows. repeat (split; [done|]). split.
    + eapply Forall_impl; [exact Hb|]. by intros b (? & ? & _).
    + eapply Forall_impl; [exact Hr|]. by intros b (? & ? & _).
Qed.

Lemma total_budget_of_day_count_witness :
  (∀ s e,
     selected_dates (default_selection 20100 sample_df) = [s; e] →
     budget_num_days (selected_dates (default_selection 20100 sample_df))
       (filtered_df sample_df (default_selection 20100 sample_df))
     = Some (e - s + 1)
     ∧ (e < s →
        filtered_df sample_df (default_selection 20100 sample_df) = []))
  ∧ ∀ nd,
      budget_num_days (selected_dates (default_selection 20100 sample_df))
        (filtered_df sample_df (default_selection 20100 sample_df))
      = Some nd →
      ∃ (bars : list budget_bar) (rows : list budget_row),
        budget_bars
          (filtered_df sample_df (default_selection 20100 sample_df)) nd
        = Some bars
        ∧ app_level_df
            (filtered_df sample_df (default_selection 20100 sample_df)) nd
          = Some rows
        ∧ (filtered_df sample_df (default_selection 20100 sample_df) = [] →
           bars = [] ∧ rows = [])
        ∧ (filtered_df sample_df (default_selection 20100 sample_df) ≠ [] →
           1 ≤ nd)
        ∧ Forall (λ b : budget_bar,
                    bar_total_budget b = daily_cap (bar_app b) * nd
                    ∧ 0 < bar_total_budget b) bars
        ∧ Forall (λ b : budget_row,
                    (∃ s, cells (br_row b) !! AppName = Some (Str s)
                          ∧ br_total_budget b = daily_cap s * nd)
                    ∧ 0 < br_total_budget b) rows.
Proof.
  apply (total_budget_of_day_count sample_df
           (default_selection 20100 sample_df)).
  exact sample_df_named.
Defined.

(** For the range from 2025-01-10 back to 2025-01-05 the day count is -4,
    not 1; no row passes the filter, and there is no bar and no table row
    that would carry a total budget. *)
Lemma num_days_floor_counterexample :
  let sel := {| selected_apps := [Str "A"; Str "MaxiBingo"];
                selected_campaigns := [Str "c1"; Str "c2"; Str "c3"];
                selected_creatives := [Str "k1"; Str "k2"];
                selected_dates := [20098; 20093] |} in
  budget_num_days (selected_dates sel) (filtered_df sample_df sel)
  = Some (- 4)
  ∧ budget_num_days (selected_dates sel) (filtered_df sample_df sel)
    ≠ Some 1
  ∧ filtered_df sample_df sel = []
  ∧ budget_bars (filtered_df sample_df sel) (- 4) = Some []
  ∧ app_level_df (filtered_df sample_df sel) (- 4) = Some [].
Proof. cbv zeta. repeat split; by_eval. Qed.
